(** * cppstringx: a shallow embedding of the string algorithms

    The development follows [include/cppstringx/cppstringx.hpp].  Strings
    are lists of code units; a terminated iterator is a position together
    with the code units that lie between that position and the terminating
    position; every loop of the header is a recursive function on that
    data.  Operands of one call live in separate storage, except in
    [Module shared], which models operands that are the object a call
    writes to, or a range over it. *)

From Stdlib Require Import String Ascii List Bool Arith Lia.
Import ListNotations.

Set Implicit Arguments.

(* ------------------------------------------------------------------ *)
(** ** range *)

(** [range<P>]: a begin and an end position, half open. *)
Record range (P : Type) : Type := mk_range { r_begin : P; r_end : P }.

(* ------------------------------------------------------------------ *)
(** ** Terminated iterators *)

(** [null_terminated_string_iterator] and
    [endpos_terminated_string_iterator] behind one interface.  The
    iterator stands at index [get_position] of its storage, and [units]
    are the code units it will read before it reports the end position
    (up to the terminating null, or up to the stored end position). *)
Record terminated_iterator (A : Type) : Type :=
  mk_itt { get_position : nat; units : list A }.

Section Iterator.
Context {A : Type}.

(** [is_end_position()] *)
Definition is_end_position (itt : terminated_iterator A) : bool :=
  match units itt with
  | [] => true
  | _ :: _ => false
  end.

(** [operator++] *)
Definition incr (itt : terminated_iterator A) : terminated_iterator A :=
  mk_itt (S (get_position itt)) (tl (units itt)).

(** [get_end()] *)
Definition get_end (itt : terminated_iterator A) : nat :=
  get_position itt + length (units itt).

(** [operator==] compares the wrapped positions only. *)
Definition itt_eqb (a b : terminated_iterator A) : bool :=
  get_position a =? get_position b.

(** [make_const_terminated_iterator_forward] for a string object. *)
Definition make_const_terminated_iterator_forward (text : list A)
  : terminated_iterator A :=
  mk_itt 0 text.

(** [make_terminated_iterator_forward] for a string object. *)
Definition make_terminated_iterator_forward (text : list A)
  : terminated_iterator A :=
  mk_itt 0 text.

(** [make_const_terminated_iterator_reverse] for a string object: the
    iterator runs from [crbegin()] to [crend()]; its position counts the
    steps taken from [crbegin()]. *)
Definition make_const_terminated_iterator_reverse (text : list A)
  : terminated_iterator A :=
  mk_itt 0 (rev text).

(** [reverse_iterator::base()] of the reverse position [k] of a text of
    [len] units. *)
Definition base (len k : nat) : nat := len - k.

(** The string built by the iterator-pair constructor
    [text_type(first, last)] from two positions of [text]. *)
Definition text_of_positions (text : list A) (first last : nat) : list A :=
  firstn (last - first) (skipn first text).

(** [make_const_terminated_iterator_forward] for the range object
    [[first, last)] over [text]. *)
Definition make_const_terminated_iterator_forward_range
           (text : list A) (first last : nat) : terminated_iterator A :=
  mk_itt first (text_of_positions text first last).
End Iterator.

(* ------------------------------------------------------------------ *)
(** ** Outcomes of a call *)

(** [std::invalid_argument] with its message. *)
Inductive exception : Type :=
| invalid_argument (what : string).

(** A call returns, throws, or is cut off because a loop of the model ran
    out of its step budget.  The budgets the functions below choose are
    never exhausted: see [replace_all_copy_spec],
    [replace_all_in_place_spec], [split_token_all] and
    [split_token_skip_empty]. *)
Inductive outcome (R : Type) : Type :=
| Returned (r : R)
| Thrown (e : exception)
| OutOfFuel.

Arguments Thrown {R} e.
Arguments OutOfFuel {R}.

(** Appending a converted copy unit by unit:
    [for (auto itt = src; !itt.is_end_position(); ++itt)
       target += static_cast<value_type>( *itt);] *)
Fixpoint push_back_all {A C : Type} (cast : C -> A)
         (target : list A) (us : list C) : list A :=
  match us with
  | [] => target
  | c :: us' => push_back_all cast (target ++ [cast c]) us'
  end.

(** [std::basic_string::resize(n)]: cut to [n] units, or pad with
    value-initialised units. *)
Definition resize {A : Type} (nul : A) (text : list A) (n : nat) : list A :=
  firstn n text ++ repeat nul (n - length text).

(* ------------------------------------------------------------------ *)
(** ** namespace implementation *)

Module implementation.

Section Matching.
Context {A B : Type}.
Variable compare : A -> B -> bool.

(** The loop shared by [prefix_matches], [full_match], the inner loop
    of [find_forward_optimized] and of [replace_all_copy_forward]:
    [for (; !a.is_end_position() && !b.is_end_position(); ++a, ++b)
       if (!compare( *a, *b)) break;]
    The result is the pair of iterators when the loop is left. *)
Fixpoint compare_loop (pa : nat) (ua : list A) (pb : nat) (ub : list B)
  : terminated_iterator A * terminated_iterator B :=
  match ua, ub with
  | a :: ua', b :: ub' =>
      if compare a b
      then compare_loop (S pa) ua' (S pb) ub'
      else (mk_itt pa ua, mk_itt pb ub)
  | _, _ => (mk_itt pa ua, mk_itt pb ub)
  end.

Definition lockstep (a : terminated_iterator A) (b : terminated_iterator B)
  : terminated_iterator A * terminated_iterator B :=
  compare_loop (get_position a) (units a) (get_position b) (units b).

(** [implementation::prefix_matches] *)
Definition prefix_matches (itt_text : terminated_iterator A)
           (itt_prefix : terminated_iterator B) : bool :=
  is_end_position (snd (lockstep itt_text itt_prefix)).

(** [implementation::full_match] *)
Definition full_match (itt_text_lhs : terminated_iterator A)
           (itt_text_rhs : terminated_iterator B) : bool :=
  let (l, r) := lockstep itt_text_lhs itt_text_rhs in
  is_end_position l && is_end_position r.

(** The outer loop of [find_forward_optimized].  The three results are
    [itt_text], [itt_text_compare_loop] and
    [itt_contained_string_compare_loop] when the loop is left.  Both
    compare-loop iterators are reset by the increment expression, so at
    the loop test they are copies of [itt_text] and of
    [itt_contained_string]. *)
Fixpoint find_loop (pos : nat) (us : list A)
         (itt_contained_string : terminated_iterator B)
  : terminated_iterator A * terminated_iterator A * terminated_iterator B :=
  match us with
  | [] => (mk_itt pos [], mk_itt pos [], itt_contained_string)
  | _ :: us' =>
      let (itt_text_compare_loop, itt_contained_string_compare_loop) :=
        lockstep (mk_itt pos us) itt_contained_string in
      if is_end_position itt_contained_string_compare_loop
         || is_end_position itt_text_compare_loop
      then (mk_itt pos us, itt_text_compare_loop,
            itt_contained_string_compare_loop)
      else find_loop (S pos) us' itt_contained_string
  end.

(** [implementation::find_forward_optimized] *)
Definition find_forward_optimized (itt_text : terminated_iterator A)
           (itt_contained_string : terminated_iterator B)
  : range (terminated_iterator A) :=
  let '(itt_text', itt_text_compare_loop, itt_contained_string_compare_loop) :=
    find_loop (get_position itt_text) (units itt_text) itt_contained_string in
  if is_end_position itt_contained_string_compare_loop
  then mk_range itt_text' itt_text_compare_loop
  else mk_range itt_text_compare_loop itt_text_compare_loop.
End Matching.

Section Replace.
Context {A B C : Type}.
Variable compare : A -> B -> bool.
(** [static_cast<typename text_type_a::value_type>] *)
Variable cast : C -> A.

(** [implementation::replace_all_copy_forward].  One unit of [fuel] is
    spent per test of the [while] loop. *)
Fixpoint replace_all_copy_forward (fuel : nat) (result : list A)
         (itt_text : terminated_iterator A)
         (itt_text_to_be_replaced : terminated_iterator B)
         (itt_text_to_replace_with : terminated_iterator C)
  : option (list A) :=
  match fuel with
  | 0 => None
  | S fuel' =>
      match units itt_text with
      | [] => Some result
      | a :: _ =>
          let (itt_text_inner_loop, itt_text_to_be_replaced_inner_loop) :=
            lockstep compare itt_text itt_text_to_be_replaced in
          if is_end_position itt_text_to_be_replaced_inner_loop
          then replace_all_copy_forward fuel'
                 (push_back_all cast result (units itt_text_to_replace_with))
                 itt_text_inner_loop
                 itt_text_to_be_replaced itt_text_to_replace_with
          else replace_all_copy_forward fuel'
                 (result ++ [a])
                 (incr itt_text)
                 itt_text_to_be_replaced itt_text_to_replace_with
      end
  end.

(** [implementation::replace_all_in_place_forward]; the result is the
    content of [text_to_modify_in_place] when the function returns.  The
    two operand iterators carry their units as values: the operands are held
    in storage apart from [text_to_modify_in_place].  For an operand that is
    the text object or a range over it see
    [shared.replace_all_in_place_forward]. *)
Definition replace_all_in_place_forward (nul : A)
           (text_to_modify_in_place : list A)
           (itt_text_to_be_replaced : terminated_iterator B)
           (itt_text_to_replace_with : terminated_iterator C)
  : option (list A) :=
  let itt_text := make_const_terminated_iterator_forward text_to_modify_in_place in
  let first_range_to_be_replaced :=
    find_forward_optimized compare itt_text itt_text_to_be_replaced in
  if negb (is_end_position (r_begin first_range_to_be_replaced))
  then
    let copied_tail :=
      text_of_positions text_to_modify_in_place
        (get_position (r_end first_range_to_be_replaced)) (get_end itt_text) in
    let clipped :=
      resize nul text_to_modify_in_place
        (get_position (r_begin first_range_to_be_replaced)
         - get_position itt_text) in
    let extended := push_back_all cast clipped (units itt_text_to_replace_with) in
    let itt_text_tail := make_const_terminated_iterator_forward copied_tail in
    replace_all_copy_forward (S (length copied_tail)) extended itt_text_tail
      itt_text_to_be_replaced itt_text_to_replace_with
  else Some text_to_modify_in_place.
End Replace.

Section Trim.
Context {A : Type}.
Variable is_something : A -> bool.

(** The loop of [trim_iterator]:
    [for (; !itt.is_end_position() && is_something( *itt); ++itt) {}] *)
Fixpoint trim_loop (pos : nat) (us : list A) : terminated_iterator A :=
  match us with
  | a :: us' => if is_something a then trim_loop (S pos) us' else mk_itt pos us
  | [] => mk_itt pos us
  end.

(** [implementation::trim_iterator] *)
Definition trim_iterator (itt : terminated_iterator A) : terminated_iterator A :=
  trim_loop (get_position itt) (units itt).

(** [implementation::trim_copy] for a string object. *)
Definition trim_copy (text : list A)
           (trim_start_enable trim_end_enable : bool) : list A :=
  let itt_text_start := make_const_terminated_iterator_forward text in
  let itt_text_start :=
    if trim_start_enable then trim_iterator itt_text_start else itt_text_start in
  if negb (is_end_position itt_text_start)
  then
    let itt_text_end := make_const_terminated_iterator_reverse text in
    let itt_text_end :=
      if trim_end_enable then trim_iterator itt_text_end else itt_text_end in
    text_of_positions text (get_position itt_text_start)
      (base (length text) (get_position itt_text_end))
  else
    text_of_positions text (get_position itt_text_start) (get_end itt_text_start).
End Trim.

End implementation.

(* ------------------------------------------------------------------ *)
(** ** Comparers, predicates and literals *)

(** [utility::equals_comparer] on one code-unit type with decidable
    equality. *)
Definition equals_comparer {A : Type}
           (A_eq_dec : forall x y : A, {x = y} + {x <> y}) (x y : A) : bool :=
  if A_eq_dec x y then true else false.

(** A string literal as its code units. *)
Definition lit (s : string) : list ascii := list_ascii_of_string s.

(** [utility::equals_comparer] on [char]. *)
Definition char_equals : ascii -> ascii -> bool := equals_comparer ascii_dec.

(* ------------------------------------------------------------------ *)
(** ** contains *)

Section Contains.
Context {A B : Type}.
Variable comparer : A -> B -> bool.

(** [contains(text, contained_string, comparer)] *)
Definition contains (text : list A) (contained_string : list B) : bool :=
  let itt_contained_string :=
    make_const_terminated_iterator_forward contained_string in
  is_end_position itt_contained_string
  || negb (is_end_position
             (r_begin (implementation.find_forward_optimized comparer
                         (make_const_terminated_iterator_forward text)
                         (make_const_terminated_iterator_forward contained_string)))).
End Contains.

(* ------------------------------------------------------------------ *)
(** ** replace_all *)

Section ReplaceAll.
Context {A B C : Type}.
Variable comparer : A -> B -> bool.
Variable cast : C -> A.

(** [replace_all_copy(text, text_to_be_replaced, text_to_replace_with, comparer)] *)
Definition replace_all_copy (text : list A) (text_to_be_replaced : list B)
           (text_to_replace_with : list C) : outcome (list A) :=
  let itt_text_to_be_replaced :=
    make_const_terminated_iterator_forward text_to_be_replaced in
  if is_end_position itt_text_to_be_replaced
  then Thrown (invalid_argument
    "The replace_all_copy input parameter text_to_be_replaced must not be empty.")
  else
    match implementation.replace_all_copy_forward comparer cast
            (S (length text)) []
            (make_const_terminated_iterator_forward text)
            itt_text_to_be_replaced
            (make_const_terminated_iterator_forward text_to_replace_with)
    with
    | Some result => Returned result
    | None => OutOfFuel
    end.

(** [replace_all_in_place(text, text_to_be_replaced, text_to_replace_with, comparer)]:
    the content of the object [text] after the call, and the outcome. *)
Definition replace_all_in_place (nul : A) (text : list A)
           (text_to_be_replaced : list B) (text_to_replace_with : list C)
  : list A * outcome unit :=
  let itt_text_to_be_replaced :=
    make_const_terminated_iterator_forward text_to_be_replaced in
  if is_end_position itt_text_to_be_replaced
  then (text, Thrown (invalid_argument
    "The replace_all_in_place input parameter text_to_be_replaced must not be empty."))
  else
    match implementation.replace_all_in_place_forward comparer cast nul text
            itt_text_to_be_replaced
            (make_const_terminated_iterator_forward text_to_replace_with)
    with
    | Some text' => (text', Returned tt)
    | None => (text, OutOfFuel)
    end.
End ReplaceAll.

(* ------------------------------------------------------------------ *)
(** ** trim *)

Section TrimCopy.
Context {A : Type}.
(** The predicate; the overloads without one pass [utility::is_space()],
    which asks the locale. *)
Variable predicate : A -> bool.

(** [trim_copy(text, predicate)] *)
Definition trim_copy (text : list A) : list A :=
  implementation.trim_copy predicate text true true.

(** [trim_start_copy(text, predicate)] *)
Definition trim_start_copy (text : list A) : list A :=
  implementation.trim_copy predicate text true false.

(** [trim_end_copy(text, predicate)] *)
Definition trim_end_copy (text : list A) : list A :=
  implementation.trim_copy predicate text false true.
End TrimCopy.

(* ------------------------------------------------------------------ *)
(** ** copy and join *)

(** [copy(target, text_to_copy, clear_target)]: the content of [target]
    after the call.  [text_to_copy] is held in storage apart from [target];
    for a source that is the target or a range over it see [shared.copy]. *)
Definition copy {A S : Type} (cast : S -> A)
           (target : list A) (text_to_copy : list S) (clear_target : bool)
  : list A :=
  let itt := make_const_terminated_iterator_forward text_to_copy in
  let target := if clear_target then [] else target in
  push_back_all cast target (units itt).

Section Join.
Context {A I S : Type}.
Variable cast_item : I -> A.
Variable cast_separator : S -> A.

(** The range-for loop of [join], with its [is_first] flag. *)
Fixpoint join_loop (target : list A) (is_first : bool)
         (container : list (list I)) (separator : list S) : list A :=
  match container with
  | [] => target
  | item :: container' =>
      let target :=
        if is_first then target
        else copy cast_separator target separator false in
      join_loop (copy cast_item target item false) false container' separator
  end.

(** [join(target, container, separator, clear_target)]: the content of
    [target] after the call.  The items and the separator are held in
    storage apart from [target]; for the other case see [shared.join]. *)
Definition join (target : list A) (container : list (list I))
           (separator : list S) (clear_target : bool) : list A :=
  let target := if clear_target then [] else target in
  join_loop target true container separator.
End Join.

(* ------------------------------------------------------------------ *)
(** ** split_token *)

(** [enum class split_mode] *)
Inductive split_mode : Type :=
| all
| skip_empty.

Definition split_mode_eqb (a b : split_mode) : bool :=
  match a, b with
  | all, all => true
  | skip_empty, skip_empty => true
  | _, _ => false
  end.

(** The data members of [split_token_iterator] (the comparer is a
    parameter of the section below). *)
Record split_token_iterator (A B : Type) : Type := mk_split_token_iterator {
  itt_text : terminated_iterator A;
  itt_separator : terminated_iterator B;
  current_separator : range (terminated_iterator A);
  current_range : range nat;
  used_mode : split_mode;
  is_end : bool
}.

Section SplitToken.
Context {A B : Type}.
Variable comparer : A -> B -> bool.

(** The [while (!is_end)] loop of the private [advance()].  One unit of
    [fuel] is spent per test of the loop. *)
Fixpoint advance_loop (fuel : nat) (it : split_token_iterator A B)
  : option (split_token_iterator A B) :=
  match fuel with
  | 0 => None
  | S fuel' =>
      if is_end it then Some it
      else
        let is_end' := is_end_position (r_begin (current_separator it)) in
        let itt_text' := r_end (current_separator it) in
        let current_separator' :=
          implementation.find_forward_optimized comparer itt_text'
            (itt_separator it) in
        let current_range' :=
          mk_range (get_position itt_text')
                   (get_position (r_begin current_separator')) in
        let it' :=
          mk_split_token_iterator itt_text' (itt_separator it)
            current_separator' current_range' (used_mode it) is_end' in
        if split_mode_eqb (used_mode it) skip_empty
           && itt_eqb (r_begin current_separator') itt_text'
        then advance_loop fuel' it'
        else Some it'
  end.

(** [split_token_iterator::advance()] *)
Definition advance (it : split_token_iterator A B)
  : option (split_token_iterator A B) :=
  advance_loop (3 + length (units (r_end (current_separator it)))) it.

(** The constructor
    [split_token_iterator(text_to_iterate_over, separator_token, mode, equals_comparer)]. *)
Definition split_token_iterator_new (text_to_iterate_over : list A)
           (separator_token : list B) (mode : split_mode)
  : outcome (split_token_iterator A B) :=
  let itt_text0 := make_terminated_iterator_forward text_to_iterate_over in
  let itt_separator0 := make_const_terminated_iterator_forward separator_token in
  let it0 :=
    mk_split_token_iterator itt_text0 itt_separator0
      (mk_range itt_text0 itt_text0) (mk_range 0 0) mode false in
  if is_end_position itt_separator0
  then Thrown (invalid_argument
    "The separator_token input parameter for the split_token_iterator must not be empty.")
  else if negb (is_end_position itt_text0) || split_mode_eqb mode skip_empty
  then
    match advance it0 with
    | Some it => Returned it
    | None => OutOfFuel
    end
  else
    Returned
      (mk_split_token_iterator itt_text0 itt_separator0
         (mk_range itt_text0 itt_text0)
         (mk_range (get_position itt_text0) (get_position itt_text0))
         mode false).

(** The loop of [split_token]:
    [while (!split_it.is_end_position())
       { container.emplace_back(split_it->begin(), split_it->end()); ++split_it; }] *)
Fixpoint split_token_loop (fuel : nat) (text_to_iterate_over : list A)
         (container : list (list A)) (split_it : split_token_iterator A B)
  : option (list (list A)) :=
  match fuel with
  | 0 => None
  | S fuel' =>
      if is_end split_it then Some container
      else
        let container' :=
          container ++
            [text_of_positions text_to_iterate_over
               (r_begin (current_range split_it))
               (r_end (current_range split_it))] in
        match advance split_it with
        | Some split_it' =>
            split_token_loop fuel' text_to_iterate_over container' split_it'
        | None => None
        end
  end.

(** [split_token(container, text_to_iterate_over, separator_token, mode,
    equals_comparer, clear_container)]: the content of [container] after
    the call, and the outcome. *)
Definition split_token (container : list (list A))
           (text_to_iterate_over : list A) (separator_token : list B)
           (mode : split_mode) (clear_container : bool)
  : list (list A) * outcome unit :=
  let container := if clear_container then [] else container in
  match split_token_iterator_new text_to_iterate_over separator_token mode with
  | Returned split_it =>
      match split_token_loop (2 + length text_to_iterate_over)
              text_to_iterate_over container split_it with
      | Some container' => (container', Returned tt)
      | None => (container, OutOfFuel)
      end
  | Thrown e => (container, Thrown e)
  | OutOfFuel => (container, OutOfFuel)
  end.
End SplitToken.

(* ------------------------------------------------------------------ *)
(** ** Specification vocabulary *)

Section Vocabulary.
Context {A B : Type}.
Variable compare : A -> B -> bool.

(** Number of lockstep steps the compare loop takes on two unit lists. *)
Fixpoint matched_len (t : list A) (p : list B) : nat :=
  match t, p with
  | a :: t', b :: p' => if compare a b then S (matched_len t' p') else 0
  | _, _ => 0
  end.

(** [p] is matched, unit by unit, by the first units of [t]. *)
Fixpoint prefixb (t : list A) (p : list B) : bool :=
  match p, t with
  | [], _ => true
  | b :: p', a :: t' => compare a b && prefixb t' p'
  | _ :: _, [] => false
  end.

(** Index of the first position of [t] at which [p] is matched. *)
Fixpoint first_match (t : list A) (p : list B) : option nat :=
  if prefixb t p then Some 0
  else
    match t with
    | [] => None
    | _ :: t' => option_map S (first_match t' p)
    end.

(** The range [[i, j)] of [text] full-matches [pattern]. *)
Definition range_matches (text : list A) (pattern : list B) (i j : nat) : Prop :=
  i <= j /\ j <= length text /\
  implementation.full_match compare
    (make_const_terminated_iterator_forward_range text i j)
    (make_const_terminated_iterator_forward pattern) = true.

(** [pattern] occurs in [text]. *)
Definition occurs (text : list A) (pattern : list B) : Prop :=
  exists i j, range_matches text pattern i j.

(** [[i, j)] is the leftmost range of [text] that full-matches [pattern]. *)
Definition leftmost_match (text : list A) (pattern : list B) (i j : nat) : Prop :=
  range_matches text pattern i j /\
  forall i' j', range_matches text pattern i' j' -> i <= i'.
End Vocabulary.

Section ReplaceVocabulary.
Context {A B C : Type}.
Variable compare : A -> B -> bool.
Variable cast : C -> A.

(** Left-to-right replacement as a function of the text: at a position
    where the pattern is matched the converted replacement is emitted and
    the matched units are skipped; elsewhere the unit is kept.  [skip] is
    the number of matched units still to pass over. *)
Fixpoint replaced (p : list B) (r : list C) (skip : nat) (t : list A) : list A :=
  match t with
  | [] => []
  | a :: t' =>
      match skip with
      | S skip' => replaced p r skip' t'
      | 0 =>
          if prefixb compare t p
          then map cast r ++ replaced p r (length p - 1) t'
          else a :: replaced p r 0 t'
      end
  end.
End ReplaceVocabulary.

Section SplitVocabulary.
Context {A B : Type}.
Variable compare : A -> B -> bool.

(** The sections between the successive leftmost separator matches;
    [fuel] bounds the number of separators. *)
Fixpoint token_sections (fuel : nat) (sep : list B) (t : list A)
  : list (list A) :=
  match fuel with
  | 0 => [t]
  | S fuel' =>
      match first_match compare t sep with
      | None => [t]
      | Some k =>
          firstn k t :: token_sections fuel' sep (skipn (k + length sep) t)
      end
  end.

(** The iterator standing on the section that starts at index [pos] of
  [T]: the text iterator is at [pos], the separator found from there is
  stored, and the yielded range runs from [pos] to that separator. *)
Definition split_state (T : list A) (sep : list B) (mode : split_mode)
         (pos : nat) (e : bool) : split_token_iterator A B :=
let itt := mk_itt pos (skipn pos T) in
let found := implementation.find_forward_optimized compare itt (mk_itt 0 sep) in
mk_split_token_iterator itt (mk_itt 0 sep) found
  (mk_range pos (get_position (r_begin found))) mode e.

(** One pass through the body of the loop of [advance()]. *)
Definition advance_step (it : split_token_iterator A B)
: split_token_iterator A B :=
let itt_text' := r_end (current_separator it) in
let found :=
  implementation.find_forward_optimized compare itt_text' (itt_separator it) in
mk_split_token_iterator itt_text' (itt_separator it) found
  (mk_range (get_position itt_text') (get_position (r_begin found)))
  (used_mode it)
  (is_end_position (r_begin (current_separator it))).

(** A section that holds at least one unit. *)
Definition nonempty (section : list A) : bool :=
match section with
| [] => false
| _ :: _ => true
end.

(** The section an iterator yields, as a string of [T]. *)
Definition yielded (T : list A) (it : split_token_iterator A B) : list A :=
text_of_positions T (r_begin (current_range it)) (r_end (current_range it)).
End SplitVocabulary.

Section TrimVocabulary.
Context {A : Type}.
Variable is_something : A -> bool.

(** Length of the run of units at the front of [us] that satisfy the
    predicate. *)
Fixpoint leading (us : list A) : nat :=
  match us with
  | a :: us' => if is_something a then S (leading us') else 0
  | [] => 0
  end.
End TrimVocabulary.

(* ------------------------------------------------------------------ *)
(** ** equals, starts_with, ends_with *)

Section Predicates.
Context {A B : Type}.
Variable comparer : A -> B -> bool.

(** [equals(text_lhs, text_rhs, comparer)] *)
Definition equals (text_lhs : list A) (text_rhs : list B) : bool :=
  implementation.full_match comparer
    (make_const_terminated_iterator_forward text_lhs)
    (make_const_terminated_iterator_forward text_rhs).

(** [starts_with(text, prefix, comparer)] *)
Definition starts_with (text : list A) (prefix : list B) : bool :=
  implementation.prefix_matches comparer
    (make_const_terminated_iterator_forward text)
    (make_const_terminated_iterator_forward prefix).

(** [ends_with(text, ending, comparer)]: the prefix test on the two reverse
    iterators. *)
Definition ends_with (text : list A) (ending : list B) : bool :=
  implementation.prefix_matches comparer
    (make_const_terminated_iterator_reverse text)
    (make_const_terminated_iterator_reverse ending).

(** Two strings of which each unit of the first is accepted by the
    comparer with the unit of the second at the same index. *)
Definition unitwise (l : list A) (p : list B) : Prop :=
  Forall2 (fun a b => comparer a b = true) l p.
End Predicates.

(* ------------------------------------------------------------------ *)
(** ** Writing through an iterator *)

(** [*it = v] for the iterator at index [i] of a string object.  A
    write outside the string is undefined in the source; the model leaves
    the string as it is there. *)
Fixpoint store {A : Type} (i : nat) (v : A) (text : list A) : list A :=
  match text, i with
  | [], _ => []
  | _ :: text', 0 => v :: text'
  | x :: text', S i' => x :: store i' v text'
  end.

(* ------------------------------------------------------------------ *)
(** ** namespace implementation, continued *)

Module implementation_2.

Section TrimInPlace.
Context {A : Type}.
Variable is_something : A -> bool.

(** The loop of [trim_in_place] that copies the rest of the string to
    the front, unit by unit through the string itself:
    [for (auto it = it_begin; it != it_end; ++it, ++it_target)
       *it_target = *it;]
    [count] is [it_end - it], the number of passes left. *)
Fixpoint copy_to_front (count it it_target : nat) (text : list A) : list A :=
  match count with
  | 0 => text
  | S count' =>
      match nth_error text it with
      | Some v => copy_to_front count' (S it) (S it_target) (store it_target v text)
      | None => text
      end
  end.

(** [implementation::trim_in_place] for a string object: the content of
    [text] when the function returns. *)
Definition trim_in_place (nul : A) (text : list A)
           (trim_start_enable trim_end_enable : bool) : list A :=
  let itt_text_start := make_const_terminated_iterator_forward text in
  let itt_text_start :=
    if trim_start_enable
    then implementation.trim_iterator is_something itt_text_start
    else itt_text_start in
  if negb (is_end_position itt_text_start)
  then
    let itt_text_end := make_const_terminated_iterator_reverse text in
    let itt_text_end :=
      if trim_end_enable
      then implementation.trim_iterator is_something itt_text_end
      else itt_text_end in
    let it_begin := get_position itt_text_start in
    let it_end := base (length text) (get_position itt_text_end) in
    if negb (it_begin =? it_end)
    then
      let clip := negb (it_end =? length text) in
      let text_and_clip :=
        if negb (it_begin =? 0)
        then (copy_to_front (it_end - it_begin) it_begin 0 text, true)
        else (text, clip) in
      if snd text_and_clip
      then resize nul (fst text_and_clip) (it_end - it_begin)
      else fst text_and_clip
    else []
  else [].

(** [implementation::trim_copy] for a range object over the storage
    [text]: the result is a range again, built from the two surviving
    positions. *)
Definition trim_copy_range (text : list A) (r : range nat)
           (trim_start_enable trim_end_enable : bool) : range nat :=
  let units_of_range := text_of_positions text (r_begin r) (r_end r) in
  let itt_text_start := mk_itt (r_begin r) units_of_range in
  let itt_text_start :=
    if trim_start_enable
    then implementation.trim_iterator is_something itt_text_start
    else itt_text_start in
  if negb (is_end_position itt_text_start)
  then
    let itt_text_end := mk_itt 0 (rev units_of_range) in
    let itt_text_end :=
      if trim_end_enable
      then implementation.trim_iterator is_something itt_text_end
      else itt_text_end in
    mk_range (get_position itt_text_start)
             (base (r_end r) (get_position itt_text_end))
  else
    mk_range (get_position itt_text_start) (get_end itt_text_start).

(** [implementation::trim_in_place] for a range object. *)
Definition trim_in_place_range (text : list A) (r : range nat)
           (trim_start_enable trim_end_enable : bool) : range nat :=
  trim_copy_range text r trim_start_enable trim_end_enable.
End TrimInPlace.

Section CharacterConvert.
Context {A : Type}.

(** The loop of [implementation::character_convert_copy] with a
    converter that returns one code unit: [text_appender] is [push_back]. *)
Fixpoint convert_copy_loop (converter : A -> A) (result us : list A) : list A :=
  match us with
  | [] => result
  | u :: us' => convert_copy_loop converter (result ++ [converter u]) us'
  end.

(** [implementation::character_convert_copy], one unit per unit. *)
Definition character_convert_copy (converter : A -> A) (text : list A) : list A :=
  convert_copy_loop converter []
    (units (make_const_terminated_iterator_forward text)).

(** The same loop with a converter that returns a string: [text_appender]
    pushes its units back one by one. *)
Fixpoint convert_copy_text_loop (converter : A -> list A)
         (result us : list A) : list A :=
  match us with
  | [] => result
  | u :: us' =>
      convert_copy_text_loop converter
        (push_back_all (fun c => c) result
           (units (make_const_terminated_iterator_forward (converter u))))
        us'
  end.

(** [implementation::character_convert_copy] with a converter that
    returns a string. *)
Definition character_convert_copy_text (converter : A -> list A)
           (text : list A) : list A :=
  convert_copy_text_loop converter []
    (units (make_const_terminated_iterator_forward text)).

(** The loop of [implementation::character_convert_in_place]:
    [for (; !itt_text.is_end_position(); ++itt_text)
       *itt_text = converter( *itt_text);]
    reading and writing the string through the iterator at [pos];
    [count] is the number of units up to the end position. *)
Fixpoint convert_in_place_loop (converter : A -> A)
         (count pos : nat) (text : list A) : list A :=
  match count with
  | 0 => text
  | S count' =>
      match nth_error text pos with
      | Some u =>
          convert_in_place_loop converter count' (S pos)
            (store pos (converter u) text)
      | None => text
      end
  end.

(** [implementation::character_convert_in_place] for a string object. *)
Definition character_convert_in_place (converter : A -> A) (text : list A)
  : list A :=
  let itt_text := make_terminated_iterator_forward text in
  convert_in_place_loop converter (length (units itt_text))
    (get_position itt_text) text.
End CharacterConvert.

End implementation_2.

(* ------------------------------------------------------------------ *)
(** ** trim_in_place and character conversion *)

Section InPlaceFacades.
Context {A : Type}.

(** [trim_in_place(text, predicate)] *)
Definition trim_in_place (predicate : A -> bool) (nul : A) (text : list A)
  : list A :=
  implementation_2.trim_in_place predicate nul text true true.

(** [trim_start_in_place(text, predicate)] *)
Definition trim_start_in_place (predicate : A -> bool) (nul : A)
           (text : list A) : list A :=
  implementation_2.trim_in_place predicate nul text true false.

(** [trim_end_in_place(text, predicate)] *)
Definition trim_end_in_place (predicate : A -> bool) (nul : A)
           (text : list A) : list A :=
  implementation_2.trim_in_place predicate nul text false true.

(** [character_convert_copy(text, char_converter)] *)
Definition character_convert_copy (char_converter : A -> A) (text : list A)
  : list A :=
  implementation_2.character_convert_copy char_converter text.

(** [character_convert_in_place(text, char_converter)] *)
Definition character_convert_in_place (char_converter : A -> A)
           (text : list A) : list A :=
  implementation_2.character_convert_in_place char_converter text.
End InPlaceFacades.

(* ------------------------------------------------------------------ *)
(** ** split: sections between separator characters *)

Section IsAnyOf.
Context {S A : Type}.
(** [operator==] between a unit of the character list and the value. *)
Variable unit_eq : S -> A -> bool.

(** The loop of [utility::is_any_of::operator()]. *)
Fixpoint is_any_of_loop (us : list S) (value : A) : bool :=
  match us with
  | [] => false
  | c :: us' => if unit_eq c value then true else is_any_of_loop us' value
  end.

(** [utility::is_any_of], constructed from the character list [text] and
    applied to [value]. *)
Definition is_any_of (text : list S) (value : A) : bool :=
  is_any_of_loop (units (make_const_terminated_iterator_forward text)) value.
End IsAnyOf.

Module char_mode.

(** The data members of [split_iterator] (the predicate is a parameter of
    the section below). *)
Record split_iterator (A : Type) : Type := mk_split_iterator {
  itt_text : terminated_iterator A;
  current_separator : terminated_iterator A;
  current_range : range nat;
  used_mode : split_mode;
  is_start : bool;
  is_end : bool
}.

Section Split.
Context {A : Type}.
Variable is_separator : A -> bool.

(** The loop of [advance()] that finds the next separator:
    [for (; !current_separator.is_end_position(); ++current_separator)
       if (is_separator( *current_separator)) break;] *)
Fixpoint find_separator (pos : nat) (us : list A) : terminated_iterator A :=
  match us with
  | [] => mk_itt pos []
  | u :: us' =>
      if is_separator u then mk_itt pos us else find_separator (S pos) us'
  end.

(** The [while (!is_end)] loop of the private [advance()].  One unit of
    [fuel] is spent per test of the loop. *)
Fixpoint advance_loop (fuel : nat) (it : split_iterator A)
  : option (split_iterator A) :=
  match fuel with
  | 0 => None
  | S fuel' =>
      if is_end it then Some it
      else
        let is_end' := is_end_position (current_separator it) in
        let step_over := negb is_end' && negb (is_start it) in
        let current_separator1 :=
          if step_over then incr (current_separator it)
          else current_separator it in
        let is_start' := if step_over then is_start it else false in
        let itt_text' := current_separator1 in
        let current_separator' :=
          find_separator (get_position current_separator1)
                         (units current_separator1) in
        let current_range' :=
          mk_range (get_position itt_text') (get_position current_separator') in
        let it' :=
          mk_split_iterator itt_text' current_separator' current_range'
            (used_mode it) is_start' is_end' in
        if split_mode_eqb (used_mode it) skip_empty
           && itt_eqb current_separator' itt_text'
        then advance_loop fuel' it'
        else Some it'
  end.

(** [split_iterator::advance()] *)
Definition advance (it : split_iterator A) : option (split_iterator A) :=
  advance_loop (3 + length (units (current_separator it))) it.

(** The constructor
    [split_iterator(text_to_iterate_over, is_separator_predicate, mode)]. *)
Definition split_iterator_new (text_to_iterate_over : list A) (mode : split_mode)
  : option (split_iterator A) :=
  let itt_text0 := make_terminated_iterator_forward text_to_iterate_over in
  let it0 :=
    mk_split_iterator itt_text0 itt_text0 (mk_range 0 0) mode true false in
  if negb (is_end_position itt_text0) || split_mode_eqb mode skip_empty
  then advance it0
  else
    Some (mk_split_iterator itt_text0 itt_text0
            (mk_range (get_position itt_text0) (get_position itt_text0))
            mode true false).

(** The loop of [split_iterator::advance(size_t count)]:
    [for (size_t i = 0; i < count && !is_end; ++i) advance();] *)
Fixpoint advance_count_loop (count : nat) (it : split_iterator A)
  : option (split_iterator A) :=
  match count with
  | 0 => Some it
  | S count' =>
      if is_end it then Some it
      else
        match advance it with
        | Some it' => advance_count_loop count' it'
        | None => None
        end
  end.

(** [split_iterator::advance(size_t count)]: the iterator after the call
    and the returned [!is_end]. *)
Definition advance_count (count : nat) (it : split_iterator A)
  : option (split_iterator A * bool) :=
  match advance_count_loop count it with
  | Some it' => Some (it', negb (is_end it'))
  | None => None
  end.

(** The loop of [advance_to_last()] in mode [all]:
    [while (!is_end && !current_separator.is_end_position()) advance();] *)
Fixpoint advance_to_last_all (fuel : nat) (it : split_iterator A)
  : option (split_iterator A) :=
  match fuel with
  | 0 => None
  | S fuel' =>
      if negb (is_end it) && negb (is_end_position (current_separator it))
      then
        match advance it with
        | Some it' => advance_to_last_all fuel' it'
        | None => None
        end
      else Some it
  end.

(** The loop of [advance_to_last()] in mode [skip_empty], ending with
    [*this = previous]:
    [while (!is_end) { previous = *this; advance(); }] *)
Fixpoint advance_to_last_skip (fuel : nat) (previous it : split_iterator A)
  : option (split_iterator A) :=
  match fuel with
  | 0 => None
  | S fuel' =>
      if is_end it then Some previous
      else
        match advance it with
        | Some it' => advance_to_last_skip fuel' it it'
        | None => None
        end
  end.

(** The default-constructed [split_iterator]. *)
Definition split_iterator_default : split_iterator A :=
  mk_split_iterator (mk_itt 0 []) (mk_itt 0 []) (mk_range 0 0) all false false.

(** [split_iterator::advance_to_last()]: the iterator after the call and
    the returned [!is_end]. *)
Definition advance_to_last (it : split_iterator A)
  : option (split_iterator A * bool) :=
  let fuel := 2 + length (units (itt_text it)) in
  let result :=
    if negb (is_end it)
    then
      match used_mode it with
      | all => advance_to_last_all fuel it
      | skip_empty => advance_to_last_skip fuel split_iterator_default it
      end
    else Some it in
  match result with
  | Some it' => Some (it', negb (is_end it'))
  | None => None
  end.

(** The loop of [split]:
    [while (!split_it.is_end_position())
       { container.emplace_back(split_it->begin(), split_it->end()); ++split_it; }] *)
Fixpoint split_loop (fuel : nat) (string_to_split : list A)
         (container : list (list A)) (split_it : split_iterator A)
  : option (list (list A)) :=
  match fuel with
  | 0 => None
  | S fuel' =>
      if is_end split_it then Some container
      else
        let container' :=
          container ++
            [text_of_positions string_to_split
               (r_begin (current_range split_it))
               (r_end (current_range split_it))] in
        match advance split_it with
        | Some split_it' => split_loop fuel' string_to_split container' split_it'
        | None => None
        end
  end.

(** [split(container, string_to_split, is_separator, mode, clear_container)]:
    the content of [container] after the call, and the outcome. *)
Definition split (container : list (list A)) (string_to_split : list A)
           (mode : split_mode) (clear_container : bool)
  : list (list A) * outcome unit :=
  let container := if clear_container then [] else container in
  match split_iterator_new string_to_split mode with
  | Some split_it =>
      match split_loop (2 + length string_to_split) string_to_split
              container split_it with
      | Some container' => (container', Returned tt)
      | None => (container, OutOfFuel)
      end
  | None => (container, OutOfFuel)
  end.
End Split.

(** [split_chars(container, string_to_split, separator_characters, mode,
    clear_container)] *)
Definition split_chars {S A : Type} (unit_eq : S -> A -> bool)
           (container : list (list A)) (string_to_split : list A)
           (separator_characters : list S)
           (mode : split_mode) (clear_container : bool)
  : list (list A) * outcome unit :=
  split (is_any_of unit_eq separator_characters)
        container string_to_split mode clear_container.

Section Vocabulary.
Context {A : Type}.
Variable is_separator : A -> bool.

(** A unit that is no separator. *)
Definition no_separator (u : A) : bool := negb (is_separator u).

(** The sections of [t] between its separator units. *)
Fixpoint char_sections (t : list A) : list (list A) :=
  match t with
  | [] => [[]]
  | a :: t' =>
      if is_separator a then [] :: char_sections t'
      else
        match char_sections t' with
        | s :: ss => (a :: s) :: ss
        | [] => [[a]]
        end
  end.

(** The iterator standing on the section that starts at index [pos] of
    [T]. *)
Definition char_state (T : list A) (mode : split_mode) (pos : nat) (e : bool)
  : split_iterator A :=
  mk_split_iterator
    (mk_itt pos (skipn pos T))
    (find_separator is_separator pos (skipn pos T))
    (mk_range pos (get_position (find_separator is_separator pos (skipn pos T))))
    mode false e.

(** One pass through the body of the loop of [advance()]. *)
Definition advance_step (it : split_iterator A) : split_iterator A :=
  let is_end' := is_end_position (current_separator it) in
  let step_over := negb is_end' && negb (is_start it) in
  let current_separator1 :=
    if step_over then incr (current_separator it) else current_separator it in
  let current_separator' :=
    find_separator is_separator (get_position current_separator1)
                   (units current_separator1) in
  mk_split_iterator current_separator1 current_separator'
    (mk_range (get_position current_separator1) (get_position current_separator'))
    (used_mode it) (if step_over then is_start it else false) is_end'.

(** The section an iterator yields, as a string of [T]. *)
Definition yielded (T : list A) (it : split_iterator A) : list A :=
  text_of_positions T (r_begin (current_range it)) (r_end (current_range it)).
End Vocabulary.

End char_mode.

(** Sections woven with the separator units that stood between them. *)
Fixpoint weave {A : Type} (sections : list (list A)) (separators : list A)
  : list A :=
  match sections, separators with
  | s :: sections', c :: separators' => s ++ c :: weave sections' separators'
  | s :: _, [] => s
  | [], _ => []
  end.

(* ------------------------------------------------------------------ *)
(** ** split_token_iterator: advance(count) and advance_to_last() *)

Section SplitTokenAdvance.
Context {A B : Type}.
Variable comparer : A -> B -> bool.

(** The loop of [split_token_iterator::advance(size_t count)]:
    [for (size_t i = 0; i < count && !is_end; ++i) advance();] *)
Fixpoint advance_count_loop (count : nat) (it : split_token_iterator A B)
  : option (split_token_iterator A B) :=
  match count with
  | 0 => Some it
  | S count' =>
      if is_end it then Some it
      else
        match advance comparer it with
        | Some it' => advance_count_loop count' it'
        | None => None
        end
  end.

(** [split_token_iterator::advance(size_t count)]: the iterator after the
    call and the returned [!is_end]. *)
Definition advance_count (count : nat) (it : split_token_iterator A B)
  : option (split_token_iterator A B * bool) :=
  match advance_count_loop count it with
  | Some it' => Some (it', negb (is_end it'))
  | None => None
  end.

(** The loop of [advance_to_last()] in mode [all]:
    [while (!is_end && !current_separator.begin().is_end_position()) advance();] *)
Fixpoint advance_to_last_all (fuel : nat) (it : split_token_iterator A B)
  : option (split_token_iterator A B) :=
  match fuel with
  | 0 => None
  | S fuel' =>
      if negb (is_end it)
         && negb (is_end_position (r_begin (current_separator it)))
      then
        match advance comparer it with
        | Some it' => advance_to_last_all fuel' it'
        | None => None
        end
      else Some it
  end.

(** The loop of [advance_to_last()] in mode [skip_empty], ending with
    [*this = previous]:
    [while (!is_end) { previous = *this; advance(); }] *)
Fixpoint advance_to_last_skip (fuel : nat)
         (previous it : split_token_iterator A B)
  : option (split_token_iterator A B) :=
  match fuel with
  | 0 => None
  | S fuel' =>
      if is_end it then Some previous
      else
        match advance comparer it with
        | Some it' => advance_to_last_skip fuel' it it'
        | None => None
        end
  end.

(** The default-constructed [split_token_iterator]. *)
Definition split_token_iterator_default : split_token_iterator A B :=
  mk_split_token_iterator (mk_itt 0 []) (mk_itt 0 [])
    (mk_range (mk_itt 0 []) (mk_itt 0 [])) (mk_range 0 0) all false.

(** [split_token_iterator::advance_to_last()]: the iterator after the call
    and the returned [!is_end]. *)
Definition advance_to_last (it : split_token_iterator A B)
  : option (split_token_iterator A B * bool) :=
  let fuel := 2 + length (units (itt_text it)) in
  let result :=
    if negb (is_end it)
    then
      match used_mode it with
      | all => advance_to_last_all fuel it
      | skip_empty => advance_to_last_skip fuel split_token_iterator_default it
      end
    else Some it in
  match result with
  | Some it' => Some (it', negb (is_end it'))
  | None => None
  end.
End SplitTokenAdvance.

(* ------------------------------------------------------------------ *)
(** ** Null-terminated strings *)

Section NullTerminated.
Context {A : Type}.
Variable A_eq_dec : forall x y : A, {x = y} + {x <> y}.
Variable nul : A.

(** The test [*p == 0]. *)
Definition is_nul (c : A) : bool :=
  if A_eq_dec c nul then true else false.

(** The loop of [string_length(const char_type* p)]:
    [for (; *p_end; ++p_end) {}].  [rest] is the storage from [p_end] on;
    reading past the storage is undefined in the source and gives [None]. *)
Fixpoint string_length_loop (p_end : nat) (rest : list A) : option nat :=
  match rest with
  | [] => None
  | c :: rest' =>
      if is_nul c then Some p_end else string_length_loop (S p_end) rest'
  end.

(** [string_length(const char_type* p)], returning [p_end - p]. *)
Definition string_length (p : list A) : option nat :=
  string_length_loop 0 p.

(** The units a [null_terminated_string_iterator] standing at the start
    of the storage [p] passes before its [is_end_position()] holds. *)
Fixpoint c_string (p : list A) : list A :=
  match p with
  | [] => []
  | c :: p' => if is_nul c then [] else c :: c_string p'
  end.

(** [make_const_terminated_iterator_forward(const char_type* p_text)] *)
Definition make_const_terminated_iterator_forward_buffer (p_text : list A)
  : terminated_iterator A :=
  mk_itt 0 (c_string p_text).

(** [make_terminated_iterator_reverse(char_type* p_text)]: the reverse
    iterator pair from [p_text + string_length(p_text)] down to [p_text]. *)
Definition make_terminated_iterator_reverse_buffer (p_text : list A)
  : option (terminated_iterator A) :=
  match string_length p_text with
  | Some n => Some (mk_itt 0 (rev (firstn n p_text)))
  | None => None
  end.

(** [memmove(p_text, p_text + from, count * sizeof(char_type))] on the
    storage [p_text]. *)
Definition memmove (p_text : list A) (from count : nat) : list A :=
  let moved := firstn count (skipn from p_text) in
  moved ++ skipn (length moved) p_text.

(** [implementation::trim_in_place] for a null-terminated buffer: the
    storage when the function returns.  The function is meant for a storage
    that holds a terminating null; without one the source reads past the
    storage, and [string_length] gives [None] here. *)
Definition trim_in_place_buffer (is_something : A -> bool) (p_text : list A)
           (trim_start_enable trim_end_enable : bool) : option (list A) :=
  let itt_text_start := make_const_terminated_iterator_forward_buffer p_text in
  let itt_text_start :=
    if trim_start_enable
    then implementation.trim_iterator is_something itt_text_start
    else itt_text_start in
  if negb (is_end_position itt_text_start)
  then
    match make_terminated_iterator_reverse_buffer p_text with
    | None => None
    | Some itt_reverse =>
        let itt_text_end :=
          if trim_end_enable
          then implementation.trim_iterator is_something itt_reverse
          else itt_reverse in
        let it_begin := get_position itt_text_start in
        let it_end :=
          base (length (units itt_reverse)) (get_position itt_text_end) in
        if negb (it_begin =? it_end)
        then
          let clip := negb (is_nul (nth it_end p_text nul)) in
          let text_and_clip :=
            if negb (it_begin =? 0)
            then (memmove p_text it_begin (it_end - it_begin), true)
            else (p_text, clip) in
          if snd text_and_clip
          then Some (store (it_end - it_begin) nul (fst text_and_clip))
          else Some (fst text_and_clip)
        else Some (store 0 nul p_text)
    end
  else Some (store 0 nul p_text).
End NullTerminated.

(* ------------------------------------------------------------------ *)
(** ** A match, stated on the strings *)

Section MatchAt.
Context {A B : Type}.
Variable comparer : A -> B -> bool.

(** The units of [text] from index [i] up to index [j] are accepted by
    the comparer, one by one and in order, with the units of [pattern].
    This speaks of the two strings only, not of the iterators and loops of
    the code. *)
Definition match_at (text : list A) (pattern : list B) (i j : nat) : Prop :=
  i <= j /\ j <= length text
  /\ unitwise comparer (firstn (j - i) (skipn i text)) pattern.
End MatchAt.

(* ------------------------------------------------------------------ *)
(** ** Operands that share the storage of the object written to *)

(** The definitions above take the operands of a call as strings held in
    storage of their own.  The source reads every operand through a
    terminated iterator while the call runs, so an operand that is the
    object the call writes to, or a range over it, is read from the object
    as it is at that moment.  This module models such calls: an iterator
    into the object is an index into its content (the storage is taken not
    to move), and a read at an index outside the content is undefined. *)
Module shared.

(** An operand of a call that writes to a string object: a string in
    storage of its own, or the range [[first, last)] over the object written
    to, with [first <= last]; the object itself is the range from 0 to its
    length when the call starts. *)
Inductive operand (A : Type) : Type :=
| apart (us : list A)
| over_text (first last : nat).

Arguments over_text {A} first last.

(** A run ends with a value, throws, reads the object outside its
    content (undefined in the source), or is cut off because a loop of the
    model ran out of its step budget. *)
Inductive run (R : Type) : Type :=
| Done (r : R)
| Throws (e : exception)
| Undefined
| Exhausted.

Arguments Throws {R} e.
Arguments Undefined {R}.
Arguments Exhausted {R}.

Definition bind {R S : Type} (m : run R) (f : R -> run S) : run S :=
  match m with
  | Done r => f r
  | Throws e => Throws e
  | Undefined => Undefined
  | Exhausted => Exhausted
  end.

Section Shared.
Context {A : Type}.
Variable compare : A -> A -> bool.

(** [is_end_position()] of the iterator made from an operand. *)
Definition operand_at_end (source : operand A) : bool :=
  match source with
  | apart us => is_end_position (make_const_terminated_iterator_forward us)
  | over_text first last => first =? last
  end.

(** The units read through an operand while the object holds [text]
    and is not written to. *)
Definition units_now (text : list A) (source : operand A) : list A :=
  match source with
  | apart us => us
  | over_text first last => text_of_positions text first last
  end.

(** [for (auto itt = source; !itt.is_end_position(); ++itt) text += *itt;]
    for a source that is a range over [text] itself: [count] passes are
    left and the iterator stands at index [position]. *)
Fixpoint append_from_text (count position : nat) (text : list A)
  : run (list A) :=
  match count with
  | 0 => Done text
  | S count' =>
      match nth_error text position with
      | Some u => append_from_text count' (S position) (text ++ [u])
      | None => Undefined
      end
  end.

(** [for (auto itt = source; !itt.is_end_position(); ++itt) text += *itt;] *)
Definition append (text : list A) (source : operand A) : run (list A) :=
  match source with
  | apart us => Done (push_back_all (fun c => c) text us)
  | over_text first last => append_from_text (last - first) first text
  end.

(** The compare loop
    [for (; !a.is_end_position() && !b.is_end_position(); ++a, ++b)
       if (!compare( *a, *b)) break;]
    for an iterator [b] into [text] that stands at index [pb] with [count]
    units up to its end position.  The result is the iterator [a] when the
    loop is left, and whether [b] is at its end position then. *)
Fixpoint compare_loop (text : list A) (pa : nat) (ua : list A)
         (pb count : nat) : run (terminated_iterator A * bool) :=
  match ua, count with
  | a :: ua', S count' =>
      match nth_error text pb with
      | Some b =>
          if compare a b
          then compare_loop text (S pa) ua' (S pb) count'
          else Done (mk_itt pa ua, false)
      | None => Undefined
      end
  | _, _ => Done (mk_itt pa ua, count =? 0)
  end.

(** The compare loop of an iterator [a] with the iterator made from the
    operand [pattern], while the object holds [text]. *)
Definition lockstep (text : list A) (a : terminated_iterator A)
           (pattern : operand A) : run (terminated_iterator A * bool) :=
  match pattern with
  | apart us =>
      let (a', b') :=
        implementation.lockstep compare a
          (make_const_terminated_iterator_forward us) in
      Done (a', is_end_position b')
  | over_text first last =>
      compare_loop text (get_position a) (units a) first (last - first)
  end.

(** [implementation::replace_all_copy_forward] when [result] is the
    object the operands may range over.  One unit of [fuel] is spent per
    test of the [while] loop. *)
Fixpoint replace_all_copy_forward (fuel : nat) (result : list A)
         (itt_text : terminated_iterator A)
         (text_to_be_replaced text_to_replace_with : operand A)
  : run (list A) :=
  match fuel with
  | 0 => Exhausted
  | S fuel' =>
      match units itt_text with
      | [] => Done result
      | a :: _ =>
          bind (lockstep result itt_text text_to_be_replaced)
            (fun inner =>
               if snd inner
               then bind (append result text_to_replace_with)
                      (fun result' =>
                         replace_all_copy_forward fuel' result' (fst inner)
                           text_to_be_replaced text_to_replace_with)
               else replace_all_copy_forward fuel' (result ++ [a])
                      (incr itt_text)
                      text_to_be_replaced text_to_replace_with)
      end
  end.

(** [implementation::replace_all_in_place_forward]: the content of
    [text_to_modify_in_place] when the function returns.  The search runs
    before the first write; the tail is copied to storage of its own; the
    operands are read again after [resize] and during every append. *)
Definition replace_all_in_place_forward (nul : A)
           (text_to_modify_in_place : list A)
           (text_to_be_replaced text_to_replace_with : operand A)
  : run (list A) :=
  let itt_text := make_const_terminated_iterator_forward text_to_modify_in_place in
  let first_range_to_be_replaced :=
    implementation.find_forward_optimized compare itt_text
      (make_const_terminated_iterator_forward
         (units_now text_to_modify_in_place text_to_be_replaced)) in
  if negb (is_end_position (r_begin first_range_to_be_replaced))
  then
    let copied_tail :=
      text_of_positions text_to_modify_in_place
        (get_position (r_end first_range_to_be_replaced)) (get_end itt_text) in
    let clipped :=
      resize nul text_to_modify_in_place
        (get_position (r_begin first_range_to_be_replaced)
         - get_position itt_text) in
    bind (append clipped text_to_replace_with)
      (fun extended =>
         replace_all_copy_forward (S (length copied_tail)) extended
           (make_const_terminated_iterator_forward copied_tail)
           text_to_be_replaced text_to_replace_with)
  else Done text_to_modify_in_place.

(** [replace_all_in_place(text, text_to_be_replaced, text_to_replace_with,
    comparer)]: the content of the object [text] after the call. *)
Definition replace_all_in_place (nul : A) (text : list A)
           (text_to_be_replaced text_to_replace_with : operand A)
  : run (list A) :=
  if operand_at_end text_to_be_replaced
  then Throws (invalid_argument
    "The replace_all_in_place input parameter text_to_be_replaced must not be empty.")
  else replace_all_in_place_forward nul text
         text_to_be_replaced text_to_replace_with.

(** [copy(target, text_to_copy, clear_target)]: the content of [target]
    after the call.  The iterator over the source is made before
    [target.clear()]. *)
Definition copy (target : list A) (text_to_copy : operand A)
           (clear_target : bool) : run (list A) :=
  let target := if clear_target then [] else target in
  append target text_to_copy.

(** The range-for loop of [join], with its [is_first] flag. *)
Fixpoint join_loop (target : list A) (is_first : bool)
         (container : list (operand A)) (separator : operand A)
  : run (list A) :=
  match container with
  | [] => Done target
  | item :: container' =>
      bind (if is_first then Done target else copy target separator false)
        (fun target =>
           bind (copy target item false)
             (fun target => join_loop target false container' separator))
  end.

(** [join(target, container, separator, clear_target)]: the content of
    [target] after the call. *)
Definition join (target : list A) (container : list (operand A))
           (separator : operand A) (clear_target : bool) : run (list A) :=
  let target := if clear_target then [] else target in
  join_loop target true container separator.
End Shared.
End shared.

(* ------------------------------------------------------------------ *)
(** ** Facts about the compare loop *)


Section MatchingFacts.
Context {A B : Type}.
Variable compare : A -> B -> bool.

Lemma compare_loop_spec (t : list A) : forall (p : list B) (pa pb : nat),
  implementation.compare_loop compare pa t pb p =
  (mk_itt (pa + matched_len compare t p) (skipn (matched_len compare t p) t),
   mk_itt (pb + matched_len compare t p) (skipn (matched_len compare t p) p)).
Proof.
  induction t as [|a t IH]; intros p pa pb.
  - simpl. rewrite !Nat.add_0_r. destruct p; reflexivity.
  - destruct p as [|b p]; simpl.
    + rewrite !Nat.add_0_r. reflexivity.
    + destruct (compare a b).
      * rewrite IH. simpl. rewrite !Nat.add_succ_r. reflexivity.
      * simpl. rewrite !Nat.add_0_r. reflexivity.
Qed.

Lemma matched_len_le_l (t : list A) : forall p : list B,
  matched_len compare t p <= length t.
Proof.
  induction t as [|a t IH]; intros [|b p]; simpl; try lia.
  destruct (compare a b); simpl; [specialize (IH p)|]; lia.
Qed.

Lemma matched_len_le_r (t : list A) : forall p : list B,
  matched_len compare t p <= length p.
Proof.
  induction t as [|a t IH]; intros [|b p]; simpl; try lia.
  destruct (compare a b); simpl; [specialize (IH p)|]; lia.
Qed.

Lemma prefixb_matched_len (t : list A) : forall p : list B,
  prefixb compare t p = (matched_len compare t p =? length p).
Proof.
  induction t as [|a t IH]; intros [|b p]; simpl; try reflexivity.
  destruct (compare a b); simpl; [apply IH | reflexivity].
Qed.

Lemma skipn_nil_iff {X : Type} (n : nat) (l : list X) :
  n <= length l -> (skipn n l = [] <-> n = length l).
Proof.
  intros Hn. split; intros H.
  - apply (f_equal (@length X)) in H. rewrite length_skipn in H. simpl in H. lia.
  - subst n. apply skipn_all.
Qed.

Lemma is_end_position_skipn {X : Type} (pos n : nat) (l : list X) :
  n <= length l ->
  is_end_position (mk_itt pos (skipn n l)) = (n =? length l).
Proof.
  intros Hn. unfold is_end_position. simpl.
  destruct (Nat.eqb_spec n (length l)) as [E|E].
  - subst n. rewrite skipn_all. reflexivity.
  - destruct (skipn n l) eqn:Hs; [|reflexivity].
    apply skipn_nil_iff in Hs; [contradiction | assumption].
Qed.

Lemma prefix_matches_prefixb (pa pb : nat) (t : list A) (p : list B) :
  implementation.prefix_matches compare (mk_itt pa t) (mk_itt pb p) = prefixb compare t p.
Proof.
  unfold implementation.prefix_matches, implementation.lockstep. simpl. rewrite compare_loop_spec. simpl.
  rewrite is_end_position_skipn by apply matched_len_le_r.
  symmetry. apply prefixb_matched_len.
Qed.

Lemma full_match_spec (pa pb : nat) (t : list A) (p : list B) :
  implementation.full_match compare (mk_itt pa t) (mk_itt pb p)
  = prefixb compare t p && (length t =? length p).
Proof.
  unfold implementation.full_match, implementation.lockstep. simpl. rewrite compare_loop_spec.
  rewrite !is_end_position_skipn
    by (apply matched_len_le_l || apply matched_len_le_r).
  rewrite prefixb_matched_len.
  destruct (Nat.eqb_spec (matched_len compare t p) (length p)) as [E|E];
    destruct (Nat.eqb_spec (matched_len compare t p) (length t)) as [E'|E'];
    destruct (Nat.eqb_spec (length t) (length p)); simpl; try reflexivity; lia.
Qed.

Lemma prefixb_length (t : list A) : forall p : list B,
  prefixb compare t p = true -> length p <= length t.
Proof.
  induction t as [|a t IH]; intros [|b p]; simpl; intros H;
    try lia; try discriminate.
  apply andb_true_iff in H. destruct H as [_ H]. apply IH in H. lia.
Qed.

Lemma prefixb_firstn (t : list A) : forall p : list B,
  prefixb compare (firstn (length p) t) p = prefixb compare t p.
Proof.
  induction t as [|a t IH]; intros [|b p]; simpl; try reflexivity.
  rewrite IH. reflexivity.
Qed.

Lemma prefixb_app (t1 t2 : list A) : forall p : list B,
  length p <= length t1 ->
  prefixb compare (t1 ++ t2) p = prefixb compare t1 p.
Proof.
  induction t1 as [|a t IH]; intros [|b p]; simpl; intros H;
    try reflexivity; try lia.
  - destruct t2; reflexivity.
  - rewrite IH by lia. reflexivity.
Qed.

(** The range [[i, j)] full-matches exactly when the pattern is matched at
    [i] and the range has the pattern's length. *)
Lemma range_matches_iff (text : list A) (pattern : list B) (i j : nat) :
  range_matches compare text pattern i j <->
  (j = i + length pattern /\ j <= length text /\
   prefixb compare (skipn i text) pattern = true).
Proof.
  unfold range_matches, make_const_terminated_iterator_forward_range,
    make_const_terminated_iterator_forward, text_of_positions.
  rewrite full_match_spec. split.
  - intros (Hij & Hj & H). apply andb_true_iff in H. destruct H as [Hp Hl].
    apply Nat.eqb_eq in Hl. rewrite length_firstn, length_skipn in Hl.
    assert (Hji : j - i = length pattern) by lia.
    rewrite Hji in Hp. rewrite prefixb_firstn in Hp.
    repeat split; try assumption; lia.
  - intros (Hj & Hjl & Hp). subst j.
    repeat split; try lia.
    apply andb_true_iff. replace (i + length pattern - i) with (length pattern) by lia.
    rewrite prefixb_firstn. split; [assumption|].
    apply Nat.eqb_eq. rewrite length_firstn, length_skipn. lia.
Qed.

Lemma first_match_eq (t : list A) (p : list B) :
  first_match compare t p =
  if prefixb compare t p then Some 0
  else match t with
       | [] => None
       | _ :: t' => option_map S (first_match compare t' p)
       end.
Proof. destruct t; reflexivity. Qed.

Lemma first_match_short (t : list A) : forall p : list B,
  length t < length p -> first_match compare t p = None.
Proof.
  induction t as [|a t IH]; intros p H.
  - destruct p; [simpl in H; lia | reflexivity].
  - rewrite first_match_eq.
    destruct (prefixb compare (a :: t) p) eqn:Hp.
    + apply prefixb_length in Hp. lia.
    + rewrite IH by (simpl in H; lia). reflexivity.
Qed.

Lemma first_match_Some (t : list A) : forall (p : list B) (k : nat),
  first_match compare t p = Some k ->
  prefixb compare (skipn k t) p = true /\ k + length p <= length t /\
  forall k', k' < k -> prefixb compare (skipn k' t) p = false.
Proof.
  induction t as [|a t IH]; intros p k H.
  - rewrite first_match_eq in H.
    destruct (prefixb compare [] p) eqn:Hp; [|discriminate].
    injection H as <-. simpl. split; [assumption|].
    split; [apply prefixb_length in Hp; simpl in Hp; lia | intros; lia].
  - rewrite first_match_eq in H.
    destruct (prefixb compare (a :: t) p) eqn:Hp.
    + injection H as <-. split; [assumption|].
      split; [apply prefixb_length in Hp; simpl in *; lia | intros; lia].
    + destruct (first_match compare t p) as [k0|] eqn:Hf; [|discriminate].
      injection H as <-. destruct (IH p k0 Hf) as (H1 & H2 & H3).
      split; [assumption|]. split; [simpl; lia|].
      intros [|k'] Hk; [assumption|]. simpl. apply H3. lia.
Qed.

Lemma first_match_None (t : list A) : forall (p : list B),
  first_match compare t p = None ->
  forall k, prefixb compare (skipn k t) p = false.
Proof.
  induction t as [|a t IH]; intros p H k.
  - rewrite first_match_eq in H. rewrite skipn_nil.
    destruct (prefixb compare [] p); [discriminate | reflexivity].
  - rewrite first_match_eq in H.
    destruct (prefixb compare (a :: t) p) eqn:Hp; [discriminate|].
    destruct (first_match compare t p) eqn:Hf; [discriminate|].
    destruct k as [|k]; [assumption|]. simpl. apply IH. assumption.
Qed.

Lemma first_match_leftmost (t : list A) (p : list B) (i j : nat) :
  leftmost_match compare t p i j <->
  (first_match compare t p = Some i /\ j = i + length p).
Proof.
  unfold leftmost_match. split.
  - intros [Hm Hleft]. apply range_matches_iff in Hm.
    destruct Hm as (Hj & Hjl & Hp). split; [|assumption].
    destruct (first_match compare t p) as [k|] eqn:Hf.
    + destruct (first_match_Some _ _ Hf) as (H1 & H2 & H3).
      assert (Hik : i <= k).
      { apply (Hleft k (k + length p)). apply range_matches_iff. auto. }
      destruct (Nat.eq_dec i k) as [->|Hne]; [reflexivity|].
      rewrite H3 in Hp by lia. discriminate.
    + rewrite (first_match_None _ _ Hf) in Hp. discriminate.
  - intros [Hf ->]. destruct (first_match_Some _ _ Hf) as (H1 & H2 & H3).
    split; [apply range_matches_iff; auto|].
    intros i' j' Hm. apply range_matches_iff in Hm.
    destruct Hm as (_ & _ & Hp).
    destruct (le_lt_dec i i') as [Hle|Hlt]; [assumption|].
    rewrite H3 in Hp by assumption. discriminate.
Qed.

Lemma first_match_occurs (t : list A) (p : list B) :
  occurs compare t p <-> exists k, first_match compare t p = Some k.
Proof.
  split.
  - intros (i & j & Hm). apply range_matches_iff in Hm.
    destruct Hm as (_ & _ & Hp).
    destruct (first_match compare t p) as [k|] eqn:Hf; [eauto|].
    rewrite (first_match_None _ _ Hf) in Hp. discriminate.
  - intros [k Hf]. exists k, (k + length p).
    apply first_match_leftmost. auto.
Qed.
End MatchingFacts.

(* ------------------------------------------------------------------ *)
(** ** The forward search *)

Section FindFacts.
Context {A B : Type}.
Variable compare : A -> B -> bool.

(** One test of the outer loop on a text that is not at its end. *)
Lemma find_loop_cons (pos pp : nat) (a : A) (t : list A) (p : list B) :
  implementation.find_loop compare pos (a :: t) (mk_itt pp p) =
  if prefixb compare (a :: t) p
     || (matched_len compare (a :: t) p =? length (a :: t))
  then (mk_itt pos (a :: t),
        mk_itt (pos + matched_len compare (a :: t) p)
               (skipn (matched_len compare (a :: t) p) (a :: t)),
        mk_itt (pp + matched_len compare (a :: t) p)
               (skipn (matched_len compare (a :: t) p) p))
  else implementation.find_loop compare (S pos) t (mk_itt pp p).
Proof.
  cbn [implementation.find_loop]. unfold implementation.lockstep. cbn [get_position units].
  rewrite compare_loop_spec.
  rewrite !is_end_position_skipn
    by (apply matched_len_le_l || apply matched_len_le_r).
  rewrite <- prefixb_matched_len. reflexivity.
Qed.

(** What the search returns, in terms of the first matching position. *)
Lemma find_forward_optimized_spec (t : list A) : forall (pt pp : nat) (p : list B),
  implementation.find_forward_optimized compare (mk_itt pt t) (mk_itt pp p) =
  match first_match compare t p with
  | Some k =>
      mk_range (mk_itt (pt + k) (skipn k t))
               (mk_itt (pt + k + length p) (skipn (k + length p) t))
  | None =>
      mk_range (mk_itt (pt + length t) []) (mk_itt (pt + length t) [])
  end.
Proof.
  induction t as [|a t IH]; intros pt pp p.
  - unfold implementation.find_forward_optimized. simpl.
    destruct p as [|b p]; simpl; rewrite ?Nat.add_0_r; reflexivity.
  - rewrite first_match_eq.
    unfold implementation.find_forward_optimized. cbn [get_position units].
    rewrite find_loop_cons.
    pose proof (matched_len_le_r compare (a :: t) p) as Hr.
    pose proof (matched_len_le_l compare (a :: t) p) as Hl.
    pose proof (prefixb_matched_len compare (a :: t) p) as Hpm.
    remember (matched_len compare (a :: t) p) as n eqn:Hn.
    remember (a :: t) as u eqn:Hu.
    destruct (prefixb compare u p) eqn:Hp.
    + (* the pattern is matched at the current position *)
      rewrite orb_true_l.
      rewrite is_end_position_skipn by assumption.
      symmetry in Hpm. rewrite Hpm. apply Nat.eqb_eq in Hpm.
      rewrite Hpm, !Nat.add_0_r. reflexivity.
    + rewrite orb_false_l. symmetry in Hpm.
      destruct (Nat.eqb_spec n (length u)) as [E|E].
      * (* the text ends inside the pattern: no position matches *)
        rewrite is_end_position_skipn by assumption. rewrite Hpm.
        rewrite E, skipn_all. apply Nat.eqb_neq in Hpm.
        rewrite Hu. rewrite (first_match_short compare t p)
          by (rewrite Hu in *; simpl in *; lia).
        reflexivity.
      * (* the loop goes on *)
        specialize (IH (S pt) pp p). unfold implementation.find_forward_optimized in IH.
        cbn [get_position units] in IH. rewrite IH, Hu.
        destruct (first_match compare t p) as [k|]; simpl;
          rewrite !Nat.add_succ_r; reflexivity.
Qed.
End FindFacts.

Section FindClaims.
Context {A B : Type}.
Variable compare : A -> B -> bool.

Lemma find_forward_optimized_found (pt pp : nat) (t : list A) (p : list B) (i j : nat) :
  leftmost_match compare t p i j ->
  implementation.find_forward_optimized compare (mk_itt pt t) (mk_itt pp p)
  = mk_range (mk_itt (pt + i) (skipn i t)) (mk_itt (pt + j) (skipn j t)).
Proof.
  intros H. apply first_match_leftmost in H. destruct H as [Hf ->].
  rewrite find_forward_optimized_spec, Hf, Nat.add_assoc. reflexivity.
Qed.

Lemma find_forward_optimized_not_found (pt pp : nat) (t : list A) (p : list B) :
  ~ occurs compare t p ->
  implementation.find_forward_optimized compare (mk_itt pt t) (mk_itt pp p)
  = mk_range (mk_itt (pt + length t) []) (mk_itt (pt + length t) []).
Proof.
  intros H. rewrite find_forward_optimized_spec.
  destruct (first_match compare t p) as [k|] eqn:Hf; [|reflexivity].
  exfalso. apply H. apply first_match_occurs. eauto.
Qed.

Lemma occurs_dec (t : list A) (p : list B) :
  {occurs compare t p} + {~ occurs compare t p}.
Proof.
  destruct (first_match compare t p) as [k|] eqn:Hf.
  - left. apply first_match_occurs. eauto.
  - right. intros H. apply first_match_occurs in H. destruct H as [k H].
    congruence.
Qed.

(** With a pattern that is not empty, the begin of the result is at the
    end position exactly when the pattern does not occur. *)
Lemma find_forward_optimized_signal (pt pp : nat) (t : list A) (p : list B) :
  p <> [] ->
  is_end_position
    (r_begin (implementation.find_forward_optimized compare (mk_itt pt t) (mk_itt pp p))) = true
  <-> ~ occurs compare t p.
Proof.
  intros Hp. rewrite find_forward_optimized_spec, first_match_occurs.
  destruct (first_match compare t p) as [k|] eqn:Hf; simpl.
  - destruct (first_match_Some _ _ _ Hf) as (H1 & H2 & _).
    rewrite (is_end_position_skipn (pt + k)) by lia.
    destruct (Nat.eqb_spec k (length t)) as [E|E].
    + destruct p; [congruence | simpl in H2; lia].
    + split; [discriminate | intros H; exfalso; apply H; eauto].
  - split; [intros _ [k H]; discriminate | reflexivity].
Qed.

End FindClaims.

(** An empty pattern is found at the current position; at the end of the
    text the begin of that match is at the end position too. *)
Remark find_forward_optimized_empty_at_end (A B : Type) (compare : A -> B -> bool)
       (pt pp : nat) :
  occurs compare (@nil A) (@nil B)
  /\ is_end_position
       (r_begin (implementation.find_forward_optimized compare
                   (mk_itt pt (@nil A)) (mk_itt pp (@nil B)))) = true.
Proof.
  split; [|reflexivity].
  exists 0, 0. unfold range_matches. simpl. repeat split; lia.
Qed.

Section ContainsClaims.
Context {A B : Type}.
Variable comparer : A -> B -> bool.

Lemma contains_iff_occurs (text : list A) (contained_string : list B) :
  contains comparer text contained_string = true
  <-> occurs comparer text contained_string.
Proof.
  unfold contains, make_const_terminated_iterator_forward.
  destruct contained_string as [|b p].
  - simpl. split; [intros _ | reflexivity].
    exists 0, 0. apply range_matches_iff. simpl. repeat split; try lia.
    destruct text; reflexivity.
  - change (is_end_position (mk_itt 0 (b :: p))) with false. rewrite orb_false_l.
    rewrite negb_true_iff, <- not_true_iff_false.
    rewrite find_forward_optimized_signal by discriminate.
    destruct (occurs_dec comparer text (b :: p)); tauto.
Qed.
End ContainsClaims.

(** C1: [contains(T, P, comparer)] is true exactly when some contiguous
    range of [T] full-matches [P] under the comparer; an empty pattern is
    always contained; the four examples of the specification. *)
Theorem contains_correct :
  (forall (A B : Type) (comparer : A -> B -> bool) (T : list A) (P : list B),
      contains comparer T P = true
      <-> exists i j, i <= j /\ j <= length T /\
            implementation.full_match comparer
              (make_const_terminated_iterator_forward_range T i j)
              (make_const_terminated_iterator_forward P) = true)
  /\ (forall (A B : Type) (comparer : A -> B -> bool) (T : list A),
         contains comparer T (@nil B) = true)
  /\ contains char_equals (lit "Hello World") (lit "ello") = true
  /\ contains char_equals (lit "Hello World") (lit "ella") = false
  /\ contains char_equals (lit "Hello") (lit "") = true
  /\ contains char_equals (lit "") (lit "") = true.
Proof.
  split; [|split; [|repeat split]].
  - intros A B comparer T P. apply contains_iff_occurs.
  - reflexivity.
Qed.

(* ------------------------------------------------------------------ *)
(** ** Replace *)

Lemma push_back_all_spec {A C : Type} (cast : C -> A) (us : list C) :
  forall target, push_back_all cast target us = target ++ map cast us.
Proof.
  induction us as [|c us IH]; intros target; simpl.
  - rewrite app_nil_r. reflexivity.
  - rewrite IH, <- app_assoc. reflexivity.
Qed.

Lemma skipn_cons_pred {X : Type} (n : nat) (x : X) (l : list X) :
  0 < n -> skipn n (x :: l) = skipn (n - 1) l.
Proof.
  intros H. destruct n as [|n]; [lia|]. simpl. rewrite Nat.sub_0_r. reflexivity.
Qed.

Section ReplaceFacts.
Context {A B C : Type}.
Variable compare : A -> B -> bool.
Variable cast : C -> A.
Variable p : list B.
Variable r : list C.
Hypothesis p_not_empty : p <> [].

Lemma p_length : 0 < length p.
Proof using p_not_empty. destruct p; [congruence | simpl; lia]. Qed.

Lemma p_not_at_end (pp : nat) : is_end_position (mk_itt pp p) = false.
Proof using p_not_empty. destruct p; [congruence | reflexivity]. Qed.

Lemma replaced_skip (t : list A) : forall skip,
  replaced compare cast p r skip t = replaced compare cast p r 0 (skipn skip t).
Proof.
  induction t as [|a t IH]; intros [|skip]; try reflexivity.
  simpl skipn. rewrite <- IH. reflexivity.
Qed.

Lemma replaced_cons (a : A) (t : list A) :
  replaced compare cast p r 0 (a :: t) =
  if prefixb compare (a :: t) p
  then map cast r ++ replaced compare cast p r 0 (skipn (length p) (a :: t))
  else a :: replaced compare cast p r 0 t.
Proof.
  cbn [replaced]. rewrite (replaced_skip t (length p - 1)).
  rewrite (skipn_cons_pred a t p_length). reflexivity.
Qed.

Lemma replaced_no_match (t : list A) :
  first_match compare t p = None -> replaced compare cast p r 0 t = t.
Proof.
  induction t as [|a t IH]; intros H; [reflexivity|].
  rewrite first_match_eq in H. rewrite replaced_cons.
  destruct (prefixb compare (a :: t) p); [discriminate|].
  destruct (first_match compare t p); [discriminate|].
  rewrite IH; reflexivity.
Qed.

Lemma replaced_first_match (t : list A) : forall k,
  first_match compare t p = Some k ->
  replaced compare cast p r 0 t =
  firstn k t ++ map cast r
    ++ replaced compare cast p r 0 (skipn (k + length p) t).
Proof.
  induction t as [|a t IH]; intros k H.
  - apply first_match_Some in H. pose proof p_length. simpl in H. lia.
  - rewrite first_match_eq in H. rewrite replaced_cons.
    destruct (prefixb compare (a :: t) p).
    + injection H as <-. reflexivity.
    + destruct (first_match compare t p) as [k0|]; [|discriminate].
      injection H as <-. rewrite (IH k0 eq_refl). reflexivity.
Qed.

(** The loop of [implementation.replace_all_copy_forward] ends within [length t + 1]
    tests and appends [replaced ... t] to [result]. *)
Lemma replace_all_copy_forward_spec (fuel : nat) :
  forall (t : list A) (result : list A) (pt pp pr : nat),
    length t < fuel ->
    implementation.replace_all_copy_forward compare cast fuel result
      (mk_itt pt t) (mk_itt pp p) (mk_itt pr r)
    = Some (result ++ replaced compare cast p r 0 t).
Proof.
  induction fuel as [|fuel IH]; intros t result pt pp pr Hlen; [lia|].
  destruct t as [|a t].
  - simpl. rewrite app_nil_r. reflexivity.
  - cbn [implementation.replace_all_copy_forward units]. unfold implementation.lockstep.
    cbn [get_position units]. rewrite compare_loop_spec.
    rewrite is_end_position_skipn by apply matched_len_le_r.
    rewrite <- prefixb_matched_len, replaced_cons.
    destruct (prefixb compare (a :: t) p) eqn:Hp.
    + rewrite prefixb_matched_len in Hp. apply Nat.eqb_eq in Hp. rewrite Hp.
      rewrite IH.
      * rewrite push_back_all_spec, <- app_assoc. reflexivity.
      * rewrite length_skipn. pose proof p_length as Hpl.
        cbn [length] in Hlen |- *. lia.
    + unfold incr. cbn [get_position units tl]. rewrite IH by (simpl in Hlen; lia).
      rewrite <- app_assoc. reflexivity.
Qed.

Lemma replace_all_copy_spec (t : list A) :
  replace_all_copy compare cast t p r = Returned (replaced compare cast p r 0 t).
Proof.
  unfold replace_all_copy, make_const_terminated_iterator_forward.
  rewrite p_not_at_end, replace_all_copy_forward_spec by lia. reflexivity.
Qed.

Lemma replace_all_in_place_spec (nul : A) (t : list A) :
  replace_all_in_place compare cast nul t p r
  = (replaced compare cast p r 0 t, Returned tt).
Proof.
  unfold replace_all_in_place, make_const_terminated_iterator_forward.
  rewrite p_not_at_end. unfold implementation.replace_all_in_place_forward.
  unfold make_const_terminated_iterator_forward.
  rewrite find_forward_optimized_spec.
  destruct (first_match compare t p) as [k|] eqn:Hf.
  - destruct (first_match_Some _ _ _ Hf) as (H1 & H2 & _).
    pose proof p_length as Hpl.
    cbn [r_begin r_end get_position]. rewrite is_end_position_skipn by lia.
    replace (k =? length t) with false by (symmetry; apply Nat.eqb_neq; lia).
    cbn [negb]. unfold get_end, text_of_positions, resize.
    cbn [get_position units]. rewrite !Nat.add_0_l, Nat.sub_0_r.
    replace (k - length t) with 0 by lia. cbn [repeat]. rewrite app_nil_r.
    rewrite (firstn_all2 (n := length t - (k + length p))) by
      (rewrite length_skipn; lia).
    rewrite replace_all_copy_forward_spec by lia.
    rewrite push_back_all_spec, <- app_assoc.
    rewrite (replaced_first_match t Hf). reflexivity.
  - cbn [r_begin]. unfold is_end_position. cbn [units negb].
    rewrite replaced_no_match by assumption. reflexivity.
Qed.
End ReplaceFacts.

(** C2: with an empty pattern [replace_all_copy] and
    [replace_all_in_place] throw [std::invalid_argument], and so does the
    constructor of [split_token_iterator] with an empty separator token;
    the text object handed to [replace_all_in_place] holds after the failed
    call what it held before. *)
Theorem empty_pattern_invalid_argument
        (A B C : Type) (comparer : A -> B -> bool) (cast : C -> A) (nul : A)
        (T : list A) (R : list C) (mode : split_mode) :
  replace_all_copy comparer cast T (@nil B) R
  = Thrown (invalid_argument
      "The replace_all_copy input parameter text_to_be_replaced must not be empty.")
  /\ replace_all_in_place comparer cast nul T (@nil B) R
     = (T, Thrown (invalid_argument
          "The replace_all_in_place input parameter text_to_be_replaced must not be empty."))
  /\ split_token_iterator_new comparer T (@nil B) mode
     = Thrown (invalid_argument
         "The separator_token input parameter for the split_token_iterator must not be empty.").
Proof. repeat split. Qed.

(** [split_token] clears the container before it constructs the iterator:
    with an empty separator token the call throws after the container was
    emptied. *)
Remark split_token_empty_separator
       (A B : Type) (comparer : A -> B -> bool)
       (container : list (list A)) (T : list A) (mode : split_mode) :
  split_token comparer container T (@nil B) mode true
  = ([], Thrown (invalid_argument
       "The separator_token input parameter for the split_token_iterator must not be empty.")).
Proof. reflexivity. Qed.

(** C3: [replace_all_copy] with a pattern that is not empty scans from the
    left: where the pattern does not occur the text is returned as it is;
    otherwise the units before the leftmost match are kept, the replacement
    is put in place of the match, and the scan goes on strictly after the
    matched range in the text alone, never in the inserted replacement. *)
Theorem replace_all_copy_left_to_right :
  (forall (A B C : Type) (comparer : A -> B -> bool) (cast : C -> A)
          (T : list A) (P : list B) (R : list C),
      P <> [] ->
      (~ occurs comparer T P -> replace_all_copy comparer cast T P R = Returned T)
      /\ (forall i j,
             leftmost_match comparer T P i j ->
             i < j /\
             exists tail,
               replace_all_copy comparer cast (skipn j T) P R = Returned tail
               /\ replace_all_copy comparer cast T P R
                  = Returned (firstn i T ++ map cast R ++ tail)))
  /\ replace_all_copy char_equals (fun c => c) (lit "aaaa aaaa") (lit "aa") (lit "123")
     = Returned (lit "123123 123123")
  /\ replace_all_copy char_equals (fun c => c) (lit "aaaa") (lit "aa") (lit "aaa")
     = Returned (lit "aaaaaa").
Proof.
  split; [|split; reflexivity].
  intros A B C comparer cast T P R HP. split.
  - intros Hno. rewrite replace_all_copy_spec by assumption.
    rewrite replaced_no_match; [reflexivity | assumption |].
    destruct (first_match comparer T P) as [k|] eqn:Hf; [|reflexivity].
    exfalso. apply Hno. apply first_match_occurs. eauto.
  - intros i j Hl. apply first_match_leftmost in Hl. destruct Hl as [Hf ->].
    pose proof (p_length HP) as Hlen. split; [lia|].
    exists (replaced comparer cast P R 0 (skipn (i + length P) T)).
    rewrite !replace_all_copy_spec by assumption.
    rewrite (replaced_first_match comparer cast R HP T Hf). auto.
Qed.

Lemma replace_all_copy_left_to_right_witness :
  2 < 4 /\
  exists tail,
    replace_all_copy char_equals (fun c => c) (skipn 4 (lit "abcab")) (lit "ca") (lit "X")
    = Returned tail
    /\ replace_all_copy char_equals (fun c => c) (lit "abcab") (lit "ca") (lit "X")
       = Returned (firstn 2 (lit "abcab") ++ map (fun c => c) (lit "X") ++ tail).
Proof.
  refine (proj2 (proj1 replace_all_copy_left_to_right
                   ascii ascii ascii char_equals (fun c => c)
                   (lit "abcab") (lit "ca") (lit "X") _) 2 4 _).
  - discriminate.
  - apply first_match_leftmost. split; reflexivity.
Defined.

(* ------------------------------------------------------------------ *)
(** ** The default comparer *)

Section EqualsComparer.
Context {A : Type}.
Variable A_eq_dec : forall x y : A, {x = y} + {x <> y}.

Lemma prefixb_equals (t : list A) : forall p : list A,
  prefixb (equals_comparer A_eq_dec) t p = true ->
  t = p ++ skipn (length p) t.
Proof.
  induction t as [|a t IH]; intros [|b p] H; try reflexivity; try discriminate.
  simpl in H. apply andb_true_iff in H. destruct H as [Hab H].
  unfold equals_comparer in Hab. destruct (A_eq_dec a b); [|discriminate].
  subst b. simpl. f_equal. apply IH. assumption.
Qed.

(** A matched range holds the pattern itself. *)
Lemma first_match_equals (t p : list A) (k : nat) :
  first_match (equals_comparer A_eq_dec) t p = Some k ->
  t = firstn k t ++ p ++ skipn (k + length p) t.
Proof.
  intros H. apply first_match_Some in H. destruct H as (Hp & _ & _).
  apply prefixb_equals in Hp. rewrite skipn_skipn in Hp.
  rewrite (Nat.add_comm (length p) k) in Hp.
  rewrite <- Hp. symmetry. apply firstn_skipn.
Qed.

Lemma replaced_self (p : list A) (n : nat) :
  p <> [] ->
  forall t, length t <= n ->
  replaced (equals_comparer A_eq_dec) (fun c => c) p p 0 t = t.
Proof.
  intros Hp. induction n as [|n IH]; intros t Hlen.
  - destruct t; [reflexivity | simpl in Hlen; lia].
  - destruct (first_match (equals_comparer A_eq_dec) t p) as [k|] eqn:Hf.
    + rewrite (replaced_first_match _ (fun c => c) p Hp t Hf).
      destruct (first_match_Some _ _ _ Hf) as (_ & Hk & _).
      pose proof (p_length Hp) as Hpl.
      rewrite IH by (rewrite length_skipn; lia).
      rewrite map_id. symmetry. apply first_match_equals. assumption.
    + apply replaced_no_match; assumption.
Qed.

(** C10: under the default comparer, replacing a pattern that is not
    empty with itself returns the text as it is. *)
Theorem replace_all_copy_self (T P : list A) :
  P <> [] ->
  replace_all_copy (equals_comparer A_eq_dec) (fun c => c) T P P = Returned T.
Proof.
  intros HP. rewrite replace_all_copy_spec by assumption.
  rewrite (replaced_self HP (n := length T)); [reflexivity | lia].
Qed.
End EqualsComparer.

Lemma replace_all_copy_self_witness :
  replace_all_copy (equals_comparer ascii_dec) (fun c => c)
    (lit "aaaa aaaa") (lit "aa") (lit "aa") = Returned (lit "aaaa aaaa").
Proof.
  apply (@replace_all_copy_self ascii ascii_dec (lit "aaaa aaaa") (lit "aa")).
  discriminate.
Defined.

(* ------------------------------------------------------------------ *)
(** ** Trim *)

Section TrimFacts.
Context {A : Type}.
Variable is_something : A -> bool.

Lemma trim_loop_spec (us : list A) : forall pos,
  implementation.trim_loop is_something pos us
  = mk_itt (pos + leading is_something us) (skipn (leading is_something us) us).
Proof.
  induction us as [|a us IH]; intros pos; simpl.
  - rewrite Nat.add_0_r. reflexivity.
  - destruct (is_something a); simpl.
    + rewrite IH, Nat.add_succ_r. reflexivity.
    + rewrite Nat.add_0_r. reflexivity.
Qed.

Lemma leading_le (us : list A) : leading is_something us <= length us.
Proof.
  induction us as [|a us IH]; simpl; [lia|].
  destruct (is_something a); simpl; lia.
Qed.

(** The run stops at a unit that does not satisfy the predicate. *)
Lemma leading_stops (us : list A) :
  leading is_something us < length us ->
  exists a rest,
    skipn (leading is_something us) us = a :: rest /\ is_something a = false.
Proof.
  induction us as [|a us IH]; simpl; intros H; [lia|].
  destruct (is_something a) eqn:Ha; simpl.
  - apply IH. lia.
  - exists a, us. auto.
Qed.

Lemma leading_app_stop (l m : list A) (a : A) :
  In a l -> is_something a = false ->
  leading is_something (l ++ m) = leading is_something l.
Proof.
  induction l as [|x l IH]; simpl; intros Hin Ha; [contradiction|].
  destruct (is_something x) eqn:Hx; [|reflexivity].
  destruct Hin as [->|Hin]; [congruence|].
  rewrite IH by assumption. reflexivity.
Qed.

Lemma trim_start_copy_spec (text : list A) :
  trim_start_copy is_something text = skipn (leading is_something text) text.
Proof.
  unfold trim_start_copy, implementation.trim_copy, implementation.trim_iterator,
    make_const_terminated_iterator_forward, make_const_terminated_iterator_reverse.
  cbn [get_position units]. rewrite trim_loop_spec.
  pose proof (leading_le text) as Hle.
  rewrite is_end_position_skipn by assumption.
  unfold text_of_positions, base, get_end. cbn [get_position units].
  rewrite !Nat.add_0_l, Nat.sub_0_r.
  destruct (Nat.eqb_spec (leading is_something text) (length text)) as [E|E];
    cbn [negb].
  - rewrite E, skipn_all, firstn_nil. reflexivity.
  - apply firstn_all2. rewrite length_skipn. lia.
Qed.

Lemma trim_end_copy_spec (text : list A) :
  trim_end_copy is_something text
  = firstn (length text - leading is_something (rev text)) text.
Proof.
  unfold trim_end_copy, implementation.trim_copy, implementation.trim_iterator,
    make_const_terminated_iterator_forward, make_const_terminated_iterator_reverse.
  cbn [get_position units]. rewrite trim_loop_spec.
  unfold text_of_positions, base, get_end. cbn [get_position units].
  rewrite !Nat.add_0_l, !Nat.sub_0_r.
  destruct text as [|a text]; reflexivity.
Qed.

Lemma trim_copy_spec (text : list A) :
  trim_copy is_something text
  = firstn (length text - leading is_something (rev text)
            - leading is_something text)
      (skipn (leading is_something text) text).
Proof.
  unfold trim_copy, implementation.trim_copy, implementation.trim_iterator,
    make_const_terminated_iterator_forward, make_const_terminated_iterator_reverse.
  cbn [get_position units]. rewrite !trim_loop_spec.
  pose proof (leading_le text) as Hle.
  rewrite is_end_position_skipn by assumption.
  unfold text_of_positions, base, get_end. cbn [get_position units].
  rewrite !Nat.add_0_l.
  destruct (Nat.eqb_spec (leading is_something text) (length text)) as [E|E];
    cbn [negb].
  - rewrite E, skipn_all, !firstn_nil. reflexivity.
  - reflexivity.
Qed.

(** C7: trimming both ends in one call equals trimming the start first and
    then the end, for every predicate (the default one is
    [utility::is_space()]) and every text; a text of units that all satisfy
    the predicate gives the empty string on both sides. *)
Theorem trim_copy_composition (T : list A) :
  trim_copy is_something T
  = trim_end_copy is_something (trim_start_copy is_something T)
  /\ (forallb is_something T = true ->
      trim_copy is_something T = []
      /\ trim_end_copy is_something (trim_start_copy is_something T) = []).
Proof.
  assert (Heq : trim_copy is_something T
                = trim_end_copy is_something (trim_start_copy is_something T)).
  { rewrite trim_copy_spec, trim_start_copy_spec, trim_end_copy_spec.
    pose proof (leading_le T) as Hle.
    destruct (Nat.eq_dec (leading is_something T) (length T)) as [E|E].
    - rewrite E, skipn_all, !firstn_nil. reflexivity.
    - destruct (leading_stops T) as (a & rest & Hs & Ha); [lia|].
      rewrite length_skipn.
      assert (Hrev : leading is_something (rev T)
                     = leading is_something
                         (rev (skipn (leading is_something T) T))).
      { rewrite <- (firstn_skipn (leading is_something T) T) at 1.
        rewrite rev_app_distr.
        apply leading_app_stop with (a := a); [|assumption].
        apply in_rev. rewrite rev_involutive, Hs. left. reflexivity. }
      rewrite <- Hrev. f_equal. lia. }
  split; [assumption|].
  intros Hall. rewrite <- Heq.
  assert (Hl : leading is_something T = length T).
  { clear Heq. induction T as [|a T' IH]; [reflexivity|].
    simpl in Hall. apply andb_true_iff in Hall. destruct Hall as [Ha Hall].
    simpl. rewrite Ha, IH by assumption. reflexivity. }
  rewrite trim_copy_spec, Hl, skipn_all, firstn_nil. split; reflexivity.
Qed.
End TrimFacts.

Lemma trim_copy_composition_witness :
  trim_copy (fun c => Ascii.eqb c " ") (lit "   ") = []
  /\ trim_end_copy (fun c => Ascii.eqb c " ")
       (trim_start_copy (fun c => Ascii.eqb c " ") (lit "   ")) = [].
Proof.
  apply (proj2 (@trim_copy_composition ascii (fun c => Ascii.eqb c " ") (lit "   "))).
  reflexivity.
Defined.

(* ------------------------------------------------------------------ *)
(** ** Join *)

Section JoinFacts.
Context {A I S : Type}.
Variable cast_item : I -> A.
Variable cast_separator : S -> A.

Lemma copy_append {X : Type} (cast : X -> A) (target : list A) (text : list X) :
  copy cast target text false = target ++ map cast text.
Proof. unfold copy. simpl. apply push_back_all_spec. Qed.

Lemma join_loop_rest (container : list (list I)) (separator : list S) :
  forall target,
    join_loop cast_item cast_separator target false container separator
    = target ++ concat (map (fun item => map cast_separator separator
                                          ++ map cast_item item) container).
Proof.
  induction container as [|item container IH]; intros target; simpl.
  - rewrite app_nil_r. reflexivity.
  - rewrite IH, !copy_append, <- !app_assoc. reflexivity.
Qed.

Lemma join_cons (target : list A) (item : list I) (container : list (list I))
      (separator : list S) :
  join cast_item cast_separator target (item :: container) separator true
  = map cast_item item
    ++ concat (map (fun item => map cast_separator separator
                                 ++ map cast_item item) container).
Proof.
  unfold join. simpl. rewrite join_loop_rest, copy_append. reflexivity.
Qed.

(** C9: [join] on an empty container inserts no separator and appends
    nothing: the target is empty when [clear_target] is true and is left as
    it was when [clear_target] is false. *)
Theorem join_empty_container (target : list A) (separator : list S) :
  join cast_item cast_separator target (@nil (list I)) separator true = []
  /\ join cast_item cast_separator target (@nil (list I)) separator false = target.
Proof. split; reflexivity. Qed.
End JoinFacts.

Lemma join_two_or_more {A : Type} (target x y : list A) (rest : list (list A))
      (separator : list A) :
  join (fun c => c) (fun c => c) target (x :: y :: rest) separator true
  = x ++ separator
    ++ join (fun c => c) (fun c => c) target (y :: rest) separator true.
Proof.
  rewrite !join_cons. simpl. rewrite !map_id, <- app_assoc. reflexivity.
Qed.

Lemma join_one {A : Type} (target x : list A) (separator : list A) :
  join (fun c => c) (fun c => c) target [x] separator true = x.
Proof. rewrite join_cons. simpl. rewrite map_id, app_nil_r. reflexivity. Qed.

(* ------------------------------------------------------------------ *)
(** ** Token-mode split *)

Section SplitFacts.
Context {A B : Type}.
Variable compare : A -> B -> bool.
Variable T : list A.
Variable sep : list B.
Hypothesis sep_not_empty : sep <> [].

Lemma advance_loop_unfold (fuel : nat) (it : split_token_iterator A B) :
  advance_loop compare (S fuel) it =
  if is_end it then Some it
  else if split_mode_eqb (used_mode it) skip_empty
          && itt_eqb (r_begin (current_separator (advance_step compare it)))
                     (itt_text (advance_step compare it))
       then advance_loop compare fuel (advance_step compare it)
       else Some (advance_step compare it).
Proof. reflexivity. Qed.

Lemma split_token_loop_unfold (fuel : nat) (container : list (list A))
      (it : split_token_iterator A B) :
  split_token_loop compare (S fuel) T container it =
  if is_end it then Some container
  else match advance compare it with
       | Some it' =>
           split_token_loop compare fuel T (container ++ [yielded T it]) it'
       | None => None
       end.
Proof. reflexivity. Qed.

(** The constructor's first pass leads to the state at index 0. *)
Lemma advance_step_initial (mode : split_mode) :
  advance_step compare
    (mk_split_token_iterator (mk_itt 0 T) (mk_itt 0 sep)
       (mk_range (mk_itt 0 T) (mk_itt 0 T)) (mk_range 0 0) mode false)
  = split_state compare T sep mode 0 (is_end_position (mk_itt 0 T)).
Proof. reflexivity. Qed.

Lemma split_state_found (mode : split_mode) (pos : nat) (e : bool) :
  current_separator (split_state compare T sep mode pos e)
  = match first_match compare (skipn pos T) sep with
    | Some k =>
        mk_range (mk_itt (pos + k) (skipn k (skipn pos T)))
                 (mk_itt (pos + k + length sep)
                         (skipn (k + length sep) (skipn pos T)))
    | None =>
        mk_range (mk_itt (pos + length (skipn pos T)) [])
                 (mk_itt (pos + length (skipn pos T)) [])
    end.
Proof. unfold split_state. cbn [current_separator]. apply find_forward_optimized_spec. Qed.

(** From a state whose separator was not found, the next pass leads to the
    end of the text with [is_end] set. *)
Lemma advance_step_last (mode : split_mode) (pos : nat) (e : bool) :
  pos <= length T ->
  first_match compare (skipn pos T) sep = None ->
  advance_step compare (split_state compare T sep mode pos e)
  = split_state compare T sep mode (length T) true.
Proof.
  intros Hpos Hf. unfold advance_step. rewrite split_state_found, Hf.
  cbn [r_begin r_end]. rewrite length_skipn.
  replace (pos + (length T - pos)) with (length T) by lia.
  unfold split_state. rewrite skipn_all. reflexivity.
Qed.

(** From a state whose separator was found at [k], the next pass leads
    to the state right after that separator. *)
Lemma advance_step_next (mode : split_mode) (pos : nat) (e : bool) (k : nat) :
  first_match compare (skipn pos T) sep = Some k ->
  advance_step compare (split_state compare T sep mode pos e)
  = split_state compare T sep mode (pos + k + length sep) false.
Proof.
  intros Hf. unfold advance_step. rewrite split_state_found, Hf.
  cbn [r_begin r_end].
  destruct (first_match_Some _ _ _ Hf) as (_ & Hk & _).
  pose proof (p_length sep_not_empty) as Hl.
  rewrite is_end_position_skipn by lia.
  replace (k =? length (skipn pos T)) with false
    by (symmetry; apply Nat.eqb_neq; lia).
  rewrite skipn_skipn.
  replace (k + length sep + pos) with (pos + k + length sep) by lia.
  reflexivity.
Qed.

Lemma yielded_last (mode : split_mode) (pos : nat) (e : bool) :
  first_match compare (skipn pos T) sep = None ->
  yielded T (split_state compare T sep mode pos e) = skipn pos T.
Proof.
  intros Hf. unfold yielded.
  change (current_range (split_state compare T sep mode pos e))
    with (mk_range pos
            (get_position (r_begin (current_separator
                                      (split_state compare T sep mode pos e))))).
  rewrite split_state_found, Hf. cbn [r_begin r_end get_position].
  unfold text_of_positions. apply firstn_all2. lia.
Qed.

Lemma yielded_next (mode : split_mode) (pos : nat) (e : bool) (k : nat) :
  first_match compare (skipn pos T) sep = Some k ->
  yielded T (split_state compare T sep mode pos e) = firstn k (skipn pos T).
Proof.
  intros Hf. unfold yielded.
  change (current_range (split_state compare T sep mode pos e))
    with (mk_range pos
            (get_position (r_begin (current_separator
                                      (split_state compare T sep mode pos e))))).
  rewrite split_state_found, Hf. cbn [r_begin r_end get_position].
  unfold text_of_positions. f_equal. lia.
Qed.

(** In mode [all] one pass of the loop of [advance()] is taken. *)
Lemma advance_all (pos : nat) :
  advance compare (split_state compare T sep all pos false)
  = Some (advance_step compare (split_state compare T sep all pos false)).
Proof. reflexivity. Qed.

(** The loop of [split_token] in mode [all], from the state at [pos]. *)
Lemma split_token_loop_all (n : nat) :
  forall (pos fuel : nat) (container : list (list A)),
    length (skipn pos T) <= n ->
    pos <= length T ->
    n + 2 <= fuel ->
    split_token_loop compare fuel T container
      (split_state compare T sep all pos false)
    = Some (container ++ token_sections compare n sep (skipn pos T)).
Proof.
  induction n as [|n IH]; intros pos fuel container Hlen Hpos Hfuel.
  - destruct fuel as [|[|fuel]]; try lia.
    assert (Hf : first_match compare (skipn pos T) sep = None).
    { apply first_match_short. pose proof (p_length sep_not_empty). lia. }
    rewrite split_token_loop_unfold. cbn [split_state is_end].
    rewrite advance_all, advance_step_last, yielded_last by assumption.
    reflexivity.
  - destruct fuel as [|fuel]; [lia|].
    rewrite split_token_loop_unfold. cbn [split_state is_end].
    rewrite advance_all. cbn [token_sections].
    destruct (first_match compare (skipn pos T) sep) as [k|] eqn:Hf.
    + destruct (first_match_Some _ _ _ Hf) as (_ & Hk & _).
      pose proof (p_length sep_not_empty) as Hl.
      rewrite length_skipn in Hk, Hlen.
      rewrite (advance_step_next _ _ _ Hf), (yielded_next _ _ _ Hf).
      rewrite IH; try lia.
      * rewrite skipn_skipn, <- app_assoc.
        replace (k + length sep + pos) with (pos + k + length sep) by lia.
        reflexivity.
      * rewrite length_skipn. lia.
    + rewrite advance_step_last, yielded_last by assumption.
      destruct fuel as [|fuel]; [lia|]. reflexivity.
Qed.

Lemma split_token_iterator_new_all :
  split_token_iterator_new compare T sep all
  = Returned (split_state compare T sep all 0 false).
Proof.
  unfold split_token_iterator_new, make_terminated_iterator_forward,
    make_const_terminated_iterator_forward.
  rewrite (p_not_at_end sep_not_empty).
  destruct T as [|a T'] eqn:ET.
  - destruct sep; [congruence | reflexivity].
  - reflexivity.
Qed.

Lemma split_token_all (container : list (list A)) :
  split_token compare container T sep all true
  = (token_sections compare (length T) sep T, Returned tt).
Proof.
  unfold split_token. rewrite split_token_iterator_new_all.
  rewrite (split_token_loop_all (n := length T)); try lia.
  - reflexivity.
  - rewrite length_skipn. lia.
Qed.
End SplitFacts.

Section SplitJoin.
Context {A : Type}.
Variable A_eq_dec : forall x y : A, {x = y} + {x <> y}.
Variable sep : list A.
Hypothesis sep_not_empty : sep <> [].

Lemma token_sections_cons (n : nat) (t : list A) :
  exists x rest,
    token_sections (equals_comparer A_eq_dec) n sep t = x :: rest.
Proof.
  destruct n as [|n]; simpl; [eauto|].
  destruct (first_match (equals_comparer A_eq_dec) t sep); eauto.
Qed.

(** Joining the sections with the separator gives the text back. *)
Lemma join_token_sections (target : list A) (n : nat) : forall t : list A,
  join (fun c => c) (fun c => c) target
    (token_sections (equals_comparer A_eq_dec) n sep t) sep true = t.
Proof.
  induction n as [|n IH]; intros t; cbn [token_sections].
  - apply join_one.
  - destruct (first_match (equals_comparer A_eq_dec) t sep) as [k|] eqn:Hf.
    + destruct (token_sections_cons n (skipn (k + length sep) t))
        as (x & rest & Hx).
      specialize (IH (skipn (k + length sep) t)). rewrite Hx in *.
      rewrite join_two_or_more, IH. symmetry.
      apply (first_match_equals A_eq_dec). assumption.
    + apply join_one.
Qed.
End SplitJoin.

(** C6: for every text [T] and every separator [SEP] that is not empty,
    [split_token] in mode [all] followed by [join] with [SEP] gives [T]
    back; the source [""] yields exactly one empty section, and a text
    whose only separator stands at its end yields an empty last section. *)
Theorem split_token_join_roundtrip :
  (forall (A : Type) (A_eq_dec : forall x y : A, {x = y} + {x <> y})
          (T SEP : list A) (container : list (list A)) (target : list A),
      SEP <> [] ->
      exists sections,
        split_token (equals_comparer A_eq_dec) container T SEP all true
        = (sections, Returned tt)
        /\ join (fun c => c) (fun c => c) target sections SEP true = T
        /\ (T = [] -> sections = [[]])
        /\ (forall k,
               leftmost_match (equals_comparer A_eq_dec) T SEP k (length T) ->
               sections = [firstn k T; []]))
  /\ split_token char_equals [] (lit "Hello World") (lit " ") all true
     = ([lit "Hello"; lit "World"], Returned tt)
  /\ join (fun c => c) (fun c => c) [] [lit "Hello"; lit "World"] (lit " ") true
     = lit "Hello World"
  /\ split_token char_equals [] (lit "Hello World") (lit "d") all true
     = ([lit "Hello Worl"; lit ""], Returned tt)
  /\ split_token char_equals [] (lit "xHelloxWorldx") (lit "x") all true
     = ([lit ""; lit "Hello"; lit "World"; lit ""], Returned tt)
  /\ split_token char_equals [] (lit "") (lit "x") all true
     = ([lit ""], Returned tt).
Proof.
  split; [|repeat split].
  intros A A_eq_dec T SEP container target HSEP.
  exists (token_sections (equals_comparer A_eq_dec) (length T) SEP T).
  split; [apply split_token_all; assumption|].
  split; [apply join_token_sections; assumption|].
  split.
  - intros ->. destruct SEP; [congruence | reflexivity].
  - intros k Hl. apply first_match_leftmost in Hl. destruct Hl as [Hf Hk].
    pose proof (p_length HSEP) as Hlen.
    destruct T as [|a T']; [simpl in Hk; lia|].
    cbn [length token_sections]. rewrite Hf.
    rewrite <- Hk, skipn_all.
    destruct (length T'); destruct SEP; try congruence; reflexivity.
Qed.

Lemma split_token_join_roundtrip_witness :
  exists sections,
    split_token (equals_comparer ascii_dec) [] (lit "a, b, ") (lit ", ") all true
    = (sections, Returned tt)
    /\ join (fun c => c) (fun c => c) [] sections (lit ", ") true = lit "a, b, "
    /\ (lit "a, b, " = [] -> sections = [[]])
    /\ (forall k,
           leftmost_match (equals_comparer ascii_dec) (lit "a, b, ") (lit ", ")
             k (length (lit "a, b, ")) ->
           sections = [firstn k (lit "a, b, "); []]).
Proof.
  apply (proj1 split_token_join_roundtrip ascii ascii_dec
           (lit "a, b, ") (lit ", ") [] []).
  discriminate.
Defined.

(* ------------------------------------------------------------------ *)
(** ** Token-mode split, mode skip_empty *)

Section SplitSkipFacts.
Context {A B : Type}.
Variable compare : A -> B -> bool.
Variable T : list A.
Variable sep : list B.
Hypothesis sep_not_empty : sep <> [].

Lemma first_match_at_end :
  first_match compare (skipn (length T) T) sep = None.
Proof.
  apply first_match_short. rewrite skipn_all.
  pose proof (p_length sep_not_empty). simpl. lia.
Qed.

(** The test [current_separator.begin() == itt_text] of the loop of
    [advance()] holds exactly when the yielded section is empty. *)
Lemma state_empty_test (mode : split_mode) (pos : nat) (e : bool) :
  pos <= length T ->
  itt_eqb (r_begin (current_separator (split_state compare T sep mode pos e)))
          (itt_text (split_state compare T sep mode pos e))
  = negb (nonempty (yielded T (split_state compare T sep mode pos e))).
Proof.
  intros Hpos. unfold itt_eqb. rewrite split_state_found.
  change (itt_text (split_state compare T sep mode pos e))
    with (mk_itt pos (skipn pos T)).
  cbn [get_position].
  destruct (first_match compare (skipn pos T) sep) as [k|] eqn:Hf.
  - rewrite (yielded_next compare T sep _ _ _ Hf). cbn [r_begin get_position].
    destruct (first_match_Some _ _ _ Hf) as (_ & Hk & _).
    destruct k as [|k].
    + rewrite Nat.add_0_r, Nat.eqb_refl. reflexivity.
    + replace (pos + S k =? pos) with false by (symmetry; apply Nat.eqb_neq; lia).
      destruct (skipn pos T); [simpl in Hk; lia | reflexivity].
  - rewrite (yielded_last compare T sep _ _ _ Hf). cbn [r_begin get_position].
    destruct (skipn pos T) as [|a rest]; simpl.
    + rewrite Nat.add_0_r, Nat.eqb_refl. reflexivity.
    + apply Nat.eqb_neq. lia.
Qed.

Lemma token_sections_hd (mode : split_mode) (n pos : nat) (e : bool) :
  length (skipn pos T) <= n ->
  token_sections compare n sep (skipn pos T)
  = yielded T (split_state compare T sep mode pos e)
    :: tl (token_sections compare n sep (skipn pos T)).
Proof.
  intros Hlen.
  destruct (first_match compare (skipn pos T) sep) as [k|] eqn:Hf.
  - rewrite (yielded_next compare T sep _ _ _ Hf).
    destruct (first_match_Some _ _ _ Hf) as (_ & Hk & _).
    pose proof (p_length sep_not_empty).
    destruct n as [|n]; [lia|]. cbn [token_sections]. rewrite Hf. reflexivity.
  - rewrite (yielded_last compare T sep _ _ _ Hf).
    destruct n as [|n]; cbn [token_sections]; [|rewrite Hf]; reflexivity.
Qed.

(** Once [is_end] is set, [advance()] and the loop of [split_token] stop. *)
Lemma advance_loop_at_end (fuel : nat) (it : split_token_iterator A B) :
  is_end it = true -> advance_loop compare (S fuel) it = Some it.
Proof. intros H. rewrite advance_loop_unfold, H. reflexivity. Qed.

Lemma split_token_loop_at_end (fuel : nat) (container : list (list A))
      (it : split_token_iterator A B) :
  is_end it = true ->
  split_token_loop compare (S fuel) T container it = Some container.
Proof. intros H. rewrite split_token_loop_unfold, H. reflexivity. Qed.

(** From a state whose separator was not found, [advance()] in mode
    [skip_empty] passes over the empty section at the end of the text and
    stops with [is_end] set. *)
Lemma skip_advance_last (pos fuel : nat) :
  pos <= length T ->
  first_match compare (skipn pos T) sep = None ->
  2 <= fuel ->
  advance_loop compare fuel (split_state compare T sep skip_empty pos false)
  = Some (split_state compare T sep skip_empty (length T) true).
Proof.
  intros Hpos Hf Hfuel. destruct fuel as [|[|fuel]]; try lia.
  rewrite advance_loop_unfold.
  change (is_end (split_state compare T sep skip_empty pos false)) with false.
  cbv iota. rewrite advance_step_last by assumption.
  rewrite state_empty_test by lia.
  rewrite (yielded_last compare T sep _ _ _ first_match_at_end), skipn_all.
  change (used_mode (split_state compare T sep skip_empty pos false))
    with skip_empty.
  cbn [split_mode_eqb nonempty negb andb].
  apply advance_loop_at_end. reflexivity.
Qed.

(** [advance()] in mode [skip_empty] from the state at [pos], and the
    loop of [split_token] from the state it reaches: the sections after the
    one at [pos] are yielded, the empty ones left out. *)
Lemma skip_advance (n : nat) :
  forall pos fuelA : nat,
    length (skipn pos T) <= n ->
    pos <= length T ->
    match first_match compare (skipn pos T) sep with
    | None => 2
    | Some k => length (skipn pos T) - (k + length sep) + 3
    end <= fuelA ->
    exists it',
      advance_loop compare fuelA (split_state compare T sep skip_empty pos false)
      = Some it'
      /\ forall (fuel : nat) (container : list (list A)),
          n + 1 <= fuel ->
          split_token_loop compare fuel T container it'
          = Some (container
                    ++ filter nonempty
                         (tl (token_sections compare n sep (skipn pos T)))).
Proof.
  induction n as [|n IH]; intros pos fuelA Hlen Hpos HfuelA.
  - assert (Hf : first_match compare (skipn pos T) sep = None).
    { apply first_match_short. pose proof (p_length sep_not_empty). lia. }
    rewrite Hf in HfuelA.
    exists (split_state compare T sep skip_empty (length T) true).
    split; [apply skip_advance_last; assumption|].
    intros fuel container Hfuel. destruct fuel as [|fuel]; [lia|].
    rewrite split_token_loop_at_end by reflexivity.
    cbn [token_sections tl filter]. rewrite app_nil_r. reflexivity.
  - destruct (first_match compare (skipn pos T) sep) as [k|] eqn:Hf.
    + destruct (first_match_Some _ _ _ Hf) as (_ & Hk & _).
      pose proof (p_length sep_not_empty) as Hl.
      rewrite length_skipn in Hk, Hlen, HfuelA.
      set (pos' := pos + k + length sep).
      assert (Hrest : skipn (k + length sep) (skipn pos T) = skipn pos' T).
      { rewrite skipn_skipn. f_equal. unfold pos'. lia. }
      assert (Hlen' : length (skipn pos' T) <= n)
        by (rewrite length_skipn; unfold pos'; lia).
      assert (Hpos' : pos' <= length T) by (unfold pos'; lia).
      assert (Htl : tl (token_sections compare (S n) sep (skipn pos T))
                    = token_sections compare n sep (skipn pos' T)).
      { cbn [token_sections]. rewrite Hf, Hrest. reflexivity. }
      rewrite Htl.
      rewrite (@token_sections_hd skip_empty n pos' false Hlen').
      destruct fuelA as [|fuelA]; [lia|].
      rewrite advance_loop_unfold.
      change (is_end (split_state compare T sep skip_empty pos false)) with false.
      change (used_mode (split_state compare T sep skip_empty pos false))
        with skip_empty.
      cbv iota. rewrite (advance_step_next compare T sep_not_empty _ _ _ Hf).
      fold pos'. rewrite state_empty_test by assumption.
      cbn [split_mode_eqb andb filter].
      assert (Hbudget : forall extra,
                 length T - pos' + 2 <= extra ->
                 match first_match compare (skipn pos' T) sep with
                 | None => 2
                 | Some k' => length (skipn pos' T) - (k' + length sep) + 3
                 end <= extra).
      { intros extra He.
        destruct (first_match compare (skipn pos' T) sep) as [k'|] eqn:Hf'.
        - destruct (first_match_Some _ _ _ Hf') as (_ & Hk' & _).
          rewrite length_skipn in *. lia.
        - lia. }
      destruct (nonempty (yielded T (split_state compare T sep skip_empty pos' false)))
        eqn:Hne; cbn [negb].
      * (* the next section holds units: the loop of advance() is left *)
        eexists. split; [reflexivity|].
        intros fuel container Hfuel. destruct fuel as [|fuel]; [lia|].
        rewrite split_token_loop_unfold.
        change (is_end (split_state compare T sep skip_empty pos' false)) with false.
        cbv iota. unfold advance.
        destruct (IH pos'
                    (3 + length (units (r_end (current_separator
                       (split_state compare T sep skip_empty pos' false)))))
                    Hlen' Hpos') as (it'' & Hadv & Hloop).
        { rewrite split_state_found.
          destruct (first_match compare (skipn pos' T) sep) as [k'|] eqn:Hf'.
          - cbn [r_end units]. rewrite !length_skipn. lia.
          - lia. }
        rewrite Hadv, Hloop by lia. rewrite <- app_assoc. reflexivity.
      * (* the next section is empty: the loop of advance() goes on *)
        destruct (IH pos' fuelA Hlen' Hpos') as (it'' & Hadv & Hloop).
        { apply Hbudget. unfold pos'. lia. }
        exists it''. split; [assumption|].
        intros fuel container Hfuel. apply Hloop. lia.
    + exists (split_state compare T sep skip_empty (length T) true).
      split; [apply skip_advance_last; assumption|].
      intros fuel container Hfuel. destruct fuel as [|fuel]; [lia|].
      rewrite split_token_loop_at_end by reflexivity.
      cbn [token_sections]. rewrite Hf. cbn [tl filter].
      rewrite app_nil_r. reflexivity.
Qed.
End SplitSkipFacts.

Section SplitSkipResult.
Context {A B : Type}.
Variable compare : A -> B -> bool.
Variable T : list A.
Variable sep : list B.
Hypothesis sep_not_empty : sep <> [].

Lemma skip_budget_initial :
  match first_match compare (skipn 0 T) sep with
  | None => 2
  | Some k => length (skipn 0 T) - (k + length sep) + 3
  end <= 2 + length T.
Proof.
  pose proof (p_length sep_not_empty) as Hl. cbn [skipn].
  destruct (first_match compare T sep) as [k|] eqn:Hf; [|lia].
  destruct (first_match_Some _ _ _ Hf) as (_ & Hk & _). lia.
Qed.

(** In mode [skip_empty], [split_token] yields the sections of mode
    [all] without the empty ones. *)
Lemma split_token_skip_empty (container : list (list A)) :
  split_token compare container T sep skip_empty true
  = (filter nonempty (token_sections compare (length T) sep T), Returned tt).
Proof.
  unfold split_token, split_token_iterator_new, make_terminated_iterator_forward,
    make_const_terminated_iterator_forward.
  rewrite (p_not_at_end sep_not_empty). cbn [split_mode_eqb].
  rewrite orb_true_r. unfold advance at 1. cbn [current_separator r_end units].
  cbn [Nat.add]. rewrite advance_loop_unfold. cbn [is_end used_mode split_mode_eqb andb].
  rewrite advance_step_initial.
  rewrite state_empty_test by (assumption || lia).
  assert (Hhd := @token_sections_hd A B compare T sep sep_not_empty skip_empty
                   (length T) 0).
  cbn [skipn] in Hhd.
  destruct T as [|a T'] eqn:ET.
  - (* the empty source *)
    assert (Hf : first_match compare (skipn 0 (@nil A)) sep = None).
    { apply first_match_short. pose proof (p_length sep_not_empty). simpl. lia. }
    rewrite (yielded_last compare [] sep _ _ _ Hf).
    cbn [skipn nonempty negb is_end_position units].
    rewrite advance_loop_at_end by reflexivity.
    rewrite split_token_loop_at_end by reflexivity.
    destruct sep; [congruence | reflexivity].
  - assert (Hend : is_end_position (mk_itt 0 T) = false)
      by (rewrite ET; reflexivity).
    rewrite <- ET in *. rewrite Hend.
    specialize (Hhd false (le_n _)).
    destruct (nonempty (yielded T (split_state compare T sep skip_empty 0 false)))
      eqn:Hne; cbn [negb].
    + (* the first section holds units *)
      cbn [Nat.add]. rewrite split_token_loop_unfold.
      change (is_end (split_state compare T sep skip_empty 0 false)) with false.
      cbv iota. unfold advance.
      destruct (@skip_advance A B compare T sep sep_not_empty (length T) 0
                  (3 + length (units (r_end (current_separator
                     (split_state compare T sep skip_empty 0 false))))))
        as (it' & Hadv & Hloop).
      * cbn [skipn]. lia.
      * lia.
      * rewrite split_state_found. cbn [skipn].
        destruct (first_match compare T sep) as [k|] eqn:Hf.
        -- cbn [r_end units]. rewrite length_skipn. lia.
        -- lia.
      * rewrite Hadv, Hloop by lia. cbn [skipn app].
        rewrite Hhd at 2. cbn [filter]. rewrite Hne. reflexivity.
    + (* the first section is empty *)
      destruct (@skip_advance A B compare T sep sep_not_empty (length T) 0
                  (2 + length T)) as (it' & Hadv & Hloop).
      * cbn [skipn]. lia.
      * lia.
      * apply skip_budget_initial.
      * cbn [Nat.add] in Hadv |- *. rewrite Hadv, Hloop by lia. cbn [skipn app].
        rewrite Hhd at 2. cbn [filter]. rewrite Hne. reflexivity.
Qed.
End SplitSkipResult.

(** C5: token-mode split yields an empty section between adjacent
    separators in mode [all] and leaves the empty sections out in mode
    [skip_empty]: "Hello World" split on "l" gives "He", "", "o Wor", "d" in
    mode [all] and "He", "o Wor", "d" in mode [skip_empty]. *)
Theorem split_token_empty_sections :
  (forall (A B : Type) (comparer : A -> B -> bool)
          (container : list (list A)) (T : list A) (SEP : list B),
      SEP <> [] ->
      exists sections,
        split_token comparer container T SEP all true = (sections, Returned tt)
        /\ split_token comparer container T SEP skip_empty true
           = (filter nonempty sections, Returned tt))
  /\ split_token char_equals [] (lit "Hello World") (lit "l") all true
     = ([lit "He"; lit ""; lit "o Wor"; lit "d"], Returned tt)
  /\ split_token char_equals [] (lit "Hello World") (lit "l") skip_empty true
     = ([lit "He"; lit "o Wor"; lit "d"], Returned tt).
Proof.
  split; [|split; reflexivity].
  intros A B comparer container T SEP HSEP.
  exists (token_sections comparer (length T) SEP T).
  split; [apply split_token_all | apply split_token_skip_empty]; assumption.
Qed.

Lemma split_token_empty_sections_witness :
  exists sections,
    split_token char_equals [] (lit "xHelloxxWorldx") (lit "x") all true
    = (sections, Returned tt)
    /\ split_token char_equals [] (lit "xHelloxxWorldx") (lit "x") skip_empty true
       = (filter nonempty sections, Returned tt).
Proof.
  apply (proj1 split_token_empty_sections ascii ascii char_equals []
           (lit "xHelloxxWorldx") (lit "x")).
  discriminate.
Defined.

(* ------------------------------------------------------------------ *)
(** ** equals, starts_with, ends_with *)

Section PredicateFacts.
Context {A B : Type}.
Variable comparer : A -> B -> bool.

Lemma prefixb_unitwise (t : list A) : forall p : list B,
  prefixb comparer t p = true <->
  exists head tail, t = head ++ tail /\ unitwise comparer head p.
Proof.
  induction t as [|a t IH]; intros [|b p]; simpl.
  - split; [intros _; exists [], []; split; [reflexivity | constructor] | reflexivity].
  - split; [discriminate|]. intros (h & tl & E & F).
    symmetry in E. apply app_eq_nil in E. destruct E as [-> _]. inversion F.
  - split; [intros _; exists [], (a :: t); split; [reflexivity | constructor] | reflexivity].
  - rewrite andb_true_iff, IH. split.
    + intros (Hab & h & tl & -> & F). exists (a :: h), tl.
      split; [reflexivity | constructor; assumption].
    + intros (h & tl & E & F). inversion F as [|x y h' p' Hxy F' E1 E2]; subst.
      simpl in E. injection E as -> ->. split; [assumption|]. eauto.
Qed.

Lemma unitwise_length (l : list A) (p : list B) :
  unitwise comparer l p -> length l = length p.
Proof. apply Forall2_length. Qed.

Lemma unitwise_rev (l : list A) (p : list B) :
  unitwise comparer l p -> unitwise comparer (rev l) (rev p).
Proof.
  unfold unitwise. induction 1 as [|a b l p Hab F IH]; simpl; [constructor|].
  apply Forall2_app; [assumption|]. constructor; [assumption | constructor].
Qed.

Lemma equals_unitwise (a : list A) (b : list B) :
  equals comparer a b = true <-> unitwise comparer a b.
Proof.
  unfold equals, make_const_terminated_iterator_forward.
  rewrite full_match_spec, andb_true_iff, prefixb_unitwise, Nat.eqb_eq. split.
  - intros [(h & tl & -> & F) Hlen]. pose proof (unitwise_length F) as Hl.
    rewrite length_app in Hlen. destruct tl; [|simpl in Hlen; lia].
    rewrite app_nil_r. assumption.
  - intros F. split; [|apply unitwise_length; assumption].
    exists a, []. rewrite app_nil_r. auto.
Qed.

Lemma starts_with_unitwise (t : list A) (p : list B) :
  starts_with comparer t p = true <->
  exists head tail, t = head ++ tail /\ unitwise comparer head p.
Proof.
  unfold starts_with, make_const_terminated_iterator_forward.
  rewrite prefix_matches_prefixb. apply prefixb_unitwise.
Qed.

Lemma ends_with_unitwise (t : list A) (p : list B) :
  ends_with comparer t p = true <->
  exists front back, t = front ++ back /\ unitwise comparer back p.
Proof.
  unfold ends_with, make_const_terminated_iterator_reverse.
  rewrite prefix_matches_prefixb, prefixb_unitwise. split.
  - intros (h & tl & E & F). exists (rev tl), (rev h). split.
    + rewrite <- rev_app_distr, <- E, rev_involutive. reflexivity.
    + apply unitwise_rev in F. rewrite rev_involutive in F. assumption.
  - intros (front & back & -> & F). exists (rev back), (rev front).
    split; [apply rev_app_distr | apply unitwise_rev; assumption].
Qed.
End PredicateFacts.

(* ------------------------------------------------------------------ *)
(** ** The forward search, stated on the strings *)

Section MatchAtFacts.
Context {A B : Type}.
Variable comparer : A -> B -> bool.

Lemma match_at_iff (t : list A) (p : list B) (i j : nat) :
  match_at comparer t p i j <->
  (j = i + length p /\ j <= length t
   /\ prefixb comparer (skipn i t) p = true).
Proof.
  unfold match_at. split.
  - intros (Hij & Hj & U).
    pose proof (unitwise_length U) as L.
    rewrite length_firstn, length_skipn in L.
    split; [lia|]. split; [assumption|].
    apply prefixb_unitwise.
    exists (firstn (j - i) (skipn i t)), (skipn (j - i) (skipn i t)).
    split; [symmetry; apply firstn_skipn | assumption].
  - intros (-> & Hj & Hp).
    apply prefixb_unitwise in Hp. destruct Hp as (head & tail & E & U).
    split; [lia|]. split; [assumption|].
    replace (i + length p - i) with (length p) by lia.
    rewrite E, <- (unitwise_length U).
    rewrite firstn_app, Nat.sub_diag, firstn_all. cbn [firstn].
    rewrite app_nil_r. assumption.
Qed.

(** A match stated on the strings is a range the code's [full_match]
    accepts, and the other way round. *)
Lemma match_at_range_matches (t : list A) (p : list B) (i j : nat) :
  match_at comparer t p i j <-> range_matches comparer t p i j.
Proof. rewrite match_at_iff, range_matches_iff. reflexivity. Qed.

Lemma match_at_occurs (t : list A) (p : list B) :
  (exists i j, match_at comparer t p i j) <-> occurs comparer t p.
Proof.
  unfold occurs. split; intros (i & j & H); exists i, j;
    apply match_at_range_matches; assumption.
Qed.

Lemma match_at_leftmost (t : list A) (p : list B) (i j : nat) :
  (match_at comparer t p i j
   /\ forall i' j', match_at comparer t p i' j' -> i <= i')
  <-> leftmost_match comparer t p i j.
Proof.
  unfold leftmost_match. split; intros [Hm Hleft];
    (split; [apply match_at_range_matches; assumption|]);
    intros i' j' H; apply (Hleft i' j'); apply match_at_range_matches;
    assumption.
Qed.
End MatchAtFacts.

(** C8: for every text cursor, pattern and comparer, the forward search
    [find_forward_optimized] returns the half-open range
    [[match_start, match_end)] of the leftmost match when the pattern
    occurs: of all index ranges whose units the comparer accepts one by one
    with the pattern's, the one that starts first.  When there is no such
    range it returns an empty range whose begin is at the end position of
    the text; for a pattern that is not empty the begin is at the end
    position in no other case.  The search finds "ca" in "abcab" at
    [[2, 4)], the first of the two "o" of "Hello World" at [[4, 5)], and
    nothing for "cb" in "abcab" and for "abc" in "ab". *)
Theorem find_forward_optimized_correct :
  (forall (A B : Type) (compare : A -> B -> bool)
          (pt pp : nat) (t : list A) (p : list B),
      let found :=
        implementation.find_forward_optimized compare (mk_itt pt t) (mk_itt pp p) in
      (forall i j,
          match_at compare t p i j ->
          (forall i' j', match_at compare t p i' j' -> i <= i') ->
          found = mk_range (mk_itt (pt + i) (skipn i t))
                           (mk_itt (pt + j) (skipn j t)))
      /\ ((exists i j, match_at compare t p i j) ->
          exists i j,
            match_at compare t p i j
            /\ (forall i' j', match_at compare t p i' j' -> i <= i')
            /\ found = mk_range (mk_itt (pt + i) (skipn i t))
                                (mk_itt (pt + j) (skipn j t)))
      /\ (~ (exists i j, match_at compare t p i j) ->
          r_begin found = r_end found
          /\ is_end_position (r_begin found) = true
          /\ get_position (r_begin found) = get_end (mk_itt pt t))
      /\ (p <> [] ->
          (is_end_position (r_begin found) = true
           <-> ~ (exists i j, match_at compare t p i j))))
  /\ implementation.find_forward_optimized char_equals
       (mk_itt 0 (lit "abcab")) (mk_itt 0 (lit "ca"))
     = mk_range (mk_itt 2 (lit "cab")) (mk_itt 4 (lit "b"))
  /\ implementation.find_forward_optimized char_equals
       (mk_itt 0 (lit "Hello World")) (mk_itt 0 (lit "o"))
     = mk_range (mk_itt 4 (lit "o World")) (mk_itt 5 (lit " World"))
  /\ implementation.find_forward_optimized char_equals
       (mk_itt 0 (lit "abcab")) (mk_itt 0 (lit "cb"))
     = mk_range (mk_itt 5 (lit "")) (mk_itt 5 (lit ""))
  /\ implementation.find_forward_optimized char_equals
       (mk_itt 0 (lit "ab")) (mk_itt 0 (lit "abc"))
     = mk_range (mk_itt 2 (lit "")) (mk_itt 2 (lit "")).
Proof.
  split; [|repeat split].
  intros A B compare pt pp t p found. unfold found. clear found.
  split; [|split; [|split]].
  - intros i j Hm Hleft. apply find_forward_optimized_found.
    apply match_at_leftmost. split; assumption.
  - intros H. apply match_at_occurs, first_match_occurs in H.
    destruct H as [k Hf]. exists k, (k + length p).
    assert (Hl : leftmost_match compare t p k (k + length p))
      by (apply first_match_leftmost; auto).
    rewrite (find_forward_optimized_found pt pp Hl).
    apply match_at_leftmost in Hl. destruct Hl as [Hm Hleft].
    split; [assumption|]. split; [assumption | reflexivity].
  - intros H. rewrite match_at_occurs in H.
    rewrite find_forward_optimized_not_found by assumption.
    repeat split.
  - intros Hp. rewrite match_at_occurs.
    apply find_forward_optimized_signal. assumption.
Qed.

(** The search finds "ca" in "abcab" at [[2, 4)]: the units at 2 and 3 are
    "c" and "a", and neither index 0 nor index 1 starts a match. *)
Lemma find_forward_optimized_correct_witness :
  implementation.find_forward_optimized char_equals
    (mk_itt 0 (lit "abcab")) (mk_itt 0 (lit "ca"))
  = mk_range (mk_itt (0 + 2) (skipn 2 (lit "abcab")))
             (mk_itt (0 + 4) (skipn 4 (lit "abcab"))).
Proof.
  apply (proj1 (proj1 find_forward_optimized_correct ascii ascii char_equals
                  0 0 (lit "abcab") (lit "ca")) 2 4).
  - unfold match_at, unitwise. simpl.
    split; [lia|]. split; [lia|]. repeat constructor.
  - intros i' j' H. apply match_at_iff in H. destruct H as (_ & _ & H).
    destruct i' as [|[|i']]; [discriminate H | discriminate H | lia].
Defined.

(* ------------------------------------------------------------------ *)
(** ** Operands in storage apart from the object written to *)

Section SharedFacts.
Context {A : Type}.
Variable compare : A -> A -> bool.

Lemma shared_append_apart (text us : list A) :
  shared.append text (shared.apart us) = shared.Done (text ++ us).
Proof. unfold shared.append. rewrite push_back_all_spec, map_id. reflexivity. Qed.

(** With operands in storage of their own the loop of the shared model
    is the loop of the model on values. *)
Lemma shared_replace_all_copy_forward_apart (p r : list A) (fuel : nat) :
  forall (result : list A) (itt_text : terminated_iterator A),
    shared.replace_all_copy_forward compare fuel result itt_text
      (shared.apart p) (shared.apart r)
    = match implementation.replace_all_copy_forward compare (fun c => c)
              fuel result itt_text (mk_itt 0 p) (mk_itt 0 r) with
      | Some result' => shared.Done result'
      | None => shared.Exhausted
      end.
Proof.
  induction fuel as [|fuel IH]; intros result itt_text; [reflexivity|].
  cbn [shared.replace_all_copy_forward implementation.replace_all_copy_forward].
  destruct (units itt_text) as [|a rest]; [reflexivity|].
  unfold shared.lockstep, make_const_terminated_iterator_forward.
  destruct (implementation.lockstep compare itt_text (mk_itt 0 p)) as [a' b'].
  cbn [shared.bind fst snd shared.append units].
  destruct (is_end_position b'); apply IH.
Qed.

Lemma shared_replace_all_in_place_apart (nul : A) (T P R : list A) :
  shared.replace_all_in_place compare nul T (shared.apart P) (shared.apart R)
  = match replace_all_in_place compare (fun c => c) nul T P R with
    | (T', Returned _) => shared.Done T'
    | (_, Thrown e) => shared.Throws e
    | (_, OutOfFuel) => shared.Exhausted
    end.
Proof.
  unfold shared.replace_all_in_place, replace_all_in_place,
    shared.operand_at_end.
  destruct (is_end_position (make_const_terminated_iterator_forward P));
    [reflexivity|].
  unfold shared.replace_all_in_place_forward,
    implementation.replace_all_in_place_forward, shared.units_now.
  destruct (negb (is_end_position
                    (r_begin (implementation.find_forward_optimized compare
                                (make_const_terminated_iterator_forward T)
                                (make_const_terminated_iterator_forward P)))));
    [|reflexivity].
  cbn [shared.append shared.bind]. unfold make_const_terminated_iterator_forward.
  rewrite shared_replace_all_copy_forward_apart. cbn [units].
  destruct (implementation.replace_all_copy_forward compare (fun c => c) _ _ _ _ _);
    reflexivity.
Qed.
End SharedFacts.

Lemma replaced_no_match_at {A B C : Type} (comparer : A -> B -> bool)
      (cast : C -> A) (T : list A) (P : list B) (R : list C) :
  P <> [] ->
  ~ (exists i j, match_at comparer T P i j) ->
  replaced comparer cast P R 0 T = T.
Proof.
  intros HP Hno. apply replaced_no_match; [assumption|].
  destruct (first_match comparer T P) as [k|] eqn:Hf; [|reflexivity].
  exfalso. apply Hno. apply match_at_occurs, first_match_occurs. eauto.
Qed.

(** C4, amended: for every string object [T], every pattern [P] that is
    not empty and every replacement [R] held in storage apart from [T]
    (operands of another unit type always are), and every comparer, after
    [replace_all_in_place] returns [T] holds exactly the string
    [replace_all_copy] returns for the original [T]; when no range of [T]
    matches [P], the in-place call leaves [T] unchanged.  "Hello World" with
    "o" replaced by "00" is "Hell00 W00rld" either way, and replacing "x"
    leaves "Hello World". *)
Theorem replace_all_in_place_equals_copy :
  (forall (A B C : Type) (comparer : A -> B -> bool) (cast : C -> A) (nul : A)
          (T : list A) (P : list B) (R : list C),
      P <> [] ->
      exists T',
        replace_all_copy comparer cast T P R = Returned T'
        /\ replace_all_in_place comparer cast nul T P R = (T', Returned tt)
        /\ (~ (exists i j, match_at comparer T P i j) -> T' = T))
  /\ (forall (A : Type) (comparer : A -> A -> bool) (nul : A) (T P R : list A),
         P <> [] ->
         exists T',
           replace_all_copy comparer (fun c => c) T P R = Returned T'
           /\ shared.replace_all_in_place comparer nul T
                (shared.apart P) (shared.apart R) = shared.Done T'
           /\ (~ (exists i j, match_at comparer T P i j) -> T' = T))
  /\ replace_all_copy char_equals (fun c => c)
       (lit "Hello World") (lit "o") (lit "00")
     = Returned (lit "Hell00 W00rld")
  /\ replace_all_in_place char_equals (fun c => c) zero
       (lit "Hello World") (lit "o") (lit "00")
     = (lit "Hell00 W00rld", Returned tt)
  /\ shared.replace_all_in_place char_equals zero (lit "Hello World")
       (shared.apart (lit "o")) (shared.apart (lit "00"))
     = shared.Done (lit "Hell00 W00rld")
  /\ shared.replace_all_in_place char_equals zero (lit "Hello World")
       (shared.apart (lit "x")) (shared.apart (lit "00"))
     = shared.Done (lit "Hello World").
Proof.
  split; [|split; [|repeat split]].
  - intros A B C comparer cast nul T P R HP.
    exists (replaced comparer cast P R 0 T).
    split; [apply replace_all_copy_spec; assumption|].
    split; [apply replace_all_in_place_spec; assumption|].
    apply replaced_no_match_at. assumption.
  - intros A comparer nul T P R HP.
    exists (replaced comparer (fun c => c) P R 0 T).
    split; [apply replace_all_copy_spec; assumption|].
    split; [|apply replaced_no_match_at; assumption].
    rewrite shared_replace_all_in_place_apart.
    rewrite replace_all_in_place_spec by assumption. reflexivity.
Qed.

Lemma replace_all_in_place_equals_copy_witness :
  exists T',
    replace_all_copy char_equals (fun c => c) (lit "a-b-c") (lit "-") (lit "+-+")
    = Returned T'
    /\ shared.replace_all_in_place char_equals zero (lit "a-b-c")
         (shared.apart (lit "-")) (shared.apart (lit "+-+")) = shared.Done T'
    /\ (~ (exists i j, match_at char_equals (lit "a-b-c") (lit "-") i j)
        -> T' = lit "a-b-c").
Proof.
  apply (proj1 (proj2 replace_all_in_place_equals_copy) ascii char_equals zero
           (lit "a-b-c") (lit "-") (lit "+-+")).
  discriminate.
Defined.

(** C4 as it is stated, for every replacement and every pattern, fails
    when an operand is the text object or a range over it: the operand is
    read from the object after [resize] and while it is appended to.  With
    the text "aba", the pattern "b" and the text object itself as the
    replacement the in-place call leaves "aaaaa" where [replace_all_copy]
    returns "aabaa"; with the text "abab", its first unit as the pattern and
    the replacement "X" it leaves "Xbab" where [replace_all_copy] returns
    "XbXb". *)
Lemma replace_all_in_place_operand_over_text :
  replace_all_copy char_equals (fun c => c) (lit "aba") (lit "b") (lit "aba")
  = Returned (lit "aabaa")
  /\ shared.replace_all_in_place char_equals zero (lit "aba")
       (shared.apart (lit "b")) (shared.over_text 0 3)
     = shared.Done (lit "aaaaa")
  /\ shared.units_now (lit "aba") (shared.over_text 0 3) = lit "aba"
  /\ replace_all_copy char_equals (fun c => c) (lit "abab") (lit "a") (lit "X")
     = Returned (lit "XbXb")
  /\ shared.replace_all_in_place char_equals zero (lit "abab")
       (shared.over_text 0 1) (shared.apart (lit "X"))
     = shared.Done (lit "Xbab")
  /\ shared.units_now (lit "abab") (shared.over_text 0 1) = lit "a".
Proof. repeat split. Qed.

Lemma unitwise_equals {A : Type} (A_eq_dec : forall x y : A, {x = y} + {x <> y})
      (l p : list A) :
  unitwise (equals_comparer A_eq_dec) l p <-> l = p.
Proof.
  split.
  - unfold unitwise. induction 1 as [|a b l p Hab F IH]; [reflexivity|].
    unfold equals_comparer in Hab. destruct (A_eq_dec a b); [|discriminate].
    subst. reflexivity.
  - intros ->. unfold unitwise. induction p as [|a p IH]; constructor; [|assumption].
    unfold equals_comparer. destruct (A_eq_dec a a); congruence.
Qed.

(** X1: [equals] is true exactly when the two strings have the same
    length and the comparer accepts every pair of units at the same index;
    under the default comparer, exactly when the strings are the same. *)
Theorem equals_correct :
  (forall (A B : Type) (comparer : A -> B -> bool) (a : list A) (b : list B),
      equals comparer a b = true <->
      length a = length b /\ unitwise comparer a b)
  /\ (forall (A : Type) (A_eq_dec : forall x y : A, {x = y} + {x <> y})
             (a b : list A),
         equals (equals_comparer A_eq_dec) a b = true <-> a = b).
Proof.
  split.
  - intros A B comparer a b. rewrite equals_unitwise. split; [|tauto].
    intros F. split; [apply (unitwise_length F) | assumption].
  - intros A A_eq_dec a b. rewrite equals_unitwise. apply unitwise_equals.
Qed.

(** X2: [starts_with] is true exactly when the text begins with units
    that the comparer accepts one by one with the prefix; under the default
    comparer, exactly when the text is the prefix followed by some rest.  An
    empty prefix is a prefix of every text. *)
Theorem starts_with_correct :
  (forall (A B : Type) (comparer : A -> B -> bool) (T : list A) (P : list B),
      starts_with comparer T P = true <->
      exists head rest, T = head ++ rest /\ unitwise comparer head P)
  /\ (forall (A : Type) (A_eq_dec : forall x y : A, {x = y} + {x <> y})
             (T P : list A),
         starts_with (equals_comparer A_eq_dec) T P = true <->
         exists rest, T = P ++ rest)
  /\ (forall (A B : Type) (comparer : A -> B -> bool) (T : list A),
         starts_with comparer T (@nil B) = true).
Proof.
  split; [|split].
  - intros. apply starts_with_unitwise.
  - intros A A_eq_dec T P. rewrite starts_with_unitwise. split.
    + intros (h & r & -> & F). apply unitwise_equals in F. subst. eauto.
    + intros (r & ->). exists P, r. split; [reflexivity|].
      apply unitwise_equals. reflexivity.
  - intros A B comparer T. apply starts_with_unitwise.
    exists [], T. split; [reflexivity | constructor].
Qed.

(** X3: [ends_with] is true exactly when the text ends with units that
    the comparer accepts one by one with the ending; under the default
    comparer, exactly when the text is some front followed by the ending.
    An empty ending ends every text. *)
Theorem ends_with_correct :
  (forall (A B : Type) (comparer : A -> B -> bool) (T : list A) (P : list B),
      ends_with comparer T P = true <->
      exists front back, T = front ++ back /\ unitwise comparer back P)
  /\ (forall (A : Type) (A_eq_dec : forall x y : A, {x = y} + {x <> y})
             (T P : list A),
         ends_with (equals_comparer A_eq_dec) T P = true <->
         exists front, T = front ++ P)
  /\ (forall (A B : Type) (comparer : A -> B -> bool) (T : list A),
         ends_with comparer T (@nil B) = true).
Proof.
  split; [|split].
  - intros. apply ends_with_unitwise.
  - intros A A_eq_dec T P. rewrite ends_with_unitwise. split.
    + intros (f & b & -> & F). apply unitwise_equals in F. subst. eauto.
    + intros (f & ->). exists f, P. split; [reflexivity|].
      apply unitwise_equals. reflexivity.
  - intros A B comparer T. apply ends_with_unitwise.
    exists T, []. split; [symmetry; apply app_nil_r | constructor].
Qed.

Section ContainsFacts.
Context {A B : Type}.
Variable comparer : A -> B -> bool.

Lemma occurs_unitwise (T : list A) (P : list B) :
  occurs comparer T P <->
  exists left middle right,
    T = left ++ middle ++ right /\ unitwise comparer middle P.
Proof.
  split.
  - intros (i & j & Hm). apply range_matches_iff in Hm.
    destruct Hm as (_ & _ & Hp). apply prefixb_unitwise in Hp.
    destruct Hp as (h & tl & E & F). exists (firstn i T), h, tl.
    split; [|assumption]. rewrite <- E. symmetry. apply firstn_skipn.
  - intros (l & m & r & -> & F). pose proof (unitwise_length F) as Hl.
    exists (length l), (length l + length P). apply range_matches_iff.
    split; [reflexivity|]. split; [rewrite !length_app; lia|].
    rewrite skipn_app, skipn_all, Nat.sub_diag. simpl.
    apply prefixb_unitwise. eauto.
Qed.
End ContainsFacts.

(** X4: a text that starts with, ends with or equals a string contains
    it, under the same comparer. *)
Theorem starts_ends_equals_contains
        (A B : Type) (comparer : A -> B -> bool) (T : list A) (P : list B) :
  starts_with comparer T P = true
  \/ ends_with comparer T P = true
  \/ equals comparer T P = true ->
  contains comparer T P = true.
Proof.
  intros H. apply contains_iff_occurs, occurs_unitwise.
  destruct H as [H | [H | H]].
  - apply starts_with_unitwise in H. destruct H as (h & r & -> & F).
    exists [], h, r. auto.
  - apply ends_with_unitwise in H. destruct H as (f & b & -> & F).
    exists f, b, []. rewrite app_nil_r. auto.
  - apply equals_unitwise in H. exists [], T, []. rewrite app_nil_r. auto.
Qed.

Lemma starts_ends_equals_contains_witness :
  contains char_equals (lit "Hello World") (lit "World") = true.
Proof.
  apply (@starts_ends_equals_contains ascii ascii char_equals
           (lit "Hello World") (lit "World")).
  right. left. reflexivity.
Defined.

(** X5: under the default comparer [contains] is true exactly when the
    text is some units, the contained string, and some more units. *)
Theorem contains_infix
        (A : Type) (A_eq_dec : forall x y : A, {x = y} + {x <> y})
        (T P : list A) :
  contains (equals_comparer A_eq_dec) T P = true <->
  exists left right, T = left ++ P ++ right.
Proof.
  rewrite contains_iff_occurs, occurs_unitwise. split.
  - intros (l & m & r & -> & F). apply unitwise_equals in F. subst. eauto.
  - intros (l & r & ->). exists l, P, r. split; [reflexivity|].
    apply unitwise_equals. reflexivity.
Qed.

(** X6: the two iterators [find_forward_optimized] returns stand inside
    the text, the begin not after the end, each still reading the rest of
    the text from its position; the range is never longer than the
    pattern. *)
Theorem find_forward_optimized_in_text
        (A B : Type) (compare : A -> B -> bool)
        (pt pp : nat) (t : list A) (p : list B) :
  let found :=
    implementation.find_forward_optimized compare (mk_itt pt t) (mk_itt pp p) in
  pt <= get_position (r_begin found)
  /\ get_position (r_begin found) <= get_position (r_end found)
  /\ get_position (r_end found) <= pt + length t
  /\ get_position (r_end found) - get_position (r_begin found) <= length p
  /\ units (r_begin found) = skipn (get_position (r_begin found) - pt) t
  /\ units (r_end found) = skipn (get_position (r_end found) - pt) t.
Proof.
  cbv zeta. rewrite find_forward_optimized_spec.
  destruct (first_match compare t p) as [k|] eqn:Hf; cbn [r_begin r_end get_position units].
  - destruct (first_match_Some _ _ _ Hf) as (_ & Hk & _).
    repeat split; try lia; f_equal; lia.
  - replace (pt + length t - pt) with (length t) by lia.
    rewrite skipn_all. repeat split; lia.
Qed.

(* ------------------------------------------------------------------ *)
(** ** Trim: what is cut off and what is left *)

Section TrimShape.
Context {A : Type}.
Variable is_something : A -> bool.

Lemma leading_firstn (us : list A) :
  forallb is_something (firstn (leading is_something us) us) = true.
Proof.
  induction us as [|a us IH]; simpl; [reflexivity|].
  destruct (is_something a) eqn:Ha; simpl; [rewrite Ha, IH|]; reflexivity.
Qed.

Lemma leading_head (us : list A) (a : A) (rest : list A) :
  skipn (leading is_something us) us = a :: rest -> is_something a = false.
Proof.
  intros H. pose proof (leading_le is_something us) as Hle.
  destruct (Nat.eq_dec (leading is_something us) (length us)) as [E|E].
  - rewrite E, skipn_all in H. discriminate.
  - destruct (leading_stops is_something us) as (a' & rest' & Hs & Ha); [lia|].
    congruence.
Qed.

Lemma leading_zero (us : list A) :
  (forall a rest, us = a :: rest -> is_something a = false) ->
  leading is_something us = 0.
Proof.
  destruct us as [|a us]; intros H; [reflexivity|].
  simpl. rewrite (H a us eq_refl). reflexivity.
Qed.

Lemma forallb_rev (l : list A) :
  forallb is_something (rev l) = forallb is_something l.
Proof.
  induction l as [|a l IH]; [reflexivity|].
  simpl. rewrite forallb_app, IH. simpl. rewrite andb_true_r. apply andb_comm.
Qed.

(** [trim_start_copy] cuts a run of predicate units off the front and
    stops at the first unit that is none. *)
Lemma trim_start_copy_shape (T : list A) :
  T = firstn (leading is_something T) T ++ trim_start_copy is_something T
  /\ forallb is_something (firstn (leading is_something T) T) = true
  /\ (forall a rest,
         trim_start_copy is_something T = a :: rest -> is_something a = false).
Proof.
  rewrite trim_start_copy_spec. split; [symmetry; apply firstn_skipn|].
  split; [apply leading_firstn | apply leading_head].
Qed.

(** [trim_end_copy] cuts a run of predicate units off the end. *)
Lemma trim_end_copy_shape (T : list A) :
  T = trim_end_copy is_something T
      ++ rev (firstn (leading is_something (rev T)) (rev T))
  /\ forallb is_something
       (rev (firstn (leading is_something (rev T)) (rev T))) = true
  /\ (forall front z,
         trim_end_copy is_something T = front ++ [z] -> is_something z = false).
Proof.
  rewrite trim_end_copy_spec.
  assert (Hkeep : firstn (length T - leading is_something (rev T)) T
                  = rev (skipn (leading is_something (rev T)) (rev T))).
  { rewrite skipn_rev, rev_involutive. reflexivity. }
  rewrite Hkeep. split.
  - rewrite <- rev_app_distr, firstn_skipn, rev_involutive. reflexivity.
  - split; [rewrite forallb_rev; apply leading_firstn|].
    intros front z H. apply (f_equal (@rev A)) in H.
    rewrite rev_involutive, rev_app_distr in H. simpl in H.
    apply leading_head in H. assumption.
Qed.

Lemma trim_copy_two_steps (T : list A) :
  trim_copy is_something T
  = trim_end_copy is_something (trim_start_copy is_something T).
Proof.
  rewrite trim_copy_spec, trim_start_copy_spec, trim_end_copy_spec.
  pose proof (leading_le is_something T) as Hle.
  destruct (Nat.eq_dec (leading is_something T) (length T)) as [E|E].
  - rewrite E, skipn_all, !firstn_nil. reflexivity.
  - destruct (leading_stops is_something T) as (a & rest & Hs & Ha); [lia|].
    rewrite length_skipn.
    assert (Hrev : leading is_something (rev T)
                   = leading is_something
                       (rev (skipn (leading is_something T) T))).
    { rewrite <- (firstn_skipn (leading is_something T) T) at 1.
      rewrite rev_app_distr.
      apply leading_app_stop with (a := a); [|assumption].
      apply in_rev. rewrite rev_involutive, Hs. left. reflexivity. }
    rewrite <- Hrev. f_equal. lia.
Qed.

Lemma trim_end_copy_head (T : list A) (a : A) (rest : list A) :
  trim_end_copy is_something T = a :: rest ->
  exists rest', T = a :: rest'.
Proof.
  rewrite trim_end_copy_spec. destruct T as [|x T']; intros H.
  - rewrite firstn_nil in H. discriminate.
  - destruct (length (x :: T') - leading is_something (rev (x :: T')));
      simpl in H; [discriminate|]. injection H as -> _. eauto.
Qed.
End TrimShape.

(** The result of [trim_copy] neither starts nor ends with a unit that
    satisfies the predicate. *)
Lemma trim_copy_ends (A : Type) (predicate : A -> bool) (T : list A) :
  (forall a rest, trim_copy predicate T = a :: rest -> predicate a = false)
  /\ (forall rest z, trim_copy predicate T = rest ++ [z] -> predicate z = false).
Proof.
  rewrite trim_copy_two_steps.
  destruct (@trim_start_copy_shape A predicate T) as (_ & _ & Hs3).
  destruct (@trim_end_copy_shape A predicate (trim_start_copy predicate T))
    as (_ & _ & He3).
  split; [|assumption].
  intros a rest H. apply trim_end_copy_head in H. destruct H as [rest' H].
  apply (Hs3 a rest'). assumption.
Qed.

(** X7: [trim_copy] returns the text without a run of predicate units at
    its front and one at its end: the text is the cut front, the result and
    the cut end; every cut unit satisfies the predicate; the result neither
    starts nor ends with a unit that satisfies it. *)
Theorem trim_copy_shape (A : Type) (predicate : A -> bool) (T : list A) :
  exists front back,
    T = front ++ trim_copy predicate T ++ back
    /\ forallb predicate front = true
    /\ forallb predicate back = true
    /\ (forall a rest, trim_copy predicate T = a :: rest -> predicate a = false)
    /\ (forall rest z, trim_copy predicate T = rest ++ [z] -> predicate z = false).
Proof.
  destruct (@trim_copy_ends A predicate T) as [Hh Hl].
  rewrite trim_copy_two_steps in *.
  destruct (@trim_start_copy_shape A predicate T) as (Hs1 & Hs2 & _).
  destruct (@trim_end_copy_shape A predicate (trim_start_copy predicate T))
    as (He1 & He2 & _).
  eexists. eexists. split.
  - rewrite Hs1 at 1. rewrite He1 at 1. reflexivity.
  - auto.
Qed.

(** X8: [trim_start_copy] only cuts predicate units off the front and
    leaves a text that does not start with one; [trim_end_copy] only cuts
    predicate units off the end and leaves a text that does not end with
    one. *)
Theorem trim_start_end_copy_shape (A : Type) (predicate : A -> bool) (T : list A) :
  (exists front,
      T = front ++ trim_start_copy predicate T
      /\ forallb predicate front = true
      /\ (forall a rest,
             trim_start_copy predicate T = a :: rest -> predicate a = false))
  /\ (exists back,
         T = trim_end_copy predicate T ++ back
         /\ forallb predicate back = true
         /\ (forall rest z,
                trim_end_copy predicate T = rest ++ [z] -> predicate z = false)).
Proof.
  split.
  - eexists. apply trim_start_copy_shape.
  - eexists. apply trim_end_copy_shape.
Qed.

Section TrimCompose.
Context {A : Type}.
Variable predicate : A -> bool.

Lemma trim_start_copy_fixed (T : list A) :
  (forall a rest, T = a :: rest -> predicate a = false) ->
  trim_start_copy predicate T = T.
Proof.
  intros H. rewrite trim_start_copy_spec, (@leading_zero A predicate T H).
  reflexivity.
Qed.

Lemma trim_end_copy_fixed (T : list A) :
  (forall rest z, T = rest ++ [z] -> predicate z = false) ->
  trim_end_copy predicate T = T.
Proof.
  intros H. rewrite trim_end_copy_spec, (@leading_zero A predicate (rev T)).
  - rewrite Nat.sub_0_r. apply firstn_all.
  - intros a rest E. apply (H (rev rest) a).
    apply (f_equal (@rev A)) in E. rewrite rev_involutive in E. exact E.
Qed.
End TrimCompose.

(** X9: trimming is idempotent: a trimmed text is returned as it is by
    the same trim function, for [trim_copy], [trim_start_copy] and
    [trim_end_copy]. *)
Theorem trim_copy_idempotent (A : Type) (predicate : A -> bool) (T : list A) :
  trim_copy predicate (trim_copy predicate T) = trim_copy predicate T
  /\ trim_start_copy predicate (trim_start_copy predicate T)
     = trim_start_copy predicate T
  /\ trim_end_copy predicate (trim_end_copy predicate T)
     = trim_end_copy predicate T.
Proof.
  destruct (@trim_copy_ends A predicate T) as [Hh Hl].
  destruct (@trim_start_copy_shape A predicate T) as (_ & _ & Hs).
  destruct (@trim_end_copy_shape A predicate T) as (_ & _ & He).
  split; [|split].
  - rewrite (@trim_copy_two_steps A predicate (trim_copy predicate T)).
    rewrite (@trim_start_copy_fixed A predicate _ Hh).
    apply trim_end_copy_fixed. assumption.
  - apply trim_start_copy_fixed. assumption.
  - apply trim_end_copy_fixed. assumption.
Qed.

(** X10: the order of trimming the two ends does not matter: trimming
    the end first and the start second gives what [trim_copy] gives. *)
Theorem trim_start_after_end (A : Type) (predicate : A -> bool) (T : list A) :
  trim_start_copy predicate (trim_end_copy predicate T) = trim_copy predicate T.
Proof.
  destruct (@trim_end_copy_shape A predicate T) as (He1 & He2 & He3).
  rewrite trim_copy_spec, trim_start_copy_spec.
  destruct (trim_end_copy predicate T) as [|x0 E0] eqn:E.
  - (* everything is cut off *)
    assert (Hall : leading predicate T = length T).
    { simpl in He1. rewrite <- He1 in He2.
      clear -He2. induction T as [|a T IH]; [reflexivity|].
      simpl in He2. apply andb_true_iff in He2. destruct He2 as [Ha He2].
      simpl. rewrite Ha, IH by assumption. reflexivity. }
    rewrite Hall, skipn_all, firstn_nil. reflexivity.
  - rewrite <- E in *.
    destruct (@exists_last A (trim_end_copy predicate T)) as (rest & z & Ez);
      [rewrite E; discriminate|].
    assert (Hlead : leading predicate T
                    = leading predicate (trim_end_copy predicate T)).
    { rewrite He1 at 1. apply leading_app_stop with (a := z).
      - rewrite Ez. apply in_or_app. right. left. reflexivity.
      - apply (He3 rest z Ez). }
    rewrite <- Hlead, trim_end_copy_spec. apply skipn_firstn_comm.
Qed.

(* ------------------------------------------------------------------ *)
(** ** Trim in place *)

Section StoreFacts.
Context {A : Type}.

Lemma length_store (i : nat) (v : A) (text : list A) :
  length (store i v text) = length text.
Proof.
  revert i. induction text as [|x text IH]; intros [|i]; simpl; auto.
Qed.

Lemma store_app_r (l m : list A) (i : nat) (v : A) :
  store (length l + i) v (l ++ m) = l ++ store i v m.
Proof.
  induction l as [|x l IH]; simpl; [reflexivity|].
  rewrite IH. reflexivity.
Qed.

Lemma nth_error_store_same (i : nat) (v : A) (text : list A) :
  i < length text -> nth_error (store i v text) i = Some v.
Proof.
  revert i. induction text as [|x text IH]; intros [|i] H; simpl in *;
    try lia; [reflexivity | apply IH; lia].
Qed.

Lemma nth_error_store_other (i j : nat) (v : A) (text : list A) :
  i <> j -> nth_error (store i v text) j = nth_error text j.
Proof.
  revert i j. induction text as [|x text IH]; intros [|i] [|j] H; simpl;
    try reflexivity; try lia. apply IH. lia.
Qed.

Lemma firstn_S_nth (l : list A) (k : nat) (v : A) :
  nth_error l k = Some v -> firstn (S k) l = firstn k l ++ [v].
Proof.
  revert k. induction l as [|x l IH]; intros [|k] H; simpl in *;
    try discriminate.
  - injection H as ->. reflexivity.
  - rewrite (IH k H). reflexivity.
Qed.

Lemma skipn_nth (l : list A) (k : nat) (v : A) :
  nth_error l k = Some v -> skipn k l = v :: skipn (S k) l.
Proof.
  revert k. induction l as [|x l IH]; intros [|k] H; simpl in *;
    try discriminate.
  - injection H as ->. reflexivity.
  - apply IH. assumption.
Qed.

(** The copy loop moves [n] units from index [b] to the front; the units
    behind them stay. *)
Lemma copy_to_front_spec (T : list A) (b n : nat) :
  forall k,
    b + k + n <= length T ->
    implementation_2.copy_to_front n (b + k) k
      (firstn k (skipn b T) ++ skipn k T)
    = firstn (k + n) (skipn b T) ++ skipn (k + n) T.
Proof.
  induction n as [|n IH]; intros k Hlen.
  - rewrite Nat.add_0_r. reflexivity.
  - assert (Hk : length (firstn k (skipn b T)) = k).
    { rewrite length_firstn, length_skipn. lia. }
    destruct (nth_error T (b + k)) as [v|] eqn:Hv.
    2:{ apply nth_error_None in Hv. lia. }
    assert (Hy : exists y, nth_error T k = Some y).
    { destruct (nth_error T k) eqn:Hy; [eauto|].
      apply nth_error_None in Hy. lia. }
    destruct Hy as [y Hy].
    cbn [implementation_2.copy_to_front].
    rewrite nth_error_app2 by lia. rewrite Hk.
    replace (b + k - k) with b by lia.
    rewrite nth_error_skipn, (Nat.add_comm k b), Hv.
    assert (Hst : forall w,
               store k w (firstn k (skipn b T) ++ skipn k T)
               = firstn k (skipn b T) ++ store 0 w (skipn k T)).
    { intros w.
      pose proof (store_app_r (firstn k (skipn b T)) (skipn k T) 0 w) as H.
      rewrite Hk, Nat.add_0_r in H. exact H. }
    rewrite Hst, (skipn_nth _ _ Hy). cbn [store].
    replace (S (b + k)) with (b + S k) by lia.
    replace (firstn k (skipn b T) ++ v :: skipn (S k) T)
      with (firstn (S k) (skipn b T) ++ skipn (S k) T).
    + rewrite IH by lia. replace (S k + n) with (k + S n) by lia. reflexivity.
    + rewrite (@firstn_S_nth (skipn b T) k v), <- app_assoc; [reflexivity|].
      rewrite nth_error_skipn. assumption.
Qed.
End StoreFacts.

Section TrimInPlaceFacts.
Context {A : Type}.
Variable is_something : A -> bool.

Lemma trim_iterator_choice (enable : bool) (us : list A) :
  exists n,
    n <= length us
    /\ (if enable
        then implementation.trim_iterator is_something (mk_itt 0 us)
        else mk_itt 0 us) = mk_itt n (skipn n us).
Proof.
  destruct enable.
  - exists (leading is_something us). split; [apply leading_le|].
    unfold implementation.trim_iterator. cbn [get_position units].
    rewrite trim_loop_spec. reflexivity.
  - exists 0. split; [lia | reflexivity].
Qed.

(** The in-place trim of a string object leaves what the copying trim
    returns, whichever ends are trimmed. *)
Lemma trim_in_place_spec (nul : A) (T : list A) (ts te : bool) :
  implementation_2.trim_in_place is_something nul T ts te
  = implementation.trim_copy is_something T ts te.
Proof.
  unfold implementation_2.trim_in_place, implementation.trim_copy,
    make_const_terminated_iterator_forward, make_const_terminated_iterator_reverse.
  destruct (trim_iterator_choice ts T) as (s & Hs & ->).
  destruct (trim_iterator_choice te (rev T)) as (e & He & ->).
  rewrite length_rev in He.
  rewrite is_end_position_skipn by assumption.
  unfold text_of_positions, base, get_end. cbn [get_position units].
  destruct (Nat.eqb_spec s (length T)) as [Es|Es]; cbn [negb].
  - rewrite Es, skipn_all, firstn_nil. reflexivity.
  - set (n := length T - e - s).
    destruct (Nat.eqb_spec s (length T - e)) as [Ee|Ee]; cbn [negb].
    + unfold n. rewrite <- Ee, Nat.sub_diag. reflexivity.
    + destruct (Nat.eqb_spec s 0) as [E0|E0]; cbn [negb fst snd].
      * subst s. unfold n. rewrite Nat.sub_0_r. cbn [skipn].
        destruct (Nat.eqb_spec (length T - e) (length T)) as [El|El]; cbn [negb].
        -- rewrite El. symmetry. apply firstn_all.
        -- unfold resize. replace (length T - e - length T) with 0 by lia.
           cbn [repeat]. apply app_nil_r.
      * pose proof (@copy_to_front_spec A T s n 0) as Hc.
        cbn [firstn skipn app] in Hc. rewrite Nat.add_0_r in Hc.
        rewrite Hc by (unfold n; lia). cbn [Nat.add].
        assert (Hn : length (firstn n (skipn s T)) = n).
        { rewrite length_firstn, length_skipn. unfold n. lia. }
        unfold resize. rewrite length_app, Hn.
        replace (n - (n + length (skipn n T))) with 0 by lia.
        cbn [repeat]. rewrite app_nil_r.
        rewrite firstn_app, Hn, Nat.sub_diag. cbn [firstn].
        rewrite app_nil_r. apply firstn_all2. lia.
Qed.
End TrimInPlaceFacts.

(** X11: trimming a string object in place leaves in it exactly the
    string the copying trim returns, for [trim_in_place],
    [trim_start_in_place] and [trim_end_in_place] and every predicate. *)
Theorem trim_in_place_equals_copy
        (A : Type) (predicate : A -> bool) (nul : A) (T : list A) :
  trim_in_place predicate nul T = trim_copy predicate T
  /\ trim_start_in_place predicate nul T = trim_start_copy predicate T
  /\ trim_end_in_place predicate nul T = trim_end_copy predicate T.
Proof.
  unfold trim_in_place, trim_start_in_place, trim_end_in_place,
    trim_copy, trim_start_copy, trim_end_copy.
  rewrite !trim_in_place_spec. auto.
Qed.

Section TrimRangeFacts.
Context {A : Type}.
Variable is_something : A -> bool.

Lemma leading_app_le (l m : list A) (a : A) :
  is_something a = false ->
  leading is_something (l ++ a :: m) <= length l.
Proof.
  intros Ha. induction l as [|x l IH]; simpl.
  - rewrite Ha. lia.
  - destruct (is_something x); lia.
Qed.

(** Unless every unit satisfies the predicate, the runs at the two ends
    do not overlap. *)
Lemma leading_both_ends (us : list A) :
  leading is_something us < length us ->
  leading is_something us + leading is_something (rev us) < length us.
Proof.
  intros H. destruct (@leading_stops A is_something us H) as (a & rest & Hs & Ha).
  rewrite <- (firstn_skipn (leading is_something us) us) at 2.
  rewrite Hs, rev_app_distr. simpl. rewrite <- app_assoc. simpl.
  pose proof (@leading_app_le (rev rest)
                (rev (firstn (leading is_something us) us)) a Ha) as Hle.
  rewrite length_rev in Hle.
  apply (f_equal (@length A)) in Hs. rewrite length_skipn in Hs. simpl in Hs.
  lia.
Qed.

Lemma trim_iterator_choice_at (enable : bool) (pos : nat) (us : list A) :
  exists n,
    n <= length us
    /\ (enable = true -> n = leading is_something us)
    /\ (enable = false -> n = 0)
    /\ (if enable
        then implementation.trim_iterator is_something (mk_itt pos us)
        else mk_itt pos us) = mk_itt (pos + n) (skipn n us).
Proof.
  destruct enable.
  - exists (leading is_something us). split; [apply leading_le|].
    split; [reflexivity|]. split; [discriminate|].
    unfold implementation.trim_iterator. cbn [get_position units].
    apply trim_loop_spec.
  - exists 0. split; [lia|]. split; [discriminate|]. split; [reflexivity|].
    rewrite Nat.add_0_r. reflexivity.
Qed.
End TrimRangeFacts.

(** X12: trimming a range object only moves its two positions: the new
    range lies inside the old one, and the units it views are the string
    the copying trim returns for the units the old range viewed. *)
Theorem trim_in_place_range_correct
        (A : Type) (predicate : A -> bool) (T : list A) (r : range nat)
        (ts te : bool) :
  r_begin r <= r_end r ->
  r_end r <= length T ->
  let r' := implementation_2.trim_in_place_range predicate T r ts te in
  r_begin r <= r_begin r'
  /\ r_begin r' <= r_end r'
  /\ r_end r' <= r_end r
  /\ text_of_positions T (r_begin r') (r_end r')
     = implementation.trim_copy predicate
         (text_of_positions T (r_begin r) (r_end r)) ts te.
Proof.
  destruct r as [rb re]. cbn [r_begin r_end]. intros Hbe Hel.
  unfold implementation_2.trim_in_place_range, implementation_2.trim_copy_range,
    implementation.trim_copy, make_const_terminated_iterator_forward,
    make_const_terminated_iterator_reverse.
  cbn [r_begin r_end].
  set (U := text_of_positions T rb re).
  assert (HU : length U = re - rb).
  { unfold U, text_of_positions. rewrite length_firstn, length_skipn. lia. }
  destruct (trim_iterator_choice_at predicate ts rb U) as (s & Hs & Hs1 & Hs0 & Es).
  destruct (trim_iterator_choice_at predicate ts 0 U) as (s' & _ & Hs1' & Hs0' & Es').
  assert (s' = s) by (destruct ts; [rewrite Hs1, Hs1' | rewrite Hs0, Hs0']; reflexivity).
  subst s'. rewrite Es, Es'. clear Es Es'.
  destruct (trim_iterator_choice_at predicate te 0 (rev U)) as (e & He & He1 & He0 & Ee).
  rewrite Ee. clear Ee. rewrite length_rev in He.
  rewrite !is_end_position_skipn by assumption.
  unfold base, get_end. cbn [get_position units Nat.add].
  destruct (Nat.eqb_spec s (length U)) as [E|E]; cbn [negb r_begin r_end].
  - rewrite E, skipn_all. cbn [length]. unfold text_of_positions.
    rewrite !Nat.add_0_r, !Nat.sub_diag. cbn [firstn].
    repeat split; lia.
  - assert (Hse : s + e <= length U).
    { destruct ts.
      - specialize (Hs1 eq_refl). subst s. destruct te.
        + specialize (He1 eq_refl). subst e.
          assert (leading predicate U < length U) as Hlt by lia.
          pose proof (@leading_both_ends A predicate U Hlt). lia.
        + specialize (He0 eq_refl). lia.
      - specialize (Hs0 eq_refl). lia. }
    repeat split; try lia.
    unfold text_of_positions at 1 2.
    fold (text_of_positions T rb re). fold U.
    rewrite HU. unfold U, text_of_positions.
    rewrite skipn_firstn_comm, skipn_skipn, firstn_firstn.
    replace (s + rb) with (rb + s) by lia.
    f_equal. lia.
Qed.

Lemma trim_in_place_range_correct_witness :
  let r' := implementation_2.trim_in_place_range
              (fun c => Ascii.eqb c " ") (lit "a  b c  d") (mk_range 1 7)
              true true in
  1 <= r_begin r'
  /\ r_begin r' <= r_end r'
  /\ r_end r' <= 7
  /\ text_of_positions (lit "a  b c  d") (r_begin r') (r_end r')
     = implementation.trim_copy (fun c => Ascii.eqb c " ")
         (text_of_positions (lit "a  b c  d") 1 7) true true.
Proof.
  apply (@trim_in_place_range_correct ascii (fun c => Ascii.eqb c " ")
           (lit "a  b c  d") (mk_range 1 7) true true); simpl; lia.
Defined.

(* ------------------------------------------------------------------ *)
(** ** Character conversion *)

Section ConvertFacts.
Context {A : Type}.

Lemma convert_copy_loop_spec (converter : A -> A) (us : list A) :
  forall result,
    implementation_2.convert_copy_loop converter result us
    = result ++ map converter us.
Proof.
  induction us as [|u us IH]; intros result; simpl.
  - rewrite app_nil_r. reflexivity.
  - rewrite IH, <- app_assoc. reflexivity.
Qed.

Lemma convert_copy_text_loop_spec (converter : A -> list A) (us : list A) :
  forall result,
    implementation_2.convert_copy_text_loop converter result us
    = result ++ concat (map converter us).
Proof.
  induction us as [|u us IH]; intros result; simpl.
  - rewrite app_nil_r. reflexivity.
  - rewrite IH, push_back_all_spec, map_id, <- app_assoc. reflexivity.
Qed.

(** After the units before [pos] were converted in place, the loop
    converts the rest. *)
Lemma convert_in_place_loop_spec (converter : A -> A) (T : list A) (n : nat) :
  forall pos,
    pos + n = length T ->
    implementation_2.convert_in_place_loop converter n pos
      (map converter (firstn pos T) ++ skipn pos T)
    = map converter T.
Proof.
  induction n as [|n IH]; intros pos Hlen.
  - rewrite Nat.add_0_r in Hlen. subst pos.
    rewrite firstn_all, skipn_all, app_nil_r. reflexivity.
  - assert (Hp : length (map converter (firstn pos T)) = pos).
    { rewrite length_map, length_firstn. lia. }
    destruct (nth_error T pos) as [u|] eqn:Hu.
    2:{ apply nth_error_None in Hu. lia. }
    cbn [implementation_2.convert_in_place_loop].
    rewrite nth_error_app2 by lia. rewrite Hp, Nat.sub_diag.
    rewrite nth_error_skipn, Nat.add_0_r, Hu.
    pose proof (store_app_r (map converter (firstn pos T)) (skipn pos T)
                  0 (converter u)) as Hst.
    rewrite Hp, Nat.add_0_r in Hst. rewrite Hst, (skipn_nth _ _ Hu).
    cbn [store].
    replace (map converter (firstn pos T) ++ converter u :: skipn (S pos) T)
      with (map converter (firstn (S pos) T) ++ skipn (S pos) T).
    + apply IH. lia.
    + rewrite (firstn_S_nth _ _ Hu), map_app, <- app_assoc. reflexivity.
Qed.
End ConvertFacts.

(** X13: with a converter that returns one code unit,
    [character_convert_in_place] leaves in the string what
    [character_convert_copy] returns: every unit replaced by its image, in
    place and in order, so the length is kept. *)
Theorem character_convert_unitwise
        (A : Type) (char_converter : A -> A) (T : list A) :
  character_convert_copy char_converter T = map char_converter T
  /\ character_convert_in_place char_converter T = map char_converter T
  /\ length (character_convert_in_place char_converter T) = length T.
Proof.
  assert (Hin : character_convert_in_place char_converter T
                = map char_converter T).
  { unfold character_convert_in_place,
      implementation_2.character_convert_in_place,
      make_terminated_iterator_forward. cbn [get_position units].
    apply (@convert_in_place_loop_spec A char_converter T (length T) 0).
    reflexivity. }
  split; [|split].
  - unfold character_convert_copy, implementation_2.character_convert_copy,
      make_const_terminated_iterator_forward. cbn [units].
    rewrite convert_copy_loop_spec. reflexivity.
  - assumption.
  - rewrite Hin. apply length_map.
Qed.

(** X14: with a converter that returns a string for each code unit,
    [character_convert_copy] returns the images one after the other, in the
    order of the units; a converter whose images hold one unit each gives
    what the one-unit conversion gives. *)
Theorem character_convert_copy_expanding
        (A : Type) (converter : A -> list A) (T : list A) :
  implementation_2.character_convert_copy_text converter T
  = concat (map converter T)
  /\ (forall char_converter : A -> A,
         (forall u, converter u = [char_converter u]) ->
         implementation_2.character_convert_copy_text converter T
         = character_convert_copy char_converter T).
Proof.
  assert (H : implementation_2.character_convert_copy_text converter T
              = concat (map converter T)).
  { unfold implementation_2.character_convert_copy_text,
      make_const_terminated_iterator_forward. cbn [units].
    rewrite convert_copy_text_loop_spec. reflexivity. }
  split; [assumption|].
  intros f Hf. rewrite H. clear H.
  unfold character_convert_copy, implementation_2.character_convert_copy,
    make_const_terminated_iterator_forward. cbn [units].
  rewrite convert_copy_loop_spec. cbn [app].
  induction T as [|u T IH]; [reflexivity|].
  simpl. rewrite Hf, IH. reflexivity.
Qed.

Lemma character_convert_copy_expanding_witness :
  implementation_2.character_convert_copy_text (fun c : ascii => [c]) (lit "abc")
  = character_convert_copy (fun c : ascii => c) (lit "abc").
Proof.
  apply (proj2 (@character_convert_copy_expanding ascii (fun c => [c]) (lit "abc"))).
  reflexivity.
Defined.


(* ------------------------------------------------------------------ *)
(** ** Character-mode split *)

Lemma tl_skipn {X : Type} (k : nat) (l : list X) :
  tl (skipn k l) = skipn (S k) l.
Proof.
  revert l. induction k as [|k IH]; intros [|x l]; try reflexivity.
  simpl skipn at 1. rewrite IH. reflexivity.
Qed.

Section CharSplitFacts.
Context {A : Type}.
Variable is_separator : A -> bool.
Variable T : list A.

(** Number of units from the front of [us] up to its first separator. *)
Let run (us : list A) : nat := leading (char_mode.no_separator is_separator) us.

Lemma find_separator_spec (us : list A) : forall pos,
  char_mode.find_separator is_separator pos us
  = mk_itt (pos + run us) (skipn (run us) us).
Proof.
  unfold run, char_mode.no_separator.
  induction us as [|u us IH]; intros pos; simpl.
  - rewrite Nat.add_0_r. reflexivity.
  - destruct (is_separator u); simpl.
    + rewrite Nat.add_0_r. reflexivity.
    + rewrite IH, Nat.add_succ_r. reflexivity.
Qed.

Lemma run_le (us : list A) : run us <= length us.
Proof. apply leading_le. Qed.

Lemma run_separator (us : list A) :
  run us < length us ->
  exists c rest, skipn (run us) us = c :: rest /\ is_separator c = true.
Proof.
  intros H. destruct (@leading_stops A _ us H) as (c & rest & Hs & Hc).
  exists c, rest. split; [assumption|].
  unfold char_mode.no_separator in Hc. apply negb_false_iff in Hc. assumption.
Qed.

Lemma char_advance_loop_unfold (fuel : nat) (it : char_mode.split_iterator A) :
  char_mode.advance_loop is_separator (S fuel) it =
  if char_mode.is_end it then Some it
  else if split_mode_eqb (char_mode.used_mode it) skip_empty
          && itt_eqb (char_mode.current_separator
                        (char_mode.advance_step is_separator it))
                     (char_mode.itt_text
                        (char_mode.advance_step is_separator it))
       then char_mode.advance_loop is_separator fuel
              (char_mode.advance_step is_separator it)
       else Some (char_mode.advance_step is_separator it).
Proof. reflexivity. Qed.

Lemma char_split_loop_unfold (fuel : nat) (container : list (list A))
      (it : char_mode.split_iterator A) :
  char_mode.split_loop is_separator (S fuel) T container it =
  if char_mode.is_end it then Some container
  else match char_mode.advance is_separator it with
       | Some it' =>
           char_mode.split_loop is_separator fuel T
             (container ++ [char_mode.yielded T it]) it'
       | None => None
       end.
Proof. reflexivity. Qed.

Lemma char_advance_step_initial (mode : split_mode) :
  char_mode.advance_step is_separator
    (char_mode.mk_split_iterator (mk_itt 0 T) (mk_itt 0 T) (mk_range 0 0)
       mode true false)
  = char_mode.char_state is_separator T mode 0 (is_end_position (mk_itt 0 T)).
Proof.
  unfold char_mode.advance_step. cbn [char_mode.current_separator char_mode.is_start
    char_mode.used_mode negb]. rewrite andb_false_r. reflexivity.
Qed.

Lemma char_state_separator (mode : split_mode) (pos : nat) (e : bool) :
  char_mode.current_separator (char_mode.char_state is_separator T mode pos e)
  = mk_itt (pos + run (skipn pos T)) (skipn (run (skipn pos T)) (skipn pos T)).
Proof. unfold char_mode.char_state. cbn. apply find_separator_spec. Qed.

Lemma char_advance_step_last (mode : split_mode) (pos : nat) (e : bool) :
  pos <= length T ->
  run (skipn pos T) = length (skipn pos T) ->
  char_mode.advance_step is_separator
    (char_mode.char_state is_separator T mode pos e)
  = char_mode.char_state is_separator T mode (length T) true.
Proof.
  intros Hpos Hrun. unfold char_mode.advance_step.
  rewrite char_state_separator, Hrun, skipn_all.
  change (is_end_position (mk_itt (pos + length (skipn pos T)) (@nil A))) with true.
  cbn [negb andb get_position units]. rewrite length_skipn.
  replace (pos + (length T - pos)) with (length T) by lia.
  unfold char_mode.char_state. rewrite skipn_all. reflexivity.
Qed.

Lemma char_advance_step_next (mode : split_mode) (pos : nat) (e : bool) :
  run (skipn pos T) < length (skipn pos T) ->
  char_mode.advance_step is_separator
    (char_mode.char_state is_separator T mode pos e)
  = char_mode.char_state is_separator T mode (pos + run (skipn pos T) + 1) false.
Proof.
  intros Hrun. unfold char_mode.advance_step.
  rewrite char_state_separator.
  rewrite is_end_position_skipn by lia.
  replace (run (skipn pos T) =? length (skipn pos T)) with false
    by (symmetry; apply Nat.eqb_neq; lia).
  change (char_mode.is_start (char_mode.char_state is_separator T mode pos e))
    with false.
  change (char_mode.used_mode (char_mode.char_state is_separator T mode pos e))
    with mode.
  cbn [negb andb]. unfold incr. cbn [get_position units].
  rewrite tl_skipn, skipn_skipn.
  replace (S (run (skipn pos T)) + pos) with (pos + run (skipn pos T) + 1) by lia.
  replace (S (pos + run (skipn pos T))) with (pos + run (skipn pos T) + 1) by lia.
  reflexivity.
Qed.

Lemma char_yielded (mode : split_mode) (pos : nat) (e : bool) :
  char_mode.yielded T (char_mode.char_state is_separator T mode pos e)
  = firstn (run (skipn pos T)) (skipn pos T).
Proof.
  unfold char_mode.yielded, char_mode.char_state. cbn [char_mode.current_range r_begin r_end].
  rewrite find_separator_spec. cbn [get_position].
  unfold text_of_positions. f_equal. lia.
Qed.

(** The sections of a text: its first section, and the sections of what
    follows the first separator. *)
Lemma char_sections_run (us : list A) :
  char_mode.char_sections is_separator us
  = if run us =? length us then [us]
    else firstn (run us) us
         :: char_mode.char_sections is_separator (skipn (S (run us)) us).
Proof.
  unfold run, char_mode.no_separator.
  induction us as [|a us IH]; [reflexivity|].
  cbn [char_mode.char_sections leading]. destruct (is_separator a); cbn [negb].
  - reflexivity.
  - rewrite IH. cbn [length Nat.eqb].
    destruct (leading (fun u => negb (is_separator u)) us =? length us);
      reflexivity.
Qed.
End CharSplitFacts.

Section CharSplitAll.
Context {A : Type}.
Variable is_separator : A -> bool.
Variable T : list A.

Local Abbreviation run us := (leading (char_mode.no_separator is_separator) us).

Lemma char_advance_all (pos : nat) :
  char_mode.advance is_separator (char_mode.char_state is_separator T all pos false)
  = Some (char_mode.advance_step is_separator
            (char_mode.char_state is_separator T all pos false)).
Proof. reflexivity. Qed.

Lemma char_split_loop_at_end (fuel : nat) (container : list (list A))
      (it : char_mode.split_iterator A) :
  char_mode.is_end it = true ->
  char_mode.split_loop is_separator (S fuel) T container it = Some container.
Proof. intros H. rewrite char_split_loop_unfold, H. reflexivity. Qed.

Lemma char_advance_loop_at_end (fuel : nat) (it : char_mode.split_iterator A) :
  char_mode.is_end it = true ->
  char_mode.advance_loop is_separator (S fuel) it = Some it.
Proof. intros H. rewrite char_advance_loop_unfold, H. reflexivity. Qed.

(** The loop of [split] in mode [all], from the state at [pos]. *)
Lemma char_split_loop_all (n : nat) :
  forall (pos fuel : nat) (container : list (list A)),
    length (skipn pos T) <= n ->
    pos <= length T ->
    n + 2 <= fuel ->
    char_mode.split_loop is_separator fuel T container
      (char_mode.char_state is_separator T all pos false)
    = Some (container ++ char_mode.char_sections is_separator (skipn pos T)).
Proof.
  induction n as [|n IH]; intros pos fuel container Hlen Hpos Hfuel;
    (destruct fuel as [|[|fuel]]; [lia | lia |]);
    rewrite char_split_loop_unfold;
    change (char_mode.is_end (char_mode.char_state is_separator T all pos false))
      with false; cbv iota;
    rewrite char_advance_all, char_yielded, char_sections_run;
    pose proof (leading_le (char_mode.no_separator is_separator) (skipn pos T)) as Hrun;
    destruct (Nat.eqb_spec (run (skipn pos T)) (length (skipn pos T))) as [E|E].
  - rewrite char_advance_step_last by assumption.
    rewrite char_split_loop_at_end by reflexivity.
    rewrite E, firstn_all. reflexivity.
  - lia.
  - rewrite char_advance_step_last by assumption.
    rewrite char_split_loop_at_end by reflexivity.
    rewrite E, firstn_all. reflexivity.
  - rewrite char_advance_step_next by lia.
    rewrite length_skipn in *.
    rewrite IH; try lia.
    + rewrite skipn_skipn, <- app_assoc.
      replace (S (run (skipn pos T)) + pos)
        with (pos + run (skipn pos T) + 1) by lia.
      reflexivity.
    + rewrite length_skipn. lia.
Qed.

Lemma char_split_all (container : list (list A)) :
  char_mode.split is_separator container T all true
  = (char_mode.char_sections is_separator T, Returned tt).
Proof.
  unfold char_mode.split, char_mode.split_iterator_new,
    make_terminated_iterator_forward.
  destruct T as [|a T'] eqn:ET.
  - reflexivity.
  - rewrite <- ET.
    assert (Hend : is_end_position (mk_itt 0 T) = false)
      by (rewrite ET; reflexivity).
    rewrite Hend. cbn [negb orb].
    unfold char_mode.advance at 1. cbn [char_mode.current_separator units Nat.add].
    rewrite char_advance_loop_unfold. cbn [char_mode.is_end char_mode.used_mode
      split_mode_eqb andb].
    rewrite char_advance_step_initial, Hend.
    rewrite (@char_split_loop_all (length T) 0); try lia.
    + reflexivity.
    + cbn [skipn]. lia.
Qed.
End CharSplitAll.

Section CharSectionsFacts.
Context {A : Type}.
Variable is_separator : A -> bool.

Lemma char_sections_cons (t : list A) :
  exists s ss, char_mode.char_sections is_separator t = s :: ss.
Proof.
  destruct t as [|a t]; simpl; [eauto|].
  destruct (is_separator a); [eauto|].
  destruct (char_mode.char_sections is_separator t); eauto.
Qed.

Lemma char_sections_length (t : list A) :
  length (char_mode.char_sections is_separator t)
  = S (length (filter is_separator t)).
Proof.
  induction t as [|a t IH]; [reflexivity|].
  simpl. destruct (is_separator a); simpl; [rewrite IH; reflexivity|].
  destruct (char_sections_cons t) as (s & ss & E). rewrite E in *. exact IH.
Qed.

Lemma char_sections_weave (t : list A) :
  weave (char_mode.char_sections is_separator t) (filter is_separator t) = t.
Proof.
  induction t as [|a t IH]; [reflexivity|].
  simpl. destruct (is_separator a); simpl; [rewrite IH; reflexivity|].
  destruct (char_sections_cons t) as (s & ss & E). rewrite E in *.
  destruct (filter is_separator t); simpl in *; rewrite IH; reflexivity.
Qed.

Lemma char_sections_no_separator (t : list A) :
  Forall (fun s => forallb (char_mode.no_separator is_separator) s = true)
         (char_mode.char_sections is_separator t).
Proof.
  induction t as [|a t IH]; [repeat constructor|].
  simpl. destruct (is_separator a) eqn:Ha; [constructor; [reflexivity | assumption]|].
  destruct (char_sections_cons t) as (s & ss & E). rewrite E in *.
  inversion IH as [|x l Hs Hss]; subst. constructor; [|assumption].
  simpl. unfold char_mode.no_separator at 1. rewrite Ha, Hs. reflexivity.
Qed.
End CharSectionsFacts.

(** X15: [split] in mode [all] cuts the text at every separator unit and
    nowhere else: there is one section more than there are separator units,
    no section holds a separator unit, and the sections with the separator
    units put back between them, in order, are the text. *)
Theorem split_sections
        (A : Type) (is_separator : A -> bool)
        (container : list (list A)) (T : list A) :
  exists sections,
    char_mode.split is_separator container T all true = (sections, Returned tt)
    /\ length sections = S (length (filter is_separator T))
    /\ weave sections (filter is_separator T) = T
    /\ Forall (fun s => forallb (char_mode.no_separator is_separator) s = true)
              sections.
Proof.
  exists (char_mode.char_sections is_separator T).
  split; [apply char_split_all|].
  split; [apply char_sections_length|].
  split; [apply char_sections_weave | apply char_sections_no_separator].
Qed.

Section CharSplitSkip.
Context {A : Type}.
Variable is_separator : A -> bool.
Variable T : list A.

Local Abbreviation run us := (leading (char_mode.no_separator is_separator) us).

Lemma char_state_empty_test (mode : split_mode) (pos : nat) (e : bool) :
  itt_eqb (char_mode.current_separator
             (char_mode.char_state is_separator T mode pos e))
          (char_mode.itt_text (char_mode.char_state is_separator T mode pos e))
  = negb (nonempty (char_mode.yielded T
                      (char_mode.char_state is_separator T mode pos e))).
Proof.
  rewrite char_yielded, char_state_separator. unfold itt_eqb.
  change (char_mode.itt_text (char_mode.char_state is_separator T mode pos e))
    with (mk_itt pos (skipn pos T)).
  cbn [get_position].
  pose proof (leading_le (char_mode.no_separator is_separator) (skipn pos T)) as Hle.
  destruct (run (skipn pos T)) as [|k] eqn:Ek.
  - rewrite Nat.add_0_r, Nat.eqb_refl. reflexivity.
  - replace (pos + S k =? pos) with false by (symmetry; apply Nat.eqb_neq; lia).
    destruct (skipn pos T); [simpl in Hle; lia | reflexivity].
Qed.

Lemma char_sections_hd (mode : split_mode) (pos : nat) (e : bool) :
  char_mode.char_sections is_separator (skipn pos T)
  = char_mode.yielded T (char_mode.char_state is_separator T mode pos e)
    :: tl (char_mode.char_sections is_separator (skipn pos T)).
Proof.
  rewrite char_yielded, char_sections_run.
  destruct (Nat.eqb_spec (run (skipn pos T)) (length (skipn pos T))) as [E|E].
  - rewrite E, firstn_all. reflexivity.
  - reflexivity.
Qed.

Lemma run_at_end : run (skipn (length T) T) = length (skipn (length T) T).
Proof. rewrite skipn_all. reflexivity. Qed.

Lemma char_skip_advance_last (pos fuel : nat) :
  pos <= length T ->
  run (skipn pos T) = length (skipn pos T) ->
  2 <= fuel ->
  char_mode.advance_loop is_separator fuel
    (char_mode.char_state is_separator T skip_empty pos false)
  = Some (char_mode.char_state is_separator T skip_empty (length T) true).
Proof.
  intros Hpos Hrun Hfuel. destruct fuel as [|[|fuel]]; try lia.
  rewrite char_advance_loop_unfold.
  change (char_mode.is_end
            (char_mode.char_state is_separator T skip_empty pos false)) with false.
  change (char_mode.used_mode
            (char_mode.char_state is_separator T skip_empty pos false))
    with skip_empty.
  cbv iota. rewrite char_advance_step_last by assumption.
  rewrite char_state_empty_test, char_yielded, skipn_all.
  cbn [leading firstn split_mode_eqb nonempty negb andb].
  apply char_advance_loop_at_end. reflexivity.
Qed.

(** [advance()] in mode [skip_empty] from the state at [pos], and the
    loop of [split] from the state it reaches. *)
Lemma char_skip_advance (n : nat) :
  forall pos fuelA : nat,
    length (skipn pos T) <= n ->
    pos <= length T ->
    (if run (skipn pos T) =? length (skipn pos T) then 2
     else length (skipn pos T) - S (run (skipn pos T)) + 3) <= fuelA ->
    exists it',
      char_mode.advance_loop is_separator fuelA
        (char_mode.char_state is_separator T skip_empty pos false) = Some it'
      /\ forall (fuel : nat) (container : list (list A)),
          n + 1 <= fuel ->
          char_mode.split_loop is_separator fuel T container it'
          = Some (container
                    ++ filter nonempty
                         (tl (char_mode.char_sections is_separator (skipn pos T)))).
Proof.
  induction n as [|n IH]; intros pos fuelA Hlen Hpos HfuelA;
    pose proof (leading_le (char_mode.no_separator is_separator) (skipn pos T))
      as Hle;
    rewrite char_sections_run;
    destruct (Nat.eqb_spec (run (skipn pos T)) (length (skipn pos T))) as [E|E].
  1,3: exists (char_mode.char_state is_separator T skip_empty (length T) true);
       (split; [apply char_skip_advance_last; assumption|]);
       intros fuel container Hfuel; (destruct fuel as [|fuel]; [lia|]);
       rewrite char_split_loop_at_end by reflexivity;
       cbn [tl filter]; rewrite app_nil_r; reflexivity.
  - lia.
  - rewrite length_skipn in Hlen, HfuelA, E, Hle.
    set (k := run (skipn pos T)) in *.
    set (pos' := pos + k + 1).
    assert (Hrest : skipn (S k) (skipn pos T) = skipn pos' T).
    { rewrite skipn_skipn. f_equal. unfold pos'. lia. }
    assert (Hlen' : length (skipn pos' T) <= n)
      by (rewrite length_skipn; unfold pos'; lia).
    assert (Hpos' : pos' <= length T) by (unfold pos'; lia).
    cbn [tl]. rewrite Hrest.
    rewrite (@char_sections_hd skip_empty pos' false).
    destruct fuelA as [|fuelA]; [lia|].
    rewrite char_advance_loop_unfold.
    change (char_mode.is_end
              (char_mode.char_state is_separator T skip_empty pos false))
      with false.
    change (char_mode.used_mode
              (char_mode.char_state is_separator T skip_empty pos false))
      with skip_empty.
    cbv iota. rewrite char_advance_step_next by (rewrite length_skipn; fold k; lia).
    fold k. fold pos'. rewrite char_state_empty_test.
    cbn [split_mode_eqb andb filter].
    pose proof (leading_le (char_mode.no_separator is_separator) (skipn pos' T))
      as Hle'.
    rewrite length_skipn in Hle'.
    assert (Hbudget : forall extra,
               length T - pos' + 2 <= extra ->
               (if run (skipn pos' T) =? length (skipn pos' T) then 2
                else length (skipn pos' T) - S (run (skipn pos' T)) + 3)
               <= extra).
    { intros extra He. rewrite length_skipn.
      destruct (Nat.eqb_spec (run (skipn pos' T)) (length T - pos')); lia. }
    destruct (nonempty (char_mode.yielded T
                (char_mode.char_state is_separator T skip_empty pos' false)))
      eqn:Hne; cbn [negb].
    + eexists. split; [reflexivity|].
      intros fuel container Hfuel. destruct fuel as [|fuel]; [lia|].
      rewrite char_split_loop_unfold.
      change (char_mode.is_end
                (char_mode.char_state is_separator T skip_empty pos' false))
        with false.
      cbv iota. unfold char_mode.advance.
      destruct (IH pos'
                  (3 + length (units (char_mode.current_separator
                     (char_mode.char_state is_separator T skip_empty pos' false))))
                  Hlen' Hpos') as (it'' & Hadv & Hloop).
      { rewrite char_state_separator. cbn [units]. rewrite !length_skipn.
        destruct (Nat.eqb_spec (run (skipn pos' T)) (length T - pos')); lia. }
      rewrite Hadv, Hloop by lia. rewrite <- app_assoc. reflexivity.
    + destruct (IH pos' fuelA Hlen' Hpos') as (it'' & Hadv & Hloop).
      { apply Hbudget. unfold pos'. lia. }
      exists it''. split; [assumption|].
      intros fuel container Hfuel. apply Hloop. lia.
Qed.

Lemma char_split_skip_empty (container : list (list A)) :
  char_mode.split is_separator container T skip_empty true
  = (filter nonempty (char_mode.char_sections is_separator T), Returned tt).
Proof.
  unfold char_mode.split, char_mode.split_iterator_new,
    make_terminated_iterator_forward.
  cbn [split_mode_eqb]. rewrite orb_true_r.
  unfold char_mode.advance at 1. cbn [char_mode.current_separator units Nat.add].
  rewrite char_advance_loop_unfold.
  cbn [char_mode.is_end char_mode.used_mode split_mode_eqb andb].
  rewrite char_advance_step_initial, char_state_empty_test.
  pose proof (@char_sections_hd skip_empty 0) as Hhd. cbn [skipn] in Hhd.
  destruct T as [|a T'] eqn:ET.
  - reflexivity.
  - assert (Hend : is_end_position (mk_itt 0 T) = false)
      by (rewrite ET; reflexivity).
    rewrite <- ET in *. rewrite Hend. specialize (Hhd false).
    pose proof (leading_le (char_mode.no_separator is_separator) T) as Hle.
    assert (Hbudget : forall extra,
               length T + 2 <= extra ->
               (if run (skipn 0 T) =? length (skipn 0 T) then 2
                else length (skipn 0 T) - S (run (skipn 0 T)) + 3) <= extra).
    { intros extra He. cbn [skipn].
      destruct (Nat.eqb_spec (run T) (length T)); lia. }
    destruct (nonempty (char_mode.yielded T
                (char_mode.char_state is_separator T skip_empty 0 false)))
      eqn:Hne; cbn [negb].
    + cbn [Nat.add]. rewrite char_split_loop_unfold.
      change (char_mode.is_end
                (char_mode.char_state is_separator T skip_empty 0 false))
        with false.
      cbv iota. unfold char_mode.advance.
      destruct (@char_skip_advance (length T) 0
                  (3 + length (units (char_mode.current_separator
                     (char_mode.char_state is_separator T skip_empty 0 false)))))
        as (it' & Hadv & Hloop).
      * cbn [skipn]. lia.
      * lia.
      * rewrite char_state_separator. cbn [units skipn]. rewrite length_skipn.
        destruct (Nat.eqb_spec (run T) (length T)); lia.
      * rewrite Hadv, Hloop by lia. cbn [skipn app].
        rewrite Hhd at 2. cbn [filter]. rewrite Hne. reflexivity.
    + destruct (@char_skip_advance (length T) 0 (2 + length T))
        as (it' & Hadv & Hloop).
      * cbn [skipn]. lia.
      * lia.
      * apply Hbudget. lia.
      * cbn [Nat.add] in Hadv |- *. rewrite Hadv, Hloop by lia. cbn [skipn app].
        rewrite Hhd at 2. cbn [filter]. rewrite Hne. reflexivity.
Qed.
End CharSplitSkip.

(** X16: in mode [skip_empty], [split] yields the sections of mode [all]
    in the same order without the empty ones; an empty source yields one
    empty section in mode [all] and none in mode [skip_empty]. *)
Theorem split_skip_empty_filters
        (A : Type) (is_separator : A -> bool)
        (container : list (list A)) (T : list A) :
  (exists sections,
      char_mode.split is_separator container T all true = (sections, Returned tt)
      /\ char_mode.split is_separator container T skip_empty true
         = (filter nonempty sections, Returned tt))
  /\ char_mode.split is_separator container [] all true = ([[]], Returned tt)
  /\ char_mode.split is_separator container [] skip_empty true = ([], Returned tt).
Proof.
  split; [|split; reflexivity].
  exists (char_mode.char_sections is_separator T).
  split; [apply char_split_all | apply char_split_skip_empty].
Qed.

Lemma weave_join {A : Type} (c : A) (target : list A) (sections : list (list A)) :
  forall separators,
    length sections = S (length separators) ->
    Forall (fun u => u = c) separators ->
    weave sections separators
    = join (fun u => u) (fun u => u) target sections [c] true.
Proof.
  induction sections as [|s ss IH]; intros seps Hlen Hall; [discriminate|].
  destruct seps as [|u seps].
  - destruct ss; [|discriminate]. rewrite join_one. reflexivity.
  - inversion Hall as [|x l Hu Hall']; subst.
    destruct ss as [|y rest]; [discriminate|].
    rewrite join_two_or_more. cbn [weave app].
    rewrite <- (IH seps); [reflexivity | simpl in *; lia | assumption].
Qed.

(** X17: splitting at one separator unit and joining the sections with
    that unit gives the text back: [join(split(T, == c), c) == T] in mode
    [all], for every text. *)
Theorem split_join_single_separator
        (A : Type) (A_eq_dec : forall x y : A, {x = y} + {x <> y})
        (c : A) (container : list (list A)) (target T : list A) :
  exists sections,
    char_mode.split (fun u => equals_comparer A_eq_dec u c) container T all true
    = (sections, Returned tt)
    /\ join (fun u => u) (fun u => u) target sections [c] true = T.
Proof.
  exists (char_mode.char_sections (fun u => equals_comparer A_eq_dec u c) T).
  split; [apply char_split_all|].
  rewrite <- (@weave_join A c target _
                (filter (fun u => equals_comparer A_eq_dec u c) T)).
  - apply char_sections_weave.
  - apply char_sections_length.
  - apply Forall_forall. intros u Hin. apply filter_In in Hin.
    destruct Hin as [_ Hu]. unfold equals_comparer in Hu.
    destruct (A_eq_dec u c); [assumption | discriminate].
Qed.

(** X18: [utility::is_any_of], built from a list of characters and
    compared with [==], holds for a value exactly when the value is in the
    list; no value is any of an empty list. *)
Theorem is_any_of_in
        (A : Type) (A_eq_dec : forall x y : A, {x = y} + {x <> y})
        (characters : list A) (value : A) :
  (is_any_of (equals_comparer A_eq_dec) characters value = true
   <-> In value characters)
  /\ is_any_of (equals_comparer A_eq_dec) [] value = false.
Proof.
  split; [|reflexivity].
  unfold is_any_of, make_const_terminated_iterator_forward. cbn [units].
  induction characters as [|c cs IH]; simpl.
  - split; [discriminate | contradiction].
  - unfold equals_comparer at 1. destruct (A_eq_dec c value) as [E|E].
    + split; [intros _; left; assumption | reflexivity].
    + rewrite IH. split; [intros H; right; assumption|].
      intros [H|H]; [contradiction | assumption].
Qed.

(* ------------------------------------------------------------------ *)
(** ** split_token_iterator: advance(count) and advance_to_last() *)

Section SplitAdvanceFacts.
Context {A B : Type}.
Variable compare : A -> B -> bool.
Variable T : list A.
Variable sep : list B.
Hypothesis sep_not_empty : sep <> [].

Lemma advance_count_loop_at_end (n : nat) (it : split_token_iterator A B) :
  is_end it = true -> advance_count_loop compare n it = Some it.
Proof. intros H. destruct n; simpl; [|rewrite H]; reflexivity. Qed.

(** The end state yields an empty range. *)
Lemma yielded_at_end (mode : split_mode) :
  yielded T (split_state compare T sep mode (length T) true) = [].
Proof.
  rewrite (yielded_last compare T sep _ _ _
             (@first_match_at_end A B compare T sep sep_not_empty)).
  apply skipn_all.
Qed.

(** The test [current_separator.begin().is_end_position()] holds exactly
    when no separator was found. *)
Lemma separator_at_end_test (mode : split_mode) (pos : nat) (e : bool) :
  is_end_position
    (r_begin (current_separator (split_state compare T sep mode pos e)))
  = match first_match compare (skipn pos T) sep with
    | Some _ => false
    | None => true
    end.
Proof.
  rewrite split_state_found.
  destruct (first_match compare (skipn pos T) sep) as [k|] eqn:Hf;
    cbn [r_begin]; [|reflexivity].
  destruct (first_match_Some _ _ _ Hf) as (_ & Hk & _).
  pose proof (p_length sep_not_empty) as Hl.
  rewrite is_end_position_skipn by lia. apply Nat.eqb_neq. lia.
Qed.

Lemma token_sections_last_section (m : nat) (t : list A) :
  first_match compare t sep = None -> token_sections compare m sep t = [t].
Proof. intros Hf. destruct m; cbn [token_sections]; [|rewrite Hf]; reflexivity. Qed.

Lemma token_sections_next_section (m k : nat) (t : list A) :
  length t <= m ->
  first_match compare t sep = Some k ->
  exists m',
    m = S m'
    /\ token_sections compare m sep t
       = firstn k t :: token_sections compare m' sep (skipn (k + length sep) t).
Proof.
  intros Hlen Hf. destruct (first_match_Some _ _ _ Hf) as (_ & Hk & _).
  pose proof (p_length sep_not_empty) as Hl.
  destruct m as [|m']; [lia|]. exists m'. split; [reflexivity|].
  cbn [token_sections]. rewrite Hf. reflexivity.
Qed.

(** [advance(count)] in mode [all], from the state at [pos]. *)
Lemma advance_count_all (n : nat) :
  forall m pos : nat,
    length (skipn pos T) <= m ->
    pos <= length T ->
    exists it',
      advance_count_loop compare n (split_state compare T sep all pos false)
      = Some it'
      /\ is_end it'
         = negb (n <? length (token_sections compare m sep (skipn pos T)))
      /\ yielded T it' = nth n (token_sections compare m sep (skipn pos T)) [].
Proof.
  induction n as [|n IH]; intros m pos Hlen Hpos.
  - eexists. split; [reflexivity|].
    rewrite (@token_sections_hd A B compare T sep sep_not_empty all m pos false Hlen).
    split; reflexivity.
  - cbn [advance_count_loop].
    change (is_end (split_state compare T sep all pos false)) with false.
    cbv iota. rewrite advance_all.
    destruct (first_match compare (skipn pos T) sep) as [k|] eqn:Hf.
    + destruct (@token_sections_next_section m k (skipn pos T) Hlen Hf) as (m' & -> & ->).
      destruct (first_match_Some _ _ _ Hf) as (_ & Hk & _).
      pose proof (p_length sep_not_empty) as Hl.
      rewrite length_skipn in Hk, Hlen.
      rewrite (advance_step_next compare T sep_not_empty _ _ _ Hf).
      rewrite skipn_skipn.
      replace (k + length sep + pos) with (pos + k + length sep) by lia.
      destruct (IH m' (pos + k + length sep)) as (it' & Hrun & Hend & Hy).
      * rewrite length_skipn. lia.
      * lia.
      * exists it'. split; [assumption|]. split; assumption.
    + rewrite advance_step_last by assumption.
      rewrite advance_count_loop_at_end by reflexivity.
      rewrite (@token_sections_last_section m (skipn pos T) Hf).
      eexists. split; [reflexivity|]. split; [reflexivity|].
      rewrite yielded_at_end. destruct n; reflexivity.
Qed.

(** [advance_to_last()] in mode [all], from the state at [pos]. *)
Lemma advance_to_last_all_spec (m : nat) :
  forall pos fuel : nat,
    length (skipn pos T) <= m ->
    pos <= length T ->
    m + 1 <= fuel ->
    exists it',
      advance_to_last_all compare fuel (split_state compare T sep all pos false)
      = Some it'
      /\ is_end it' = false
      /\ yielded T it' = last (token_sections compare m sep (skipn pos T)) [].
Proof.
  induction m as [|m IH]; intros pos fuel Hlen Hpos Hfuel;
    (destruct fuel as [|fuel]; [lia|]); cbn [advance_to_last_all];
    rewrite separator_at_end_test;
    change (is_end (split_state compare T sep all pos false)) with false;
    cbn [negb andb].
  - assert (Hf : first_match compare (skipn pos T) sep = None).
    { apply first_match_short. pose proof (p_length sep_not_empty). lia. }
    rewrite Hf. cbn [negb]. eexists. split; [reflexivity|].
    split; [reflexivity|].
    rewrite (yielded_last compare T sep _ _ _ Hf). reflexivity.
  - destruct (first_match compare (skipn pos T) sep) as [k|] eqn:Hf; cbn [negb].
    + rewrite advance_all.
      destruct (@token_sections_next_section (S m) k (skipn pos T) Hlen Hf) as (m' & Em & ->).
      injection Em as <-.
      destruct (first_match_Some _ _ _ Hf) as (_ & Hk & _).
      pose proof (p_length sep_not_empty) as Hl.
      rewrite length_skipn in Hk, Hlen.
      rewrite (advance_step_next compare T sep_not_empty _ _ _ Hf).
      rewrite skipn_skipn.
      replace (k + length sep + pos) with (pos + k + length sep) by lia.
      destruct (IH (pos + k + length sep) fuel) as (it' & Hrun & Hend & Hy).
      * rewrite length_skipn. lia.
      * lia.
      * lia.
      * exists it'. split; [assumption|]. split; [assumption|].
        rewrite Hy.
        rewrite (@token_sections_hd A B compare T sep sep_not_empty all m
                   (pos + k + length sep) false)
          by (rewrite length_skipn; lia).
        reflexivity.
    + eexists. split; [reflexivity|]. split; [reflexivity|].
      rewrite (yielded_last compare T sep _ _ _ Hf).
      rewrite (@token_sections_last_section (S m) (skipn pos T) Hf). reflexivity.
Qed.
Lemma advance_budget (pos : nat) (mode : split_mode) :
  pos <= length T ->
  match first_match compare (skipn pos T) sep with
  | None => 2
  | Some k => length (skipn pos T) - (k + length sep) + 3
  end
  <= 3 + length (units (r_end (current_separator
                                 (split_state compare T sep mode pos false)))).
Proof.
  intros Hpos. rewrite split_state_found.
  destruct (first_match compare (skipn pos T) sep) as [k|] eqn:Hf.
  - cbn [r_end units]. rewrite !length_skipn. lia.
  - lia.
Qed.

(** [advance()] in mode [skip_empty] from the state at [pos]: either the
    end is reached and no section after the one at [pos] holds a unit, or
    the iterator stands on the next section that holds one. *)
Lemma skip_advance_state (n : nat) :
  forall pos fuelA : nat,
    length (skipn pos T) <= n ->
    pos <= length T ->
    match first_match compare (skipn pos T) sep with
    | None => 2
    | Some k => length (skipn pos T) - (k + length sep) + 3
    end <= fuelA ->
    (advance_loop compare fuelA (split_state compare T sep skip_empty pos false)
     = Some (split_state compare T sep skip_empty (length T) true)
     /\ filter nonempty (tl (token_sections compare n sep (skipn pos T))) = [])
    \/ exists pos' n',
        pos < pos' /\ pos' <= length T
        /\ length (skipn pos' T) <= n'
        /\ advance_loop compare fuelA
             (split_state compare T sep skip_empty pos false)
           = Some (split_state compare T sep skip_empty pos' false)
        /\ nonempty (yielded T (split_state compare T sep skip_empty pos' false))
           = true
        /\ filter nonempty (tl (token_sections compare n sep (skipn pos T)))
           = filter nonempty (token_sections compare n' sep (skipn pos' T)).
Proof.
  induction n as [|n IH]; intros pos fuelA Hlen Hpos HfuelA.
  - assert (Hf : first_match compare (skipn pos T) sep = None).
    { apply first_match_short. pose proof (p_length sep_not_empty). lia. }
    rewrite Hf in HfuelA. left.
    split; [apply skip_advance_last; assumption | reflexivity].
  - destruct (first_match compare (skipn pos T) sep) as [k|] eqn:Hf.
    + destruct (first_match_Some _ _ _ Hf) as (_ & Hk & _).
      pose proof (p_length sep_not_empty) as Hl.
      rewrite length_skipn in Hk, Hlen, HfuelA.
      set (pos' := pos + k + length sep).
      assert (Hrest : skipn (k + length sep) (skipn pos T) = skipn pos' T).
      { rewrite skipn_skipn. f_equal. unfold pos'. lia. }
      assert (Hlen' : length (skipn pos' T) <= n)
        by (rewrite length_skipn; unfold pos'; lia).
      assert (Hpos' : pos' <= length T) by (unfold pos'; lia).
      assert (Htl : tl (token_sections compare (S n) sep (skipn pos T))
                    = token_sections compare n sep (skipn pos' T)).
      { cbn [token_sections]. rewrite Hf, Hrest. reflexivity. }
      rewrite Htl.
      destruct fuelA as [|fuelA]; [lia|].
      rewrite advance_loop_unfold.
      change (is_end (split_state compare T sep skip_empty pos false)) with false.
      change (used_mode (split_state compare T sep skip_empty pos false))
        with skip_empty.
      cbv iota. rewrite (advance_step_next compare T sep_not_empty _ _ _ Hf).
      fold pos'. rewrite state_empty_test by assumption.
      cbn [split_mode_eqb andb].
      destruct (nonempty (yielded T (split_state compare T sep skip_empty pos' false)))
        eqn:Hne; cbn [negb].
      * right. exists pos', n. unfold pos' in *. repeat split; try lia; assumption.
      * rewrite (@token_sections_hd A B compare T sep sep_not_empty skip_empty
                   n pos' false Hlen').
        cbn [filter tl]. rewrite Hne.
        destruct (IH pos' fuelA Hlen' Hpos')
          as [[Hrun Hnone] | (pos'' & n'' & H1 & H2 & H3 & Hrun & Hne'' & Hsec)].
        -- destruct (first_match compare (skipn pos' T) sep) as [k'|] eqn:Hf'.
           ++ destruct (first_match_Some _ _ _ Hf') as (_ & Hk' & _).
              rewrite length_skipn in *. unfold pos' in *. lia.
           ++ unfold pos' in *. lia.
        -- left. split; assumption.
        -- right. exists pos'', n''. unfold pos' in *.
           repeat split; try lia; assumption.
    + left. split; [apply skip_advance_last; assumption|].
      cbn [token_sections]. rewrite Hf. reflexivity.
Qed.

(** A state in mode [skip_empty] that yields a section holding a unit:
    that section is the first of the sections that hold one. *)
Lemma skip_sections_hd (m pos : nat) :
  length (skipn pos T) <= m ->
  nonempty (yielded T (split_state compare T sep skip_empty pos false)) = true ->
  filter nonempty (token_sections compare m sep (skipn pos T))
  = yielded T (split_state compare T sep skip_empty pos false)
    :: filter nonempty (tl (token_sections compare m sep (skipn pos T))).
Proof.
  intros Hlen Hne.
  rewrite (@token_sections_hd A B compare T sep sep_not_empty skip_empty
             m pos false Hlen) at 1.
  cbn [filter]. rewrite Hne. reflexivity.
Qed.

(** [advance(count)] in mode [skip_empty], from a state that yields a
    section holding a unit. *)
Lemma advance_count_skip (n : nat) :
  forall m pos : nat,
    length (skipn pos T) <= m ->
    pos <= length T ->
    nonempty (yielded T (split_state compare T sep skip_empty pos false)) = true ->
    exists it',
      advance_count_loop compare n
        (split_state compare T sep skip_empty pos false)
      = Some it'
      /\ is_end it'
         = negb (n <? length (filter nonempty
                                (token_sections compare m sep (skipn pos T))))
      /\ yielded T it'
         = nth n (filter nonempty (token_sections compare m sep (skipn pos T))) [].
Proof.
  induction n as [|n IH]; intros m pos Hlen Hpos Hne;
    rewrite (@skip_sections_hd m pos Hlen Hne).
  - eexists. split; [reflexivity|]. split; reflexivity.
  - cbn [advance_count_loop].
    change (is_end (split_state compare T sep skip_empty pos false)) with false.
    cbv iota. unfold advance.
    destruct (@skip_advance_state m pos _ Hlen Hpos
                (@advance_budget pos skip_empty Hpos))
      as [[Hrun Hnone] | (pos' & m' & H1 & H2 & H3 & Hrun & Hne' & Hsec)];
      rewrite Hrun.
    + rewrite advance_count_loop_at_end by reflexivity. rewrite Hnone.
      eexists. split; [reflexivity|]. split; [reflexivity|].
      rewrite yielded_at_end. destruct n; reflexivity.
    + rewrite Hsec.
      destruct (IH m' pos' H3 H2 Hne') as (it' & Hc & Hend & Hy).
      exists it'. split; [assumption|]. split; assumption.
Qed.

(** [advance_to_last()] in mode [skip_empty], from a state that yields a
    section holding a unit. *)
Lemma advance_to_last_skip_spec (bound : nat) :
  forall (m pos fuel : nat) (previous : split_token_iterator A B),
    length T - pos <= bound ->
    length (skipn pos T) <= m ->
    pos <= length T ->
    length T - pos + 2 <= fuel ->
    nonempty (yielded T (split_state compare T sep skip_empty pos false)) = true ->
    exists it',
      advance_to_last_skip compare fuel previous
        (split_state compare T sep skip_empty pos false)
      = Some it'
      /\ is_end it' = false
      /\ yielded T it'
         = last (filter nonempty (token_sections compare m sep (skipn pos T))) [].
Proof.
  induction bound as [|bound IH];
    intros m pos fuel previous Hbound Hlen Hpos Hfuel Hne;
    rewrite (@skip_sections_hd m pos Hlen Hne);
    (destruct fuel as [|fuel]; [lia|]); cbn [advance_to_last_skip];
    change (is_end (split_state compare T sep skip_empty pos false)) with false;
    cbv iota; unfold advance;
    (destruct (@skip_advance_state m pos _ Hlen Hpos
                 (@advance_budget pos skip_empty Hpos))
      as [[Hrun Hnone] | (pos' & m' & H1 & H2 & H3 & Hrun & Hne' & Hsec)];
     rewrite Hrun).
  - rewrite Hnone. destruct fuel as [|fuel]; [lia|].
    eexists. split; [reflexivity|]. split; reflexivity.
  - lia.
  - rewrite Hnone. destruct fuel as [|fuel]; [lia|].
    eexists. split; [reflexivity|]. split; reflexivity.
  - rewrite Hsec.
    destruct (IH m' pos' fuel
                (split_state compare T sep skip_empty pos false))
      as (it' & Hc & Hend & Hy); try lia; try assumption.
    exists it'. split; [assumption|]. split; [assumption|].
    rewrite Hy. rewrite (@skip_sections_hd m' pos' H3 Hne'). reflexivity.
Qed.

(** The constructor in mode [skip_empty]: it leaves the iterator at the
    end when no section holds a unit, and on the first section that holds
    one otherwise. *)
Lemma split_token_iterator_new_skip :
  exists it,
    split_token_iterator_new compare T sep skip_empty = Returned it
    /\ ((it = split_state compare T sep skip_empty (length T) true
         /\ filter nonempty (token_sections compare (length T) sep T) = [])
        \/ exists pos m,
            pos <= length T
            /\ length (skipn pos T) <= m
            /\ it = split_state compare T sep skip_empty pos false
            /\ nonempty (yielded T (split_state compare T sep skip_empty pos false))
               = true
            /\ filter nonempty (token_sections compare (length T) sep T)
               = filter nonempty (token_sections compare m sep (skipn pos T))).
Proof.
  unfold split_token_iterator_new, make_terminated_iterator_forward,
    make_const_terminated_iterator_forward.
  rewrite (p_not_at_end sep_not_empty). cbn [split_mode_eqb].
  rewrite orb_true_r. unfold advance. cbn [current_separator r_end units].
  cbn [Nat.add]. rewrite advance_loop_unfold.
  cbn [is_end used_mode split_mode_eqb andb].
  rewrite advance_step_initial.
  rewrite state_empty_test by (assumption || lia).
  assert (Hhd := @token_sections_hd A B compare T sep sep_not_empty skip_empty
                   (length T) 0).
  cbn [skipn] in Hhd.
  destruct T as [|a T'] eqn:ET.
  - assert (Hf : first_match compare (skipn 0 (@nil A)) sep = None).
    { apply first_match_short. pose proof (p_length sep_not_empty). simpl. lia. }
    rewrite (yielded_last compare [] sep _ _ _ Hf).
    cbn [skipn nonempty negb is_end_position units].
    rewrite advance_loop_at_end by reflexivity.
    eexists. split; [reflexivity|]. left.
    split; [reflexivity|]. destruct sep; [congruence | reflexivity].
  - assert (Hend : is_end_position (mk_itt 0 T) = false)
      by (rewrite ET; reflexivity).
    rewrite <- ET in *. rewrite Hend.
    specialize (Hhd false (le_n _)).
    destruct (nonempty (yielded T (split_state compare T sep skip_empty 0 false)))
      eqn:Hne; cbn [negb].
    + eexists. split; [reflexivity|].
      right. exists 0, (length T). cbn [skipn].
      repeat split; try lia; try assumption; reflexivity.
    + rewrite Hhd. cbn [filter]. rewrite Hne.
      destruct (@skip_advance_state (length T) 0 (2 + length T))
        as [[Hrun Hnone] | (pos' & m' & H1 & H2 & H3 & Hrun & Hne' & Hsec)].
      * cbn [skipn]. lia.
      * lia.
      * apply skip_budget_initial. assumption.
      * cbn [Nat.add skipn] in Hrun, Hnone. rewrite Hrun.
        eexists. split; [reflexivity|]. left.
        split; [reflexivity | exact Hnone].
      * cbn [Nat.add skipn] in Hrun, Hsec. rewrite Hrun.
        eexists. split; [reflexivity|].
        right. exists pos', m'.
        repeat split; try lia; try assumption.
Qed.
End SplitAdvanceFacts.

(** X19: for a separator that is not empty, in either mode, a freshly
    constructed [split_token_iterator] on which [advance(n)] is called stands
    on section number [n] (counted from 0) of the sections [split_token]
    yields and the call returns [true]; when there are [n] sections or fewer
    the call returns [false] and the iterator yields an empty range. *)
Theorem split_token_iterator_advance_count
        (A B : Type) (comparer : A -> B -> bool) (container : list (list A))
        (T : list A) (SEP : list B) (mode : split_mode) (n : nat) :
  SEP <> [] ->
  exists it sections it',
    split_token_iterator_new comparer T SEP mode = Returned it
    /\ split_token comparer container T SEP mode true = (sections, Returned tt)
    /\ advance_count comparer n it = Some (it', n <? length sections)
    /\ yielded T it' = nth n sections [].
Proof.
  intros HSEP. unfold advance_count. destruct mode.
  - destruct (@advance_count_all A B comparer T SEP HSEP n (length T) 0)
      as (it' & Hrun & Hend & Hy); [cbn [skipn]; lia | lia |].
    cbn [skipn] in *.
    exists (split_state comparer T SEP all 0 false),
           (token_sections comparer (length T) SEP T), it'.
    split; [apply split_token_iterator_new_all; assumption|].
    split; [apply split_token_all; assumption|].
    rewrite Hrun, Hend, negb_involutive. split; [reflexivity | assumption].
  - destruct (@split_token_iterator_new_skip A B comparer T SEP HSEP)
      as (it & Hnew
          & [[-> Hnone] | (pos & m & Hpos & Hlen & -> & Hne & Hsec)]).
    + exists (split_state comparer T SEP skip_empty (length T) true),
             (filter nonempty (token_sections comparer (length T) SEP T)),
             (split_state comparer T SEP skip_empty (length T) true).
      split; [assumption|].
      split; [apply split_token_skip_empty; assumption|].
      rewrite advance_count_loop_at_end by reflexivity.
      rewrite Hnone, (yielded_at_end comparer T HSEP).
      split; destruct n; reflexivity.
    + destruct (@advance_count_skip A B comparer T SEP HSEP n m pos Hlen Hpos Hne)
        as (it' & Hrun & Hend & Hy).
      exists (split_state comparer T SEP skip_empty pos false),
             (filter nonempty (token_sections comparer (length T) SEP T)), it'.
      split; [assumption|].
      split; [apply split_token_skip_empty; assumption|].
      rewrite Hrun, Hend, negb_involutive, Hsec.
      split; [reflexivity | assumption].
Qed.

Lemma split_token_iterator_advance_count_witness :
  exists it sections it',
    split_token_iterator_new char_equals (lit "Hello World") (lit "l") skip_empty
    = Returned it
    /\ split_token char_equals [] (lit "Hello World") (lit "l") skip_empty true
       = (sections, Returned tt)
    /\ advance_count char_equals 1 it = Some (it', 1 <? length sections)
    /\ yielded (lit "Hello World") it' = nth 1 sections [].
Proof.
  apply (@split_token_iterator_advance_count ascii ascii char_equals []
           (lit "Hello World") (lit "l") skip_empty 1).
  discriminate.
Defined.

(** X20: for a separator that is not empty, in either mode,
    [advance_to_last()] on a freshly constructed [split_token_iterator]
    leaves it on the last of the sections [split_token] yields and returns
    [true]; when there is no section (mode [skip_empty], every section
    empty) it returns [false] and the iterator yields an empty range. *)
Theorem split_token_iterator_advance_to_last
        (A B : Type) (comparer : A -> B -> bool) (container : list (list A))
        (T : list A) (SEP : list B) (mode : split_mode) :
  SEP <> [] ->
  exists it sections it',
    split_token_iterator_new comparer T SEP mode = Returned it
    /\ split_token comparer container T SEP mode true = (sections, Returned tt)
    /\ advance_to_last comparer it
       = Some (it', match sections with [] => false | _ :: _ => true end)
    /\ yielded T it' = last sections [].
Proof.
  intros HSEP. unfold advance_to_last. destruct mode.
  - destruct (@advance_to_last_all_spec A B comparer T SEP HSEP (length T) 0
                (2 + length T))
      as (it' & Hrun & Hend & Hy); [cbn [skipn]; lia | lia | lia |].
    cbn [skipn] in *.
    exists (split_state comparer T SEP all 0 false),
           (token_sections comparer (length T) SEP T), it'.
    split; [apply split_token_iterator_new_all; assumption|].
    split; [apply split_token_all; assumption|].
    change (is_end (split_state comparer T SEP all 0 false)) with false.
    change (used_mode (split_state comparer T SEP all 0 false)) with all.
    change (units (itt_text (split_state comparer T SEP all 0 false))) with T.
    cbn [negb]. rewrite Hrun, Hend.
    split; [|assumption].
    pose proof (@token_sections_hd A B comparer T SEP HSEP all (length T) 0 false)
      as Hhd.
    cbn [skipn] in Hhd. rewrite Hhd by lia. reflexivity.
  - destruct (@split_token_iterator_new_skip A B comparer T SEP HSEP)
      as (it & Hnew
          & [[-> Hnone] | (pos & m & Hpos & Hlen & -> & Hne & Hsec)]).
    + exists (split_state comparer T SEP skip_empty (length T) true),
             (filter nonempty (token_sections comparer (length T) SEP T)),
             (split_state comparer T SEP skip_empty (length T) true).
      split; [assumption|].
      split; [apply split_token_skip_empty; assumption|].
      rewrite Hnone, (yielded_at_end comparer T HSEP).
      split; reflexivity.
    + destruct (@advance_to_last_skip_spec A B comparer T SEP HSEP
                  (length T - pos) m pos (2 + length (skipn pos T))
                  split_token_iterator_default)
        as (it' & Hrun & Hend & Hy);
        try assumption; try (rewrite ?length_skipn; lia).
      exists (split_state comparer T SEP skip_empty pos false),
             (filter nonempty (token_sections comparer (length T) SEP T)), it'.
      split; [assumption|].
      split; [apply split_token_skip_empty; assumption|].
      change (is_end (split_state comparer T SEP skip_empty pos false)) with false.
      change (used_mode (split_state comparer T SEP skip_empty pos false))
        with skip_empty.
      change (units (itt_text (split_state comparer T SEP skip_empty pos false)))
        with (skipn pos T).
      cbn [negb]. rewrite Hrun, Hend, Hsec.
      split; [|assumption].
      rewrite (@skip_sections_hd A B comparer T SEP HSEP m pos Hlen Hne).
      reflexivity.
Qed.

Lemma split_token_iterator_advance_to_last_witness :
  exists it sections it',
    split_token_iterator_new char_equals (lit "Hello World") (lit "ld") skip_empty
    = Returned it
    /\ split_token char_equals [] (lit "Hello World") (lit "ld") skip_empty true
       = (sections, Returned tt)
    /\ advance_to_last char_equals it
       = Some (it', match sections with [] => false | _ :: _ => true end)
    /\ yielded (lit "Hello World") it' = last sections [].
Proof.
  apply (@split_token_iterator_advance_to_last ascii ascii char_equals []
           (lit "Hello World") (lit "ld") skip_empty).
  discriminate.
Defined.

(* ------------------------------------------------------------------ *)
(** ** copy and join, continued *)

Section SharedJoinFacts.
Context {A : Type}.





End SharedJoinFacts.


(** When the source of [copy] is the target itself and the target is
    cleared first, the first read through the source's iterator is outside
    the content of the target; without the clearing every read is of a unit
    the target held when the call started. *)
Remark copy_source_is_target :
  shared.copy (lit "abc") (shared.over_text 0 3) true = shared.Undefined
  /\ shared.copy (lit "abc") (shared.over_text 0 3) false
     = shared.Done (lit "abcabc").
Proof. split; reflexivity. Qed.

(* ------------------------------------------------------------------ *)
(** ** Null-terminated strings *)

Section BufferFacts.
Context {A : Type}.
Variable A_eq_dec : forall x y : A, {x = y} + {x <> y}.
Variable nul : A.

Lemma is_nul_nul : is_nul A_eq_dec nul nul = true.
Proof. unfold is_nul. destruct (A_eq_dec nul nul); congruence. Qed.

Lemma is_nul_other (c : A) : c <> nul -> is_nul A_eq_dec nul c = false.
Proof. intros H. unfold is_nul. destruct (A_eq_dec c nul); congruence. Qed.

Lemma c_string_no_nul (p : list A) : ~ In nul (c_string A_eq_dec nul p).
Proof.
  induction p as [|a p IH]; simpl; [tauto|].
  unfold is_nul. destruct (A_eq_dec a nul) as [E|E]; simpl; [tauto|].
  intros [H|H]; [congruence | tauto].
Qed.

Lemma c_string_app (l r : list A) :
  ~ In nul l ->
  c_string A_eq_dec nul (l ++ r) = l ++ c_string A_eq_dec nul r.
Proof.
  induction l as [|a l IH]; simpl; intros H; [reflexivity|].
  rewrite is_nul_other by (intros E; apply H; left; congruence).
  rewrite IH by tauto. reflexivity.
Qed.

Lemma c_string_split (p : list A) :
  In nul p -> exists rest, p = c_string A_eq_dec nul p ++ nul :: rest.
Proof.
  induction p as [|a p IH]; simpl; intros H; [tauto|].
  unfold is_nul. destruct (A_eq_dec a nul) as [E|E].
  - subst a. exists p. reflexivity.
  - destruct H as [H|H]; [congruence|].
    destruct (IH H) as (rest & Hr). exists rest. simpl. f_equal. exact Hr.
Qed.

Lemma string_length_loop_found (l r : list A) : forall p_end,
  ~ In nul l ->
  string_length_loop A_eq_dec nul p_end (l ++ nul :: r)
  = Some (p_end + length l).
Proof.
  induction l as [|a l IH]; simpl; intros p_end H.
  - rewrite is_nul_nul. f_equal. lia.
  - rewrite is_nul_other by (intros E; apply H; left; congruence).
    rewrite IH by tauto. f_equal. lia.
Qed.

Lemma string_length_loop_none (p : list A) : forall p_end,
  ~ In nul p -> string_length_loop A_eq_dec nul p_end p = None.
Proof.
  induction p as [|a p IH]; simpl; intros p_end H; [reflexivity|].
  rewrite is_nul_other by (intros E; apply H; left; congruence).
  apply IH. tauto.
Qed.

Lemma store_c_string (l r : list A) :
  ~ In nul l ->
  c_string A_eq_dec nul (store (length l) nul (l ++ r)) = l
  /\ length (store (length l) nul (l ++ r)) = length (l ++ r).
Proof.
  intros H. split; [|apply length_store].
  pose proof (store_app_r l r 0 nul) as Hs. rewrite Nat.add_0_r in Hs.
  rewrite Hs, c_string_app by assumption.
  destruct r; simpl; [|rewrite is_nul_nul]; apply app_nil_r.
Qed.

Lemma no_nul_part (l : list A) (s n : nat) :
  ~ In nul l -> ~ In nul (firstn n (skipn s l)).
Proof.
  intros H Hin. apply H.
  rewrite <- (firstn_skipn s l). apply in_or_app. right.
  rewrite <- (firstn_skipn n (skipn s l)). apply in_or_app. left. assumption.
Qed.

(** The in-place trim of a null-terminated buffer, on a storage given
    as its string, the terminating null and what follows. *)
Lemma trim_in_place_buffer_spec (is_something : A -> bool)
      (S rest : list A) (ts te : bool) :
  ~ In nul S ->
  exists p',
    trim_in_place_buffer A_eq_dec nul is_something (S ++ nul :: rest) ts te
    = Some p'
    /\ length p' = length (S ++ nul :: rest)
    /\ c_string A_eq_dec nul p' = implementation.trim_copy is_something S ts te.
Proof.
  intros HS.
  unfold trim_in_place_buffer, implementation.trim_copy,
    make_const_terminated_iterator_forward_buffer,
    make_terminated_iterator_reverse_buffer, string_length,
    make_const_terminated_iterator_forward, make_const_terminated_iterator_reverse.
  rewrite string_length_loop_found by assumption. cbn [Nat.add].
  rewrite c_string_app by assumption. cbn [c_string].
  rewrite is_nul_nul, app_nil_r.
  rewrite firstn_app, Nat.sub_diag, firstn_all. cbn [firstn]. rewrite app_nil_r.
  destruct (trim_iterator_choice is_something ts S) as (s & Hs & ->).
  destruct (trim_iterator_choice is_something te (rev S)) as (e & He & ->).
  rewrite length_rev in He. cbn [units]. rewrite length_rev.
  rewrite is_end_position_skipn by assumption.
  unfold text_of_positions, base, get_end. cbn [get_position units].
  assert (Hempty : exists p',
             Some (store 0 nul (S ++ nul :: rest)) = Some p'
             /\ length p' = length (S ++ nul :: rest)
             /\ c_string A_eq_dec nul p' = []).
  { eexists. split; [reflexivity|]. split; [apply length_store|].
    destruct S; simpl; rewrite is_nul_nul; reflexivity. }
  destruct (Nat.eqb_spec s (length S)) as [Es|Es]; cbn [negb].
  - rewrite Es, skipn_all, firstn_nil. exact Hempty.
  - set (n := length S - e - s).
    destruct (Nat.eqb_spec s (length S - e)) as [Ee|Ee]; cbn [negb].
    + unfold n. rewrite <- Ee, Nat.sub_diag. exact Hempty.
    + assert (Hn : length (firstn n (skipn s S)) = n).
      { rewrite length_firstn, length_skipn. unfold n. lia. }
      assert (Hpart := @no_nul_part S s n HS).
      destruct (Nat.eqb_spec s 0) as [E0|E0]; cbn [negb fst snd].
      * subst s. cbn [skipn] in *.
        assert (En : n = length S - e) by (unfold n; lia).
        clearbody n. subst n. rewrite ?Nat.sub_0_r in *.
        set (n := length S - e) in *.
        destruct (Nat.eq_dec e 0) as [Ez|Ez].
        -- subst e. unfold n in *. rewrite ?Nat.sub_0_r in *.
           rewrite app_nth2, Nat.sub_diag by lia. cbn [nth].
           rewrite is_nul_nul. cbn [negb].
           eexists. split; [reflexivity|]. split; [reflexivity|].
           rewrite c_string_app by assumption. cbn [c_string].
           rewrite is_nul_nul, app_nil_r.
           symmetry. apply firstn_all.
        -- rewrite app_nth1 by lia.
           rewrite is_nul_other
             by (intros E; apply HS; rewrite <- E; apply nth_In; lia).
           cbn [negb].
           assert (Hp : S ++ nul :: rest
                        = firstn n S ++ skipn n S ++ nul :: rest)
             by (rewrite app_assoc, firstn_skipn; reflexivity).
           destruct (@store_c_string (firstn n S)
                       (skipn n S ++ nul :: rest) Hpart) as [Hc Hl].
           rewrite Hn, <- Hp in Hc, Hl.
           eexists. split; [reflexivity|]. split; assumption.
      * unfold memmove. fold n.
        assert (Hmoved : firstn n (skipn s (S ++ nul :: rest))
                         = firstn n (skipn s S)).
        { rewrite skipn_app, firstn_app, length_skipn.
          replace (s - length S) with 0 by lia.
          replace (n - (length S - s)) with 0 by (unfold n; lia).
          cbn [skipn firstn]. apply app_nil_r. }
        rewrite Hmoved, Hn.
        destruct (@store_c_string (firstn n (skipn s S))
                    (skipn n (S ++ nul :: rest)) Hpart) as [Hc Hl].
        rewrite Hn in Hc, Hl.
        eexists. split; [reflexivity|]. split; [|exact Hc].
        rewrite Hl, length_app, Hn, length_skipn, length_app. unfold n. simpl. lia.
Qed.
End BufferFacts.

(** X22: [string_length] of a null-terminated storage returns [n] exactly
    when the first terminating null stands at index [n]; it reads past the
    storage exactly when the storage holds no terminating null. *)
Theorem string_length_correct
        (A : Type) (A_eq_dec : forall x y : A, {x = y} + {x <> y})
        (nul : A) (p : list A) (n : nat) :
  (string_length A_eq_dec nul p = Some n
   <-> exists l r, p = l ++ nul :: r /\ ~ In nul l /\ length l = n)
  /\ (string_length A_eq_dec nul p = None <-> ~ In nul p).
Proof.
  unfold string_length. split; split.
  - intros H. destruct (in_dec A_eq_dec nul p) as [Hin|Hin].
    + destruct (c_string_split A_eq_dec nul p Hin) as (rest & Hp).
      pose proof (c_string_no_nul A_eq_dec nul p) as Hno.
      rewrite Hp, string_length_loop_found in H by assumption.
      injection H as <-. eauto.
    + rewrite string_length_loop_none in H by assumption. discriminate.
  - intros (l & r & -> & Hno & <-).
    rewrite string_length_loop_found by assumption. reflexivity.
  - intros H Hin.
    destruct (c_string_split A_eq_dec nul p Hin) as (rest & Hp).
    pose proof (c_string_no_nul A_eq_dec nul p) as Hno.
    rewrite Hp, string_length_loop_found in H by assumption. discriminate.
  - apply string_length_loop_none.
Qed.

(** X23: trimming a null-terminated buffer in place, with either end
    enabled or not, keeps the size of the storage and leaves in it, up to
    the first terminating null, exactly the string the copying trim returns
    for the string the buffer held. *)
Theorem trim_in_place_buffer_equals_copy
        (A : Type) (A_eq_dec : forall x y : A, {x = y} + {x <> y})
        (nul : A) (predicate : A -> bool) (p_text : list A)
        (trim_start_enable trim_end_enable : bool) :
  In nul p_text ->
  exists p_text',
    trim_in_place_buffer A_eq_dec nul predicate p_text
      trim_start_enable trim_end_enable
    = Some p_text'
    /\ length p_text' = length p_text
    /\ c_string A_eq_dec nul p_text'
       = implementation.trim_copy predicate (c_string A_eq_dec nul p_text)
           trim_start_enable trim_end_enable.
Proof.
  intros Hin.
  destruct (c_string_split A_eq_dec nul p_text Hin) as (rest & Hp).
  pose proof (c_string_no_nul A_eq_dec nul p_text) as Hno.
  remember (c_string A_eq_dec nul p_text) as S eqn:ES.
  rewrite Hp.
  apply trim_in_place_buffer_spec. assumption.
Qed.

Lemma trim_in_place_buffer_equals_copy_witness :
  exists p_text',
    trim_in_place_buffer Nat.eq_dec 0 (Nat.eqb 1) [1; 2; 1; 3; 1; 0; 7] true true
    = Some p_text'
    /\ length p_text' = length [1; 2; 1; 3; 1; 0; 7]
    /\ c_string Nat.eq_dec 0 p_text'
       = implementation.trim_copy (Nat.eqb 1)
           (c_string Nat.eq_dec 0 [1; 2; 1; 3; 1; 0; 7]) true true.
Proof.
  apply (@trim_in_place_buffer_equals_copy nat Nat.eq_dec 0 (Nat.eqb 1)
           [1; 2; 1; 3; 1; 0; 7] true true).
  simpl. tauto.
Defined.

(* ------------------------------------------------------------------ *)
(** ** split_iterator: advance(count) and advance_to_last() *)

Section CharAdvanceFacts.
Context {A : Type}.
Variable is_separator : A -> bool.
Variable T : list A.

Local Abbreviation run us := (leading (char_mode.no_separator is_separator) us).

Lemma char_advance_count_loop_at_end (n : nat) (it : char_mode.split_iterator A) :
  char_mode.is_end it = true ->
  char_mode.advance_count_loop is_separator n it = Some it.
Proof. intros H. destruct n; simpl; [|rewrite H]; reflexivity. Qed.

Lemma char_yielded_at_end (mode : split_mode) :
  char_mode.yielded T (char_mode.char_state is_separator T mode (length T) true)
  = [].
Proof. rewrite char_yielded, skipn_all. reflexivity. Qed.

Lemma char_separator_at_end_test (mode : split_mode) (pos : nat) (e : bool) :
  is_end_position
    (char_mode.current_separator (char_mode.char_state is_separator T mode pos e))
  = (run (skipn pos T) =? length (skipn pos T)).
Proof.
  rewrite char_state_separator. apply is_end_position_skipn. apply leading_le.
Qed.

(** [advance(count)] in mode [all], from the state at [pos]. *)
Lemma char_advance_count_all (n : nat) :
  forall pos : nat,
    pos <= length T ->
    exists it',
      char_mode.advance_count_loop is_separator n
        (char_mode.char_state is_separator T all pos false)
      = Some it'
      /\ char_mode.is_end it'
         = negb (n <? length (char_mode.char_sections is_separator (skipn pos T)))
      /\ char_mode.yielded T it'
         = nth n (char_mode.char_sections is_separator (skipn pos T)) [].
Proof.
  induction n as [|n IH]; intros pos Hpos.
  - eexists. split; [reflexivity|].
    rewrite (@char_sections_hd A is_separator T all pos false).
    split; reflexivity.
  - cbn [char_mode.advance_count_loop].
    change (char_mode.is_end (char_mode.char_state is_separator T all pos false))
      with false.
    cbv iota. rewrite char_advance_all, char_sections_run.
    pose proof (leading_le (char_mode.no_separator is_separator) (skipn pos T))
      as Hle.
    destruct (Nat.eqb_spec (run (skipn pos T)) (length (skipn pos T))) as [E|E].
    + rewrite char_advance_step_last by assumption.
      rewrite char_advance_count_loop_at_end by reflexivity.
      eexists. split; [reflexivity|]. split; [reflexivity|].
      rewrite char_yielded_at_end. destruct n; reflexivity.
    + rewrite char_advance_step_next by lia.
      rewrite length_skipn in *. rewrite skipn_skipn.
      replace (S (run (skipn pos T)) + pos)
        with (pos + run (skipn pos T) + 1) by lia.
      destruct (IH (pos + run (skipn pos T) + 1)) as (it' & Hrun & Hend & Hy);
        [lia|].
      exists it'. split; [assumption|]. split; assumption.
Qed.

(** [advance_to_last()] in mode [all], from the state at [pos]. *)
Lemma char_advance_to_last_all_spec (m : nat) :
  forall pos fuel : nat,
    length (skipn pos T) <= m ->
    pos <= length T ->
    m + 1 <= fuel ->
    exists it',
      char_mode.advance_to_last_all is_separator fuel
        (char_mode.char_state is_separator T all pos false)
      = Some it'
      /\ char_mode.is_end it' = false
      /\ char_mode.yielded T it'
         = last (char_mode.char_sections is_separator (skipn pos T)) [].
Proof.
  induction m as [|m IH]; intros pos fuel Hlen Hpos Hfuel;
    (destruct fuel as [|fuel]; [lia|]); cbn [char_mode.advance_to_last_all];
    rewrite char_separator_at_end_test;
    change (char_mode.is_end (char_mode.char_state is_separator T all pos false))
      with false;
    cbn [negb andb]; rewrite char_sections_run;
    pose proof (leading_le (char_mode.no_separator is_separator) (skipn pos T))
      as Hle;
    destruct (Nat.eqb_spec (run (skipn pos T)) (length (skipn pos T))) as [E|E];
    cbn [negb].
  - eexists. split; [reflexivity|]. split; [reflexivity|].
    rewrite char_yielded, E, firstn_all. reflexivity.
  - lia.
  - eexists. split; [reflexivity|]. split; [reflexivity|].
    rewrite char_yielded, E, firstn_all. reflexivity.
  - rewrite char_advance_all, char_advance_step_next by lia.
    rewrite length_skipn in *. rewrite skipn_skipn.
    replace (S (run (skipn pos T)) + pos)
      with (pos + run (skipn pos T) + 1) by lia.
    destruct (IH (pos + run (skipn pos T) + 1) fuel) as (it' & Hrun & Hend & Hy);
      try lia.
    { rewrite length_skipn. lia. }
    exists it'. split; [assumption|]. split; [assumption|].
    rewrite Hy.
    rewrite (@char_sections_hd A is_separator T all
               (pos + run (skipn pos T) + 1) false).
    reflexivity.
Qed.

Lemma char_advance_budget (pos : nat) (mode : split_mode) :
  (if run (skipn pos T) =? length (skipn pos T) then 2
   else length (skipn pos T) - S (run (skipn pos T)) + 3)
  <= 3 + length (units (char_mode.current_separator
                          (char_mode.char_state is_separator T mode pos false))).
Proof.
  rewrite char_state_separator. cbn [units]. rewrite !length_skipn.
  destruct (run (skipn pos T) =? length T - pos); lia.
Qed.

(** [advance()] in mode [skip_empty] from the state at [pos]: either the
    end is reached and no section after the one at [pos] holds a unit, or
    the iterator stands on the next section that holds one. *)
Lemma char_skip_advance_state (n : nat) :
  forall pos fuelA : nat,
    length (skipn pos T) <= n ->
    pos <= length T ->
    (if run (skipn pos T) =? length (skipn pos T) then 2
     else length (skipn pos T) - S (run (skipn pos T)) + 3) <= fuelA ->
    (char_mode.advance_loop is_separator fuelA
       (char_mode.char_state is_separator T skip_empty pos false)
     = Some (char_mode.char_state is_separator T skip_empty (length T) true)
     /\ filter nonempty
          (tl (char_mode.char_sections is_separator (skipn pos T))) = [])
    \/ exists pos',
        pos < pos' /\ pos' <= length T
        /\ char_mode.advance_loop is_separator fuelA
             (char_mode.char_state is_separator T skip_empty pos false)
           = Some (char_mode.char_state is_separator T skip_empty pos' false)
        /\ nonempty (char_mode.yielded T
                       (char_mode.char_state is_separator T skip_empty pos' false))
           = true
        /\ filter nonempty
             (tl (char_mode.char_sections is_separator (skipn pos T)))
           = filter nonempty (char_mode.char_sections is_separator (skipn pos' T)).
Proof.
  induction n as [|n IH]; intros pos fuelA Hlen Hpos HfuelA;
    pose proof (leading_le (char_mode.no_separator is_separator) (skipn pos T))
      as Hle;
    rewrite char_sections_run;
    destruct (Nat.eqb_spec (run (skipn pos T)) (length (skipn pos T))) as [E|E].
  1,3: left; split; [apply char_skip_advance_last; assumption | reflexivity].
  - lia.
  - rewrite length_skipn in Hlen, HfuelA, E, Hle.
    set (k := run (skipn pos T)) in *.
    set (pos' := pos + k + 1).
    assert (Hrest : skipn (S k) (skipn pos T) = skipn pos' T).
    { rewrite skipn_skipn. f_equal. unfold pos'. lia. }
    assert (Hlen' : length (skipn pos' T) <= n)
      by (rewrite length_skipn; unfold pos'; lia).
    assert (Hpos' : pos' <= length T) by (unfold pos'; lia).
    cbn [tl]. rewrite Hrest.
    destruct fuelA as [|fuelA]; [lia|].
    rewrite char_advance_loop_unfold.
    change (char_mode.is_end
              (char_mode.char_state is_separator T skip_empty pos false))
      with false.
    change (char_mode.used_mode
              (char_mode.char_state is_separator T skip_empty pos false))
      with skip_empty.
    cbv iota. rewrite char_advance_step_next by (rewrite length_skipn; fold k; lia).
    fold k. fold pos'. rewrite char_state_empty_test.
    cbn [split_mode_eqb andb].
    pose proof (leading_le (char_mode.no_separator is_separator) (skipn pos' T))
      as Hle'.
    rewrite length_skipn in Hle'.
    destruct (nonempty (char_mode.yielded T
                (char_mode.char_state is_separator T skip_empty pos' false)))
      eqn:Hne; cbn [negb].
    + right. exists pos'. unfold pos' in *. repeat split; try lia; assumption.
    + rewrite (@char_sections_hd A is_separator T skip_empty pos' false).
      cbn [filter]. rewrite Hne.
      destruct (IH pos' fuelA Hlen' Hpos')
        as [[Hrun Hnone] | (pos'' & H1 & H2 & Hrun & Hne'' & Hsec)].
      * rewrite length_skipn.
        destruct (Nat.eqb_spec (run (skipn pos' T)) (length T - pos'));
          unfold pos' in *; lia.
      * left. split; assumption.
      * right. exists pos''. unfold pos' in *.
        repeat split; try lia; assumption.
Qed.

Lemma char_skip_sections_hd (pos : nat) :
  nonempty (char_mode.yielded T
              (char_mode.char_state is_separator T skip_empty pos false)) = true ->
  filter nonempty (char_mode.char_sections is_separator (skipn pos T))
  = char_mode.yielded T (char_mode.char_state is_separator T skip_empty pos false)
    :: filter nonempty
         (tl (char_mode.char_sections is_separator (skipn pos T))).
Proof.
  intros Hne.
  rewrite (@char_sections_hd A is_separator T skip_empty pos false) at 1.
  cbn [filter]. rewrite Hne. reflexivity.
Qed.

(** [advance(count)] in mode [skip_empty], from a state that yields a
    section holding a unit. *)
Lemma char_advance_count_skip (n : nat) :
  forall pos : nat,
    pos <= length T ->
    nonempty (char_mode.yielded T
                (char_mode.char_state is_separator T skip_empty pos false)) = true ->
    exists it',
      char_mode.advance_count_loop is_separator n
        (char_mode.char_state is_separator T skip_empty pos false)
      = Some it'
      /\ char_mode.is_end it'
         = negb (n <? length (filter nonempty
                                (char_mode.char_sections is_separator
                                   (skipn pos T))))
      /\ char_mode.yielded T it'
         = nth n (filter nonempty
                    (char_mode.char_sections is_separator (skipn pos T))) [].
Proof.
  induction n as [|n IH]; intros pos Hpos Hne;
    rewrite (@char_skip_sections_hd pos Hne).
  - eexists. split; [reflexivity|]. split; reflexivity.
  - cbn [char_mode.advance_count_loop].
    change (char_mode.is_end
              (char_mode.char_state is_separator T skip_empty pos false))
      with false.
    cbv iota. unfold char_mode.advance.
    destruct (@char_skip_advance_state (length (skipn pos T)) pos _
                (le_n _) Hpos (@char_advance_budget pos skip_empty))
      as [[Hrun Hnone] | (pos' & H1 & H2 & Hrun & Hne' & Hsec)];
      rewrite Hrun.
    + rewrite char_advance_count_loop_at_end by reflexivity. rewrite Hnone.
      eexists. split; [reflexivity|]. split; [reflexivity|].
      rewrite char_yielded_at_end. destruct n; reflexivity.
    + rewrite Hsec.
      destruct (IH pos' H2 Hne') as (it' & Hc & Hend & Hy).
      exists it'. split; [assumption|]. split; assumption.
Qed.

(** [advance_to_last()] in mode [skip_empty], from a state that yields a
    section holding a unit. *)
Lemma char_advance_to_last_skip_spec (bound : nat) :
  forall (pos fuel : nat) (previous : char_mode.split_iterator A),
    length T - pos <= bound ->
    pos <= length T ->
    length T - pos + 2 <= fuel ->
    nonempty (char_mode.yielded T
                (char_mode.char_state is_separator T skip_empty pos false)) = true ->
    exists it',
      char_mode.advance_to_last_skip is_separator fuel previous
        (char_mode.char_state is_separator T skip_empty pos false)
      = Some it'
      /\ char_mode.is_end it' = false
      /\ char_mode.yielded T it'
         = last (filter nonempty
                   (char_mode.char_sections is_separator (skipn pos T))) [].
Proof.
  induction bound as [|bound IH];
    intros pos fuel previous Hbound Hpos Hfuel Hne;
    rewrite (@char_skip_sections_hd pos Hne);
    (destruct fuel as [|fuel]; [lia|]); cbn [char_mode.advance_to_last_skip];
    change (char_mode.is_end
              (char_mode.char_state is_separator T skip_empty pos false))
      with false;
    cbv iota; unfold char_mode.advance;
    (destruct (@char_skip_advance_state (length (skipn pos T)) pos _
                 (le_n _) Hpos (@char_advance_budget pos skip_empty))
      as [[Hrun Hnone] | (pos' & H1 & H2 & Hrun & Hne' & Hsec)];
     rewrite Hrun).
  - rewrite Hnone. destruct fuel as [|fuel]; [lia|].
    eexists. split; [reflexivity|]. split; reflexivity.
  - lia.
  - rewrite Hnone. destruct fuel as [|fuel]; [lia|].
    eexists. split; [reflexivity|]. split; reflexivity.
  - rewrite Hsec.
    destruct (IH pos' fuel
                (char_mode.char_state is_separator T skip_empty pos false))
      as (it' & Hc & Hend & Hy); try lia; try assumption.
    exists it'. split; [assumption|]. split; [assumption|].
    rewrite Hy. rewrite (@char_skip_sections_hd pos' Hne'). reflexivity.
Qed.

(** The constructor in mode [all] on a text that is not empty. *)
Lemma char_split_iterator_new_all :
  T <> [] ->
  char_mode.split_iterator_new is_separator T all
  = Some (char_mode.char_state is_separator T all 0 false).
Proof.
  intros HT. unfold char_mode.split_iterator_new, make_terminated_iterator_forward.
  assert (Hend : is_end_position (mk_itt 0 T) = false)
    by (destruct T; [congruence | reflexivity]).
  rewrite Hend. cbn [negb orb].
  unfold char_mode.advance. cbn [char_mode.current_separator units Nat.add].
  rewrite char_advance_loop_unfold.
  cbn [char_mode.is_end char_mode.used_mode split_mode_eqb andb].
  rewrite char_advance_step_initial, Hend. reflexivity.
Qed.

(** The constructor in mode [skip_empty]: it leaves the iterator at the
    end when no section holds a unit, and on the first section that holds
    one otherwise. *)
Lemma char_split_iterator_new_skip :
  exists it,
    char_mode.split_iterator_new is_separator T skip_empty = Some it
    /\ ((it = char_mode.char_state is_separator T skip_empty (length T) true
         /\ filter nonempty (char_mode.char_sections is_separator T) = [])
        \/ exists pos,
            pos <= length T
            /\ it = char_mode.char_state is_separator T skip_empty pos false
            /\ nonempty (char_mode.yielded T
                           (char_mode.char_state is_separator T skip_empty
                              pos false)) = true
            /\ filter nonempty (char_mode.char_sections is_separator T)
               = filter nonempty
                   (char_mode.char_sections is_separator (skipn pos T))).
Proof.
  unfold char_mode.split_iterator_new, make_terminated_iterator_forward.
  cbn [split_mode_eqb]. rewrite orb_true_r.
  unfold char_mode.advance. cbn [char_mode.current_separator units Nat.add].
  rewrite char_advance_loop_unfold.
  cbn [char_mode.is_end char_mode.used_mode split_mode_eqb andb].
  rewrite char_advance_step_initial, char_state_empty_test.
  pose proof (@char_sections_hd A is_separator T skip_empty 0) as Hhd.
  cbn [skipn] in Hhd.
  destruct T as [|a T'] eqn:ET.
  - eexists. split; [reflexivity|]. left. split; reflexivity.
  - assert (Hend : is_end_position (mk_itt 0 T) = false)
      by (rewrite ET; reflexivity).
    rewrite <- ET in *. rewrite Hend. specialize (Hhd false).
    pose proof (leading_le (char_mode.no_separator is_separator) T) as Hle.
    destruct (nonempty (char_mode.yielded T
                (char_mode.char_state is_separator T skip_empty 0 false)))
      eqn:Hne; cbn [negb].
    + eexists. split; [reflexivity|].
      right. exists 0. cbn [skipn].
      repeat split; try lia; try assumption; reflexivity.
    + rewrite Hhd. cbn [filter]. rewrite Hne.
      destruct (@char_skip_advance_state (length T) 0 (2 + length T))
        as [[Hrun Hnone] | (pos' & H1 & H2 & Hrun & Hne' & Hsec)].
      * cbn [skipn]. lia.
      * lia.
      * cbn [skipn]. destruct (Nat.eqb_spec (run T) (length T)); lia.
      * cbn [Nat.add skipn] in Hrun, Hnone. rewrite Hrun.
        eexists. split; [reflexivity|]. left.
        split; [reflexivity | exact Hnone].
      * cbn [Nat.add skipn] in Hrun, Hsec. rewrite Hrun.
        eexists. split; [reflexivity|].
        right. exists pos'.
        repeat split; try lia; try assumption.
Qed.
End CharAdvanceFacts.

(** X24: in either mode, a freshly constructed [split_iterator] on which
    [advance(n)] is called stands on section number [n] (counted from 0) of
    the sections [split] yields and the call returns [true]; when there are
    [n] sections or fewer the call returns [false] and the iterator yields
    an empty range. *)
Theorem split_iterator_advance_count
        (A : Type) (is_separator : A -> bool) (container : list (list A))
        (T : list A) (mode : split_mode) (n : nat) :
  exists it sections it',
    char_mode.split_iterator_new is_separator T mode = Some it
    /\ char_mode.split is_separator container T mode true
       = (sections, Returned tt)
    /\ char_mode.advance_count is_separator n it
       = Some (it', n <? length sections)
    /\ char_mode.yielded T it' = nth n sections [].
Proof.
  unfold char_mode.advance_count. destruct mode.
  - destruct T as [|a T'] eqn:ET.
    + destruct n as [|n].
      * do 3 eexists. repeat split.
      * exists (char_mode.mk_split_iterator (mk_itt 0 (@nil A)) (mk_itt 0 [])
                  (mk_range 0 0) all true false),
               [[]],
               (char_mode.mk_split_iterator (mk_itt 0 (@nil A)) (mk_itt 0 [])
                  (mk_range 0 0) all false true).
        split; [reflexivity|]. split; [reflexivity|].
        cbn [char_mode.advance_count_loop char_mode.is_end].
        change (char_mode.advance is_separator
                  (char_mode.mk_split_iterator (mk_itt 0 []) (mk_itt 0 [])
                     (mk_range 0 0) all true false))
          with (Some (char_mode.mk_split_iterator (mk_itt 0 (@nil A))
                        (mk_itt 0 []) (mk_range 0 0) all false true)).
        cbv iota.
        rewrite char_advance_count_loop_at_end by reflexivity.
        split; destruct n; reflexivity.
    + rewrite <- ET. assert (HT : T <> []) by (rewrite ET; discriminate).
      destruct (@char_advance_count_all A is_separator T n 0)
        as (it' & Hrun & Hend & Hy); [lia|].
      cbn [skipn] in *.
      exists (char_mode.char_state is_separator T all 0 false),
             (char_mode.char_sections is_separator T), it'.
      split; [apply char_split_iterator_new_all; assumption|].
      split; [apply char_split_all|].
      rewrite Hrun, Hend, negb_involutive. split; [reflexivity | assumption].
  - destruct (@char_split_iterator_new_skip A is_separator T)
      as (it & Hnew & [[-> Hnone] | (pos & Hpos & -> & Hne & Hsec)]).
    + exists (char_mode.char_state is_separator T skip_empty (length T) true),
             (filter nonempty (char_mode.char_sections is_separator T)),
             (char_mode.char_state is_separator T skip_empty (length T) true).
      split; [assumption|].
      split; [apply char_split_skip_empty|].
      rewrite char_advance_count_loop_at_end by reflexivity.
      rewrite Hnone, char_yielded_at_end.
      split; destruct n; reflexivity.
    + destruct (@char_advance_count_skip A is_separator T n pos Hpos Hne)
        as (it' & Hrun & Hend & Hy).
      exists (char_mode.char_state is_separator T skip_empty pos false),
             (filter nonempty (char_mode.char_sections is_separator T)), it'.
      split; [assumption|].
      split; [apply char_split_skip_empty|].
      rewrite Hrun, Hend, negb_involutive, Hsec.
      split; [reflexivity | assumption].
Qed.

(** X25: in either mode, [advance_to_last()] on a freshly constructed
    [split_iterator] leaves it on the last of the sections [split] yields
    and returns [true]; when there is no section (mode [skip_empty], every
    section empty) it returns [false] and the iterator yields an empty
    range. *)
Theorem split_iterator_advance_to_last
        (A : Type) (is_separator : A -> bool) (container : list (list A))
        (T : list A) (mode : split_mode) :
  exists it sections it',
    char_mode.split_iterator_new is_separator T mode = Some it
    /\ char_mode.split is_separator container T mode true
       = (sections, Returned tt)
    /\ char_mode.advance_to_last is_separator it
       = Some (it', match sections with [] => false | _ :: _ => true end)
    /\ char_mode.yielded T it' = last sections [].
Proof.
  unfold char_mode.advance_to_last. destruct mode.
  - destruct T as [|a T'] eqn:ET.
    + do 3 eexists. repeat split.
    + rewrite <- ET. assert (HT : T <> []) by (rewrite ET; discriminate).
      destruct (@char_advance_to_last_all_spec A is_separator T (length T) 0
                  (2 + length T))
        as (it' & Hrun & Hend & Hy); [cbn [skipn]; lia | lia | lia |].
      cbn [skipn] in *.
      exists (char_mode.char_state is_separator T all 0 false),
             (char_mode.char_sections is_separator T), it'.
      split; [apply char_split_iterator_new_all; assumption|].
      split; [apply char_split_all|].
      change (char_mode.is_end (char_mode.char_state is_separator T all 0 false))
        with false.
      change (char_mode.used_mode (char_mode.char_state is_separator T all 0 false))
        with all.
      change (units (char_mode.itt_text
                       (char_mode.char_state is_separator T all 0 false)))
        with T.
      cbn [negb]. rewrite Hrun, Hend.
      split; [|assumption].
      destruct (char_sections_cons is_separator T) as (s & ss & ->). reflexivity.
  - destruct (@char_split_iterator_new_skip A is_separator T)
      as (it & Hnew & [[-> Hnone] | (pos & Hpos & -> & Hne & Hsec)]).
    + exists (char_mode.char_state is_separator T skip_empty (length T) true),
             (filter nonempty (char_mode.char_sections is_separator T)),
             (char_mode.char_state is_separator T skip_empty (length T) true).
      split; [assumption|].
      split; [apply char_split_skip_empty|].
      rewrite Hnone, char_yielded_at_end.
      split; reflexivity.
    + destruct (@char_advance_to_last_skip_spec A is_separator T
                  (length T - pos) pos (2 + length (skipn pos T))
                  (@char_mode.split_iterator_default A))
        as (it' & Hrun & Hend & Hy);
        try assumption; try (rewrite ?length_skipn; lia).
      exists (char_mode.char_state is_separator T skip_empty pos false),
             (filter nonempty (char_mode.char_sections is_separator T)), it'.
      split; [assumption|].
      split; [apply char_split_skip_empty|].
      change (char_mode.is_end
                (char_mode.char_state is_separator T skip_empty pos false))
        with false.
      change (char_mode.used_mode
                (char_mode.char_state is_separator T skip_empty pos false))
        with skip_empty.
      change (units (char_mode.itt_text
                       (char_mode.char_state is_separator T skip_empty pos false)))
        with (skipn pos T).
      cbn [negb]. rewrite Hrun, Hend, Hsec.
      split; [|assumption].
      rewrite (@char_skip_sections_hd A is_separator T pos Hne).
      reflexivity.
Qed.

(* ------------------------------------------------------------------ *)
(** ** Replacing and splitting *)

Section ReplaceSplitJoin.
Context {A B C : Type}.
Variable compare : A -> B -> bool.
Variable cast : C -> A.
Variable p : list B.
Variable r : list C.
Hypothesis p_not_empty : p <> [].

Lemma token_sections_not_nil (n : nat) (t : list A) :
  exists x rest, token_sections compare n p t = x :: rest.
Proof.
  destruct n as [|n]; simpl; [eauto|].
  destruct (first_match compare t p); eauto.
Qed.

(** Left-to-right replacement puts the replacement where the separator
    matches stood between the sections. *)
Lemma replaced_join_sections (target : list A) (n : nat) : forall t : list A,
  length t <= n ->
  replaced compare cast p r 0 t
  = join (fun c => c) cast target (token_sections compare n p t) r true.
Proof.
  induction n as [|n IH]; intros t Hlen.
  - destruct t; [|simpl in Hlen; lia]. cbn [token_sections].
    rewrite join_cons. reflexivity.
  - cbn [token_sections].
    destruct (first_match compare t p) as [k|] eqn:Hf.
    + rewrite (replaced_first_match compare cast r p_not_empty t Hf).
      destruct (first_match_Some _ _ _ Hf) as (_ & Hk & _).
      pose proof (p_length p_not_empty) as Hpl.
      rewrite (IH (skipn (k + length p) t)) by (rewrite length_skipn; lia).
      destruct (token_sections_not_nil n (skipn (k + length p) t))
        as (x & rest & ->).
      rewrite !join_cons. cbn [map concat].
      rewrite !map_id, <- !app_assoc. reflexivity.
    + rewrite (replaced_no_match compare cast r p_not_empty t Hf).
      rewrite join_cons. cbn [map concat]. rewrite map_id, app_nil_r.
      reflexivity.
Qed.
End ReplaceSplitJoin.

(** X26: for a pattern that is not empty, replacing every occurrence of
    the pattern gives the same string as splitting the text on the pattern
    in mode [all] and joining the sections with the replacement. *)
Theorem replace_all_copy_split_join
        (A B C : Type) (comparer : A -> B -> bool) (cast : C -> A)
        (container : list (list A)) (target T : list A)
        (P : list B) (R : list C) :
  P <> [] ->
  exists sections,
    split_token comparer container T P all true = (sections, Returned tt)
    /\ replace_all_copy comparer cast T P R
       = Returned (join (fun c => c) cast target sections R true).
Proof.
  intros HP. exists (token_sections comparer (length T) P T).
  split; [apply split_token_all; assumption|].
  rewrite replace_all_copy_spec by assumption. f_equal.
  apply replaced_join_sections; [assumption | lia].
Qed.

Lemma replace_all_copy_split_join_witness :
  exists sections,
    split_token char_equals [] (lit "a--b--c") (lit "--") all true
    = (sections, Returned tt)
    /\ replace_all_copy char_equals (fun c => c) (lit "a--b--c") (lit "--") (lit "+")
       = Returned (join (fun c => c) (fun c => c) [] sections (lit "+") true).
Proof.
  apply (@replace_all_copy_split_join ascii ascii ascii char_equals (fun c => c)
           [] [] (lit "a--b--c") (lit "--") (lit "+")).
  discriminate.
Defined.
